(** * xk6-disruptor: the agent controller (pkg/disruptors/controller.go)

    A shallow embedding of [agentController] and of its four methods,
    [InjectDisruptorAgent], [ExecCommand], [Visit] and [Targets], together
    with the constructor [NewAgentController].

    The two orchestrating methods spawn one goroutine per target and
    collect failures on a buffered channel.  They are modelled as an
    interleaving machine: a state holds the position of the main
    goroutine in its [for] loop, the pool of spawned goroutines, the
    content of the [errors] channel and the state of the cluster behind
    the [PodHelper]; a scheduler picks which goroutine moves next.  Every
    property below is proved for all schedules. *)

From Stdlib Require Import ZArith Strings.String Strings.Ascii Strings.Byte Lia.
From Stdlib Require Import DecimalString.
From stdpp Require Import base tactics option list strings gmap sorting.

(* strings are taken apart by computation below *)
#[local] Arguments String.append : clear simpl.

Local Open Scope string_scope.
Local Open Scope list_scope.

(** ** Go values *)

(** Go's [error] values.  [errorString] is what [errors.New] and
    [fmt.Errorf] without [%w] build, [wrapError] what [fmt.Errorf] builds
    when the format has a [%w] verb.  A Go [error] that may be [nil] is an
    [option error]. *)
Inductive error : Type :=
  | errorString (s : string)
  | wrapError (msg : string) (err : error).

(** The [Error()] method. *)
Definition Error (e : error) : string :=
  match e with
  | errorString s => s
  | wrapError msg _ => msg
  end.

(** The [Unwrap()] method. *)
Definition Unwrap (e : error) : option error :=
  match e with
  | errorString _ => None
  | wrapError _ err => Some err
  end.

(** [string(b)] for a byte slice [b]: the same bytes, as a string. *)
Definition string_of_bytes (b : list byte) : string := string_of_list_byte b.

(** [[]byte(s)]. *)
Definition bytes_of_string (s : string) : list byte := list_byte_of_string s.

(** [strings.HasPrefix s p]. *)
Fixpoint HasPrefix (s p : string) : bool :=
  match p, s with
  | EmptyString, _ => true
  | String c p', String d s' => if Ascii.eqb c d then HasPrefix s' p' else false
  | String _ _, EmptyString => false
  end.

(** [strings.Contains s sub]: [sub] occurs in [s] at some offset. *)
Fixpoint Contains (s sub : string) : bool :=
  if HasPrefix s sub then true
  else match s with
       | EmptyString => false
       | String _ s' => Contains s' sub
       end.

(** [time.Duration] is a count of nanoseconds (an int64); the controller
    only compares it with zero and assigns constants to it. *)
Definition Duration := Z.
Definition Second : Duration := 1000000000%Z.

(** ** Kubernetes API objects (k8s.io/api/core/v1), the fields the
    controller sets *)

Inductive PullPolicy := PullAlways | PullNever | PullIfNotPresent.

Record Capabilities := {
  Add : list string;
  Drop : list string
}.

Record SecurityContext := {
  Caps : option Capabilities;
  RunAsUser : option Z;
  RunAsGroup : option Z;
  RunAsNonRoot : option bool
}.

Record EphemeralContainer := {
  Name : string;
  Image : string;
  ImagePullPolicy : PullPolicy;
  SecContext : option SecurityContext;
  TTY : bool;
  Stdin : bool
}.

(** ** The PodHelper interface (pkg/kubernetes/helpers) *)

Record AttachOptions := {
  Timeout : Duration;
  IgnoreIfExists : bool
}.

(** The arguments of one [AttachEphemeralContainer] call. *)
Record AttachCall := {
  attachPod : string;
  attachContainer : EphemeralContainer;
  attachOptions : AttachOptions
}.

(** The arguments of one [Exec] call; the helper's namespace is part of
    the helper. *)
Record Command := {
  Pod : string;
  Container : string;
  Cmd : list string;
  StdinBytes : list byte
}.

(** What [Exec] returns: stdout, stderr and the error. *)
Record ExecResult := {
  stdout : list byte;
  stderr : list byte;
  execErr : option error
}.

(** [helpers.PodHelper]: the two operations the controller consumes.  The
    cluster behind the helper is a state of type [Cl] that each call may
    read and change; [Ctx] is [context.Context]. *)
Record PodHelper (Ctx Cl : Type) := {
  AttachEphemeralContainer :
    Cl -> Ctx -> string -> EphemeralContainer -> AttachOptions -> Cl * option error;
  Exec : Cl -> string -> string -> list string -> list byte -> Cl * ExecResult
}.
Arguments AttachEphemeralContainer {Ctx Cl} _ _ _ _ _ _.
Arguments Exec {Ctx Cl} _ _ _ _ _ _.

(** ** The controller *)

Record agentController (Ctx Cl : Type) := {
  ctx : Ctx;
  helper : PodHelper Ctx Cl;
  namespace : string;
  targets : list string;
  timeout : Duration
}.
Arguments ctx {Ctx Cl} _.
Arguments helper {Ctx Cl} _.
Arguments namespace {Ctx Cl} _.
Arguments targets {Ctx Cl} _.
Arguments timeout {Ctx Cl} _.

(** [NewAgentController]: the two [if]s run one after the other. *)
Definition NewAgentController {Ctx Cl : Type}
    (ctx0 : Ctx) (helper0 : PodHelper Ctx Cl) (namespace0 : string)
    (targets0 : list string) (timeout0 : Duration) : agentController Ctx Cl :=
  let timeout1 := if (timeout0 =? 0)%Z then (30 * Second)%Z else timeout0 in
  let timeout2 := if (timeout1 <? 0)%Z then 0%Z else timeout1 in
  {| ctx := ctx0; helper := helper0; namespace := namespace0;
     targets := targets0; timeout := timeout2 |}.

(** [Targets]: no helper call, hence no cluster state in its type. *)
Definition Targets {Ctx Cl : Type} (c : agentController Ctx Cl)
    : list string * option error :=
  (targets c, None).

(** ** Goroutines, the [errors] channel and the scheduler

    Both [InjectDisruptorAgent] and [Visit] are the same Go text around
    one remote call:
<<
      var wg sync.WaitGroup
      errors := make(chan error, len(c.targets))
      for _, pod := range c.targets {
          (prepare the call for pod)
          wg.Add(1)
          go func(..) { (the remote call); if err != nil { errors <- .. }; wg.Done() }(pod)
      }
      wg.Wait()
      select { case err := <-errors: return err; default: return nil }
>>
    The machine below is that text; [prepare], [call] and [failure] are
    the three places where the two methods differ.

    What prepares the call is, in [Visit], a function of the caller: a Go
    closure, which may keep a state of its own from one call to the next
    and which, having no error to return, fails by panicking.  [prepare]
    therefore takes the state [V] the loop bodies have left and returns
    the new one with the call, or [None] for a panic. *)

(** Who moves: the main goroutine, or the goroutine spawned by the [k]-th
    iteration of the loop. *)
Inductive Tid := Main | Go (k : nat).

(** A spawned goroutine is about to make its remote call, or has made it
    and is about to send on [errors], or has called [wg.Done()]. *)
Inductive Task (Job Res : Type) :=
  | Running (j : Job)
  | Sending (j : Job) (r : Res) (e : error)
  | Finished (j : Job) (r : Res).
Arguments Running {Job Res} _.
Arguments Sending {Job Res} _ _ _.
Arguments Finished {Job Res} _ _.

(** What an observer of a run sees, in the order it happens. *)
Inductive Event (Job Res : Type) :=
  | EvLoop (pod : string)              (* the loop body starts for [pod] *)
  | EvGo (k : nat) (j : Job)           (* the [go] statement of iteration [k] *)
  | EvCall (k : nat) (j : Job) (r : Res) (* goroutine [k]'s remote call and its result *)
  | EvSend (k : nat) (e : error).      (* goroutine [k] sends on [errors] *)
Arguments EvLoop {Job Res} _.
Arguments EvGo {Job Res} _ _.
Arguments EvCall {Job Res} _ _ _.
Arguments EvSend {Job Res} _ _.

Record State (V Cl Job Res : Type) := {
  todo : list string;           (* the targets the loop has not reached yet *)
  vstate : V;                   (* what the loop bodies have left: the visitor's state *)
  tasks : list (Task Job Res);  (* the goroutines, in spawn order *)
  chan : list error;            (* the buffer of [errors], oldest first *)
  cluster : Cl;                 (* the cluster behind the helper *)
  trace : list (Event Job Res)
}.
Arguments todo {V Cl Job Res} _.
Arguments vstate {V Cl Job Res} _.
Arguments tasks {V Cl Job Res} _.
Arguments chan {V Cl Job Res} _.
Arguments cluster {V Cl Job Res} _.
Arguments trace {V Cl Job Res} _.

(** A loop body that keeps nothing from one iteration to the next and
    does not panic. *)
Definition stateless {V Job : Type} (f : string -> Job)
    : V -> string -> option (V * Job) :=
  fun v pod => Some (v, f pod).

Section FanOut.
Context {V Cl Job Res : Type}.
Variable prepare : V -> string -> option (V * Job).
Variable call : Cl -> Job -> Cl * Res.
Variable failure : Res -> option error.
(** the capacity of [errors] *)
Variable cap : nat.

Definition start (v : V) (pods : list string) (cl : Cl) : State V Cl Job Res :=
  {| todo := pods; vstate := v; tasks := []; chan := []; cluster := cl; trace := [] |}.

(** Where a goroutine stands once its call has returned [r]:
    [if err != nil { errors <- .. }], then [wg.Done()]. *)
Definition after_call (j : Job) (r : Res) : Task Job Res :=
  match failure r with
  | Some e => Sending j r e
  | None => Finished j r
  end.

(** One move of goroutine [t]; [None] when [t] cannot move: the loop is
    over or its body panics (the main goroutine is gone and the call
    never returns), the goroutine does not exist or is done, or the
    channel is full (a send on a full channel blocks). *)
Definition step (s : State V Cl Job Res) (t : Tid) : option (State V Cl Job Res) :=
  match t with
  | Main =>
      match todo s with
      | [] => None
      | pod :: rest =>
          match prepare (vstate s) pod with
          | None => None
          | Some (v', j) =>
              Some {| todo := rest;
                      vstate := v';
                      tasks := tasks s ++ [Running j];
                      chan := chan s;
                      cluster := cluster s;
                      trace := trace s ++ [EvLoop pod; EvGo (length (tasks s)) j] |}
          end
      end
  | Go k =>
      match tasks s !! k with
      | Some (Running j) =>
          let '(cl', r) := call (cluster s) j in
          Some {| todo := todo s;
                  vstate := vstate s;
                  tasks := <[k := after_call j r]> (tasks s);
                  chan := chan s;
                  cluster := cl';
                  trace := trace s ++ [EvCall k j r] |}
      | Some (Sending j r e) =>
          if decide (length (chan s) < cap) then
            Some {| todo := todo s;
                    vstate := vstate s;
                    tasks := <[k := Finished j r]> (tasks s);
                    chan := chan s ++ [e];
                    cluster := cluster s;
                    trace := trace s ++ [EvSend k e] |}
          else None
      | _ => None
      end
  end.

(** The next move of the main goroutine is a panic of the loop body. *)
Definition panicking (s : State V Cl Job Res) : bool :=
  match todo s with
  | [] => false
  | pod :: _ => match prepare (vstate s) pod with None => true | Some _ => false end
  end.

(** A schedule is the list of goroutines that move, in order. *)
Fixpoint run (sched : list Tid) (s : State V Cl Job Res) : option (State V Cl Job Res) :=
  match sched with
  | [] => Some s
  | t :: sched' =>
      match step s t with
      | Some s' => run sched' s'
      | None => None
      end
  end.

Definition finished (task : Task Job Res) : bool :=
  match task with Finished _ _ => true | _ => false end.

(** [wg.Wait()] returns: the loop is over and every goroutine has called
    [wg.Done()]. *)
Definition joined (s : State V Cl Job Res) : bool :=
  match todo s with [] => forallb finished (tasks s) | _ => false end.

(** The final [select]: the oldest error in the buffer, or [nil]. *)
Definition selected (s : State V Cl Job Res) : option error := head (chan s).

(** A whole call under schedule [sched]: the state when [wg.Wait()]
    returns and the error returned; [None] when [sched] is not a complete
    run (it asks a goroutine that cannot move to move, or it stops before
    the join). *)
Definition fanout (v : V) (pods : list string) (sched : list Tid) (cl : Cl)
    : option (State V Cl Job Res * option error) :=
  match run sched (start v pods cl) with
  | Some s => if joined s then Some (s, selected s) else None
  | None => None
  end.

(** The remote calls of a trace, with the goroutine that made each. *)
Definition calls (tr : list (Event Job Res)) : list (nat * Job * Res) :=
  omap (fun ev => match ev with EvCall k j r => Some (k, j, r) | _ => None end) tr.

(** The targets for which the loop body started, in order. *)
Definition loops (tr : list (Event Job Res)) : list string :=
  omap (fun ev => match ev with EvLoop pod => Some pod | _ => None end) tr.

(** The sends of a trace. *)
Definition sends (tr : list (Event Job Res)) : list (nat * error) :=
  omap (fun ev => match ev with EvSend k e => Some (k, e) | _ => None end) tr.

(** The call a goroutine was spawned for. *)
Definition job_of (task : Task Job Res) : Job :=
  match task with
  | Running j | Sending j _ _ | Finished j _ => j
  end.

(** The call a goroutine has made and what it returned, once made. *)
Definition outcome_of (task : Task Job Res) : option (Job * Res) :=
  match task with
  | Running _ => None
  | Sending j r _ | Finished j r => Some (j, r)
  end.

(** The moves a goroutine still has to make. *)
Definition moves_left (task : Task Job Res) : nat :=
  match task with
  | Running _ => 2
  | Sending _ _ _ => 1
  | Finished _ _ => 0
  end.

(** The moves the whole call still has to make, at most. *)
Definition fuel (s : State V Cl Job Res) : nat :=
  3 * length (todo s) + sum_list_with moves_left (tasks s).

(** The sends that may still come: one per goroutine not yet finished
    or not yet spawned. *)
Definition may_send (task : Task Job Res) : nat :=
  match task with Finished _ _ => 0 | _ => 1 end.

Definition room_needed (s : State V Cl Job Res) : nat :=
  length (chan s) + length (todo s) + sum_list_with may_send (tasks s).

(** The loop bodies of [pods] run one after the other from [v]: the state
    the last one leaves and the calls they prepare, in order; [None] when
    one of them panics. *)
Fixpoint prepareAll (v : V) (pods : list string) : option (V * list Job) :=
  match pods with
  | [] => Some (v, [])
  | pod :: rest =>
      match prepare v pod with
      | None => None
      | Some (v1, j) =>
          match prepareAll v1 rest with
          | None => None
          | Some (v2, js) => Some (v2, j :: js)
          end
      end
  end.

(** The calls [cs] made one after the other on the cluster [cl], each
    returning what is written with it, leave the cluster [cl']. *)
Fixpoint made (cl : Cl) (cs : list (nat * Job * Res)) (cl' : Cl) : Prop :=
  match cs with
  | [] => cl' = cl
  | (_, j, r) :: rest => exists cl1, call cl j = (cl1, r) /\ made cl1 rest cl'
  end.

(** What holds of every state a run from [start v0 pods cl] goes through. *)
Record invariant (v0 : V) (pods : list string) (s : State V Cl Job Res) : Prop := {
  (* the loop has gone through a prefix of the targets, in order, and
     has spawned one goroutine for each *)
  inv_loop : pods = loops (trace s) ++ todo s;
  (* the loop bodies ran one after the other, each on the state the one
     before left, and the goroutines have the calls they prepared *)
  inv_jobs : prepareAll v0 (loops (trace s)) = Some (vstate s, job_of <$> tasks s);
  (* the calls of the trace are those of the goroutines past their call *)
  inv_calls : forall k j r,
    (k, j, r) ∈ calls (trace s) <-> tasks s !! k ≫= outcome_of = Some (j, r);
  inv_calls_once : NoDup (calls (trace s)).*1.*1;
  (* the channel holds what was sent, in order; a goroutine sends what
     its call failed with, once finished *)
  inv_chan : chan s = (sends (trace s)).*2;
  inv_sends : forall k e,
    (k, e) ∈ sends (trace s) <->
    exists j r, tasks s !! k = Some (Finished j r) /\ failure r = Some e;
  inv_sending : forall k j r e,
    tasks s !! k = Some (Sending j r e) -> failure r = Some e;
  (* the loop body of a target comes before its [go], and both before
     the goroutine's call *)
  inv_order : forall k task, tasks s !! k = Some task ->
    exists tr1 tr2 pod,
      trace s = tr1 ++ [EvLoop pod; EvGo k (job_of task)] ++ tr2 /\
      pods !! k = Some pod /\
      loops tr1 = take k pods /\
      forall j r, EvCall k j r ∉ tr1;
  (* the channel has room for every send that may still come *)
  inv_room : room_needed s <= cap
}.
End FanOut.

(** ** InjectDisruptorAgent *)

Section Controller.
Context {Ctx Cl : Type}.
(** [consts.AgentImage()], from pkg/internal/consts *)
Variable AgentImage : string.

Definition agentContainer : EphemeralContainer :=
  {| Name := "xk6-agent";
     Image := AgentImage;
     ImagePullPolicy := PullIfNotPresent;
     SecContext := Some {| Caps := Some {| Add := ["NET_ADMIN"]; Drop := [] |};
                           RunAsUser := Some 0%Z;
                           RunAsGroup := Some 0%Z;
                           RunAsNonRoot := Some false |};
     TTY := true;
     Stdin := true |}.

(** The arguments goroutine [pod] passes to the helper. *)
Definition injectJob (c : agentController Ctx Cl) (pod : string) : AttachCall :=
  {| attachPod := pod;
     attachContainer := agentContainer;
     attachOptions := {| Timeout := timeout c; IgnoreIfExists := true |} |}.

Definition injectCall (c : agentController Ctx Cl) (cl : Cl) (j : AttachCall)
    : Cl * option error :=
  AttachEphemeralContainer (helper c) cl (ctx c)
    (attachPod j) (attachContainer j) (attachOptions j).

(** [if err != nil { errors <- err }] *)
Definition injectFailure (r : option error) : option error := r.

(** The loop body only starts the goroutine: it keeps no state. *)
Definition InjectDisruptorAgent (c : agentController Ctx Cl)
    (sched : list Tid) (cl : Cl)
    : option (State unit Cl AttachCall (option error) * option error) :=
  fanout (stateless (injectJob c)) (injectCall c) injectFailure (length (targets c))
         tt (targets c) sched cl.

(** ** Visit and ExecCommand *)

(** [fmt.Errorf("error invoking agent: %w \n%s", err, string(stderr))] *)
Definition invokeError (err : error) (stderr0 : list byte) : error :=
  wrapError ("error invoking agent: " ++ Error err ++ " " ++ String "010" ""
             ++ string_of_bytes stderr0)%string err.

(** A visitor, a Go function value of type [func(string) []string].  It
    may be a closure: [V] is what it has captured, which a call may read
    and change.  A call returns a command or panics ([None]), the one way
    in which a function without an error result can fail. *)
Definition Visitor (V : Type) : Type := V -> string -> option (V * list string).

(** The arguments of the [Exec] for [pod] once the visitor has returned
    [cmd].  [cmd] is declared in the loop body and [pod] is passed to the
    goroutine: each goroutine has its own. *)
Definition visitJob (pod : string) (cmd : list string) : Command :=
  {| Pod := pod; Container := "xk6-agent"; Cmd := cmd; StdinBytes := [] |}.

(** The visitor called for the pods of [pods], in order, each call on
    the state the call before left: the state the last call leaves and
    the commands returned; [None] when a call panics. *)
Fixpoint visits {V : Type} (visitor : Visitor V) (v : V) (pods : list string)
    : option (V * list (list string)) :=
  match pods with
  | [] => Some (v, [])
  | pod :: rest =>
      match visitor v pod with
      | None => None
      | Some (v1, cmd) =>
          match visits visitor v1 rest with
          | None => None
          | Some (v2, cmds) => Some (v2, cmd :: cmds)
          end
      end
  end.

(** [cmd := visitor(pod)], in the loop body. *)
Definition askVisitor {V : Type} (visitor : Visitor V) (v : V) (pod : string)
    : option (V * Command) :=
  match visitor v pod with
  | Some (v', cmd) => Some (v', visitJob pod cmd)
  | None => None
  end.

Definition visitCall (c : agentController Ctx Cl) (cl : Cl) (j : Command)
    : Cl * ExecResult :=
  Exec (helper c) cl (Pod j) (Container j) (Cmd j) (StdinBytes j).

(** [if err != nil { errors <- fmt.Errorf(..) }] *)
Definition visitFailure (r : ExecResult) : option error :=
  match execErr r with
  | Some err => Some (invokeError err (stderr r))
  | None => None
  end.

(** [Visit], the visitor being a closure in the state [v]. *)
Definition VisitWith {V : Type} (c : agentController Ctx Cl) (visitor : Visitor V)
    (v : V) (sched : list Tid) (cl : Cl)
    : option (State V Cl Command ExecResult * option error) :=
  fanout (askVisitor visitor) (visitCall c) visitFailure (length (targets c))
         v (targets c) sched cl.

(** [Visit], the visitor being a function of the pod: it has captured
    nothing that changes and it returns a command for every pod. *)
Definition Visit (c : agentController Ctx Cl) (visitor : string -> list string)
    (sched : list Tid) (cl : Cl)
    : option (State unit Cl Command ExecResult * option error) :=
  VisitWith c (fun v pod => Some (v, visitor pod)) tt sched cl.

Definition ExecCommand (c : agentController Ctx Cl) (cmd : list string)
    (sched : list Tid) (cl : Cl)
    : option (State unit Cl Command ExecResult * option error) :=
  Visit c (fun _ => cmd) sched cl.
End Controller.

(** ** The Visit of the specification

    The method [Visit] that the specification describes takes a visitor
    that returns a pair of commands or fails, and cleans up after a failed
    execution.  It is not the [Visit] of controller.go; it is written
    here from the words of the specification, to be compared with
    [ExecCommand]. *)

Module Spec.
(** [Exec] is below a field of [VisitCommands]; the operation of the
    helper is written [helperExec]. *)
Local Abbreviation helperExec := Exec.

(** Modelled from the spec: the type [VisitCommands] is not part of
    controller.go, whose visitor returns one command.  The spec's data
    model has "a value pair {Exec: sequence of strings, Cleanup: sequence
    of strings}". *)
Record VisitCommands := {
  Exec : list string;
  Cleanup : list string
}.

(** Modelled from the spec: the visitor, "given a pod, produce a
    VisitCommands or fail", a "pure function from pod identity to the
    command pair to run". *)
Definition Visitor : Type := string -> VisitCommands + error.

(** "a constant visitor that returns {Exec: cmd, Cleanup: []} for every
    target" *)
Definition constantVisitor (cmd : list string) : Visitor :=
  fun _ => inl {| Exec := cmd; Cleanup := [] |}.

(** Modelled from the spec: where the task of a target stands.  "Per
    target, conceptually: [..] Executing, then Completed, or Failed, then
    CleaningUp, then CleanupDone". *)
Inductive Task :=
  | Executing (pod : string) (cmds : VisitCommands) (* the Exec command is to be executed *)
  | CleaningUp (pod : string) (cmds : VisitCommands) (e : error)
                               (* it failed, with [e] to record; the cleanup is to come *)
  | Failed (e : error)         (* the failure of the target is to be recorded *)
  | Completed.                 (* nothing is left to do *)

Record State (Cl : Type) := {
  todo : list string;          (* the targets that have no task yet *)
  tasks : list Task;           (* the tasks, in the order of the targets *)
  failures : list error;       (* the failures recorded, oldest first *)
  cluster : Cl;
  executions : list (nat * Command * ExecResult)
                               (* the executions made, with the task of each *)
}.
Arguments todo {Cl} _.
Arguments tasks {Cl} _.
Arguments failures {Cl} _.
Arguments cluster {Cl} _.
Arguments executions {Cl} _.

Section Visit.
Context {Ctx Cl : Type}.
Variable c : agentController Ctx Cl.
Variable visitor : Visitor.

(** Modelled from the spec: "for every target, ask the visitor for its
    VisitCommands; if the visitor itself fails for a target, that counts
    as a target failure". *)
Definition taskFor (pod : string) : Task :=
  match visitor pod with
  | inl cmds => Executing pod cmds
  | inr err => Failed err
  end.

(** An execution "against the target's agent container". *)
Definition execution (pod : string) (cmd : list string) : Command :=
  {| Pod := pod; Container := "xk6-agent"; Cmd := cmd; StdinBytes := [] |}.

(** Modelled from the spec: one move.  The next target gets its task
    ("one task per target"), or the task [k] takes its next step:
    "1. Execute the Exec command against the target's agent container.
    2. If execution fails, execute the Cleanup command against the same
    target's agent container (best-effort compensation), then record the
    original Exec error, enriched with the captured stderr text, as the
    target's failure.  3. If execution succeeds, no cleanup command is
    issued."  With "Cleanup: []" there is "no compensating cleanup".  The
    failures go to "a buffered channel sized to the target count"; the
    text of the enriched error is that of controller.go. *)
Definition step (s : State Cl) (t : Tid) : option (State Cl) :=
  match t with
  | Main =>
      match todo s with
      | [] => None
      | pod :: rest =>
          Some {| todo := rest;
                  tasks := tasks s ++ [taskFor pod];
                  failures := failures s;
                  cluster := cluster s;
                  executions := executions s |}
      end
  | Go k =>
      match tasks s !! k with
      | Some (Executing pod cmds) =>
          let '(cl', res) :=
            helperExec (helper c) (cluster s) pod "xk6-agent" (Exec cmds) [] in
          let task' :=
            match execErr res with
            | None => Completed
            | Some err =>
                let e := invokeError err (stderr res) in
                match Cleanup cmds with
                | [] => Failed e
                | _ :: _ => CleaningUp pod cmds e
                end
            end in
          Some {| todo := todo s;
                  tasks := <[k := task']> (tasks s);
                  failures := failures s;
                  cluster := cl';
                  executions := executions s ++ [(k, execution pod (Exec cmds), res)] |}
      | Some (CleaningUp pod cmds e) =>
          let '(cl', res) :=
            helperExec (helper c) (cluster s) pod "xk6-agent" (Cleanup cmds) [] in
          Some {| todo := todo s;
                  tasks := <[k := Failed e]> (tasks s);
                  failures := failures s;
                  cluster := cl';
                  executions := executions s ++ [(k, execution pod (Cleanup cmds), res)] |}
      | Some (Failed e) =>
          if decide (length (failures s) < length (targets c)) then
            Some {| todo := todo s;
                    tasks := <[k := Completed]> (tasks s);
                    failures := failures s ++ [e];
                    cluster := cluster s;
                    executions := executions s |}
          else None
      | _ => None
      end
  end.

Fixpoint run (sched : list Tid) (s : State Cl) : option (State Cl) :=
  match sched with
  | [] => Some s
  | t :: sched' =>
      match step s t with
      | Some s' => run sched' s'
      | None => None
      end
  end.

Definition completed (task : Task) : bool :=
  match task with Completed => true | _ => false end.

(** "every task runs to completion" *)
Definition joined (s : State Cl) : bool :=
  match todo s with [] => forallb completed (tasks s) | _ => false end.

(** Modelled from the spec: "All targets are visited concurrently, one
    task per target; [..] every task runs to completion regardless of
    sibling failures, and the aggregate result is the first error seen
    (or nil)", under the schedule [sched]. *)
Definition Visit (sched : list Tid) (cl : Cl) : option (State Cl * option error) :=
  match run sched {| todo := targets c; tasks := []; failures := [];
                     cluster := cl; executions := [] |} with
  | Some s => if joined s then Some (s, head (failures s)) else None
  | None => None
  end.
End Visit.
End Spec.

(** ** A cluster to run the controller against *)

(** Modelled from the spec: the implementation of [PodHelper]
    (pkg/kubernetes/helpers) and the fake command executor of the tests are
    not part of the sources at hand.  The cluster keeps, per pod, the
    ephemeral containers attached to it, and the history of the commands
    executed (the tests' [GetHistory]). *)
Record FakeCluster := {
  ephemeral : list (string * list EphemeralContainer);
  history : list Command
}.

Fixpoint containersOf (pods : list (string * list EphemeralContainer)) (pod : string)
    : option (list EphemeralContainer) :=
  match pods with
  | [] => None
  | (p, cs) :: rest => if String.eqb p pod then Some cs else containersOf rest pod
  end.

Fixpoint attachTo (pods : list (string * list EphemeralContainer)) (pod : string)
    (c : EphemeralContainer) : list (string * list EphemeralContainer) :=
  match pods with
  | [] => []
  | (p, cs) :: rest =>
      if String.eqb p pod then (p, cs ++ [c]) :: rest
      else (p, cs) :: attachTo rest pod c
  end.

Definition hasContainer (cl : FakeCluster) (pod name : string) : bool :=
  match containersOf (ephemeral cl) pod with
  | Some cs => existsb (fun c => String.eqb (Name c) name) cs
  | None => false
  end.

(** Modelled from the spec: "attaches the given container spec to the
    named pod; waits up to Timeout for the container to become ready
    unless Timeout == 0; IgnoreIfExists=true makes re-attachment a no-op
    success."  [ready] says whether the cluster ever reports the container
    ready (the fake client of the tests never does). *)
Definition fakeAttach (ready : bool) (cl : FakeCluster) (_ : unit) (pod : string)
    (c : EphemeralContainer) (opts : AttachOptions) : FakeCluster * option error :=
  match containersOf (ephemeral cl) pod with
  | None => (cl, Some (errorString "pod not found"))
  | Some cs =>
      if existsb (fun c' => String.eqb (Name c') (Name c)) cs then
        if IgnoreIfExists opts then (cl, None)
        else (cl, Some (errorString "ephemeral container already exists"))
      else
        let cl' := {| ephemeral := attachTo (ephemeral cl) pod c;
                      history := history cl |} in
        if (Timeout opts =? 0)%Z then (cl', None)
        else if ready then (cl', None)
        else (cl', Some (errorString "timeout waiting for ephemeral container"))
  end.

(** Modelled from the spec: "runs a command inside an existing container
    and returns captured output streams".  As the fake executor of the
    tests, it records the command and answers with a result fixed
    beforehand ([SetResult]), here per pod. *)
Definition fakeExec (result : string -> ExecResult) (cl : FakeCluster)
    (pod container : string) (cmd : list string) (stdin : list byte)
    : FakeCluster * ExecResult :=
  ({| ephemeral := ephemeral cl;
      history := history cl ++ [{| Pod := pod; Container := container;
                                   Cmd := cmd; StdinBytes := stdin |}] |},
   result pod).

Definition fakeHelper (ready : bool) (result : string -> ExecResult)
    : PodHelper unit FakeCluster :=
  {| AttachEphemeralContainer := fakeAttach ready;
     Exec := fakeExec result |}.

(** The two scenarios of Test_VisitPod. *)
Definition succeeds : string -> ExecResult :=
  fun _ => {| stdout := []; stderr := []; execErr := None |}.

Definition fails (out : string) : string -> ExecResult :=
  fun _ => {| stdout := []; stderr := bytes_of_string out;
              execErr := Some (errorString "fake error") |}.

(** Every pod fails and writes its own name on stderr. *)
Definition failsWithPodName : string -> ExecResult :=
  fun pod => {| stdout := []; stderr := bytes_of_string pod;
                execErr := Some (errorString "fake error") |}.

Definition emptyCluster (pods : list string) : FakeCluster :=
  {| ephemeral := (fun pod => (pod, [])) <$> pods; history := [] |}.

Definition testController (result : string -> ExecResult) (pods : list string)
    (timeout0 : Duration) : agentController unit FakeCluster :=
  NewAgentController tt (fakeHelper false result) "test-ns" pods timeout0.

(** The schedule that lets each goroutine run to its end as soon as it is
    spawned, when every call fails (two moves each) or none does (one). *)
Fixpoint inOrder (failing : bool) (k n : nat) : list Tid :=
  match n with
  | 0 => []
  | S n' => (Main :: Go k :: if failing then [Go k] else []) ++ inOrder failing (S k) n'
  end.

(** Two visitors to run [Visit] with.  The first is a closure over a
    counter: it numbers its calls and puts the number in the command.
    The second panics for the pod [bad]. *)
Definition countingVisitor : Visitor nat :=
  fun n pod => Some (S n, ["command"; pod; NilZero.string_of_uint (Nat.to_uint n)]).


(** ** Runs that have not reached the join *)

Section Runs.
Context {Ctx Cl : Type}.
Variable AgentImage : string.

(** The state of a call of [Visit] after the moves of [sched], wherever
    that is; [Visit] is this run taken up to the join. *)
Definition visitRunWith {V : Type} (c : agentController Ctx Cl) (visitor : Visitor V)
    (v : V) (sched : list Tid) (cl : Cl) : option (State V Cl Command ExecResult) :=
  run (askVisitor visitor) (visitCall c) visitFailure (length (targets c))
      sched (start v (targets c) cl).

Definition visitRun (c : agentController Ctx Cl) (visitor : string -> list string)
    (sched : list Tid) (cl : Cl) : option (State unit Cl Command ExecResult) :=
  visitRunWith c (fun v pod => Some (v, visitor pod)) tt sched cl.

(** The same for [InjectDisruptorAgent]. *)
Definition injectRun (c : agentController Ctx Cl) (sched : list Tid) (cl : Cl)
    : option (State unit Cl AttachCall (option error)) :=
  run (stateless (injectJob AgentImage c)) (injectCall c) injectFailure
      (length (targets c)) sched (start tt (targets c) cl).
End Runs.

(** ** ExecCommand and the Visit of the specification, side by side *)

Section SideBySide.
Context {Cl : Type}.
Variable cmd : list string.

(** A goroutine of [ExecCommand cmd] and the task that the [Visit] of the
    specification has for the same target, at the same point. *)
Definition sameTask (task : Task Command ExecResult) (task' : Spec.Task) : Prop :=
  match task, task' with
  | Running j, Spec.Executing pod cmds =>
      j = visitJob pod cmd /\ cmds = {| Spec.Exec := cmd; Spec.Cleanup := [] |}
  | Sending _ _ e, Spec.Failed e' => e = e'
  | Finished _ _, Spec.Completed => True
  | _, _ => False
  end.

(** The two calls at the same point. *)
Record samePoint (s : State unit Cl Command ExecResult) (s' : Spec.State Cl) : Prop := {
  same_todo : todo s = Spec.todo s';
  same_tasks : Forall2 sameTask (tasks s) (Spec.tasks s');
  same_chan : chan s = Spec.failures s';
  same_cluster : cluster s = Spec.cluster s';
  same_calls : calls (trace s) = Spec.executions s'
}.
End SideBySide.

(** What is seen of a call from outside: the remote executions, in the
    order in which they were made, the cluster they leave and the error
    returned. *)
Definition observed {V Cl : Type}
    (result : State V Cl Command ExecResult * option error)
    : list (nat * Command * ExecResult) * Cl * option error :=
  (calls (trace result.1), cluster result.1, result.2).

Definition observedOfSpec {Cl : Type} (result : Spec.State Cl * option error)
    : list (nat * Command * ExecResult) * Cl * option error :=
  (Spec.executions result.1, Spec.cluster result.1, result.2).

(** ** Two sentences of the specification, as they are written

    Each is stated here over the runs of [Visit] so that it can be
    compared with what the code does. *)



(** ** The error of a failed execution *)

(** "the error returned to the caller has a message that contains the raw
    stderr bytes captured from that failed execution": when an execution
    has failed the call returns an error, and the error it returns was
    built for an execution that the helper made for a target and that
    failed, from the error of that execution and, in its message, the
    bytes that the execution wrote on stderr. *)
Definition stderrOfReturnedFailure {V Ctx Cl : Type} (c : agentController Ctx Cl)
    (s : State V Cl Command ExecResult) (r : option error) : Prop :=
  ((exists k j res, (k, j, res) ∈ calls (trace s) /\ execErr res <> None) ->
   r <> None) /\
  forall e, r = Some e ->
    exists k pod cmd cl1 cl2 res err,
      targets c !! k = Some pod /\
      Exec (helper c) cl1 pod "xk6-agent" cmd [] = (cl2, res) /\
      (k, visitJob pod cmd, res) ∈ calls (trace s) /\
      execErr res = Some err /\
      e = wrapError ("error invoking agent: " ++ Error err ++ " " ++ String "010" ""
                     ++ string_of_bytes (stderr res))%string err /\
      Contains (Error e) (string_of_bytes (stderr res)) = true.

(** * depsync: the script that compares the dependencies with those of k6

    [dependencies] and the loop of [main] that follows the two calls of
    it. *)

(** ** Strings (package strings) *)

(** [s[n:]] *)
Fixpoint dropBytes (n : nat) (s : string) : string :=
  match n, s with
  | 0, _ => s
  | S n', String _ s' => dropBytes n' s'
  | S _, EmptyString => EmptyString
  end.

(** [strings.TrimPrefix s p] *)
Definition TrimPrefix (s p : string) : string :=
  if HasPrefix s p then dropBytes (String.length p) s else s.

(** [strings.HasSuffix s suffix] *)
Definition HasSuffix (s suffix : string) : bool :=
  Nat.leb (String.length suffix) (String.length s) &&
  String.eqb (dropBytes (String.length s - String.length suffix) s) suffix.

(** [strings.TrimSuffix s suffix] *)
Definition TrimSuffix (s suffix : string) : string :=
  if HasSuffix s suffix
  then String.substring 0 (String.length s - String.length suffix) s
  else s.

(** [strings.Split s sep] for a separator of one byte, which is what
    [dependencies] passes: the pieces of [s] between the separators, one
    more than there are separators. *)
Fixpoint Split (s : string) (sep : ascii) : list string :=
  match s with
  | EmptyString => [EmptyString]
  | String c s' =>
      if Ascii.eqb c sep then EmptyString :: Split s' sep
      else match Split s' sep with
           | piece :: pieces => String c piece :: pieces
           | [] => [String c EmptyString]
           end
  end.

(** [strings.IndexByte s c >= 0] *)
Fixpoint hasByte (s : string) (c : ascii) : bool :=
  match s with
  | EmptyString => false
  | String d s' => if Ascii.eqb d c then true else hasByte s' c
  end.

(** [strings.Join elems sep] *)
Definition Join (elems : list string) (sep : string) : string :=
  String.concat sep elems.

(** ** The reader (packages io and bufio) *)

(** A [bufio.Reader] on an [io.Reader]: the bytes not read yet and how the
    reader ends after them, with io.EOF or an error that wraps it ([None]),
    or with an error [err] for which [errors.Is(err, io.EOF)] is false. *)
Record Reader := {
  unread : string;
  fault : option error
}.

(** What [errors.Is(err, io.EOF)] and [err != nil] tell of the error of a
    read. *)
Inductive readStatus :=
  | ReadOk                 (* err == nil *)
  | ReadEOF                (* errors.Is(err, io.EOF) *)
  | ReadErr (err : error). (* any other error *)

(** The bytes of [s] up to and including the first [delim], and the bytes
    after it; [None] when [delim] is not in [s]. *)
Fixpoint upTo (delim : ascii) (s : string) : option (string * string) :=
  match s with
  | EmptyString => None
  | String c s' =>
      if Ascii.eqb c delim then Some (String c EmptyString, s')
      else match upTo delim s' with
           | Some (line, rest) => Some (String c line, rest)
           | None => None
           end
  end.

(** [buf.ReadString(delim)]: "reads until the first occurrence of delim in
    the input, returning a string containing the data up to and including
    the delimiter.  If ReadString encounters an error before finding a
    delimiter, it returns the data read before the error and the error
    itself (often io.EOF)." *)
Definition ReadString (buf : Reader) (delim : ascii)
    : string * readStatus * Reader :=
  match upTo delim (unread buf) with
  | Some (line, rest) => (line, ReadOk, {| unread := rest; fault := fault buf |})
  | None =>
      (unread buf,
       match fault buf with Some err => ReadErr err | None => ReadEOF end,
       {| unread := EmptyString; fault := fault buf |})
  end.

(** ** dependencies *)

(** What a call of [dependencies] comes to: the map and a nil error, a nil
    map and an error, or the panic of the runtime when [pieces[1]] is out
    of range. *)
Inductive depsResult :=
  | Deps (deps : gmap string string)
  | DepsErr (err : error)
  | DepsPanic (index len : nat).

Definition tab : ascii := "009"%char.
Definition newline : ascii := "010"%char.

(** The [for] loop of [dependencies]; [fuel] bounds the iterations, and
    one more than the number of bytes to read is enough. *)
Fixpoint dependenciesLoop (fuel : nat) (buf : Reader) (deps : gmap string string)
    : option depsResult :=
  match fuel with
  | 0 => None
  | S fuel' =>
      let '(line, status, buf') := ReadString buf newline in
      match status with
      | ReadEOF => Some (Deps deps)
      | ReadErr err =>
          Some (DepsErr (wrapError ("reading go.mod: " ++ Error err)%string err))
      | ReadOk =>
          if negb (HasPrefix line (String tab EmptyString))
          then dependenciesLoop fuel' buf' deps
          else
            let line1 := TrimPrefix line (String tab EmptyString) in
            let line2 := TrimSuffix line1 (String newline EmptyString) in
            let pieces := Split line2 " "%char in
            match pieces !! 0, pieces !! 1 with
            | Some dep, Some version =>
                dependenciesLoop fuel' buf' (<[dep := version]> deps)
            | _, _ => Some (DepsPanic 1 (length pieces))
            end
      end
  end.

Definition dependencies (reader : Reader) : option depsResult :=
  dependenciesLoop (S (String.length (unread reader))) reader ∅.

(** ** main, from the two maps on *)

(** The loop of [main] over [ownDeps], the entries taken in the order
    [order] in which [range] happens to give them. *)
Fixpoint mismatchedIn (order : list (string * string))
    (coreDeps : gmap string string) : list string :=
  match order with
  | [] => []
  | (dep, version) :: rest =>
      match coreDeps !! dep with
      | None => mismatchedIn rest coreDeps
      | Some coreVersion =>
          if String.eqb version coreVersion then mismatchedIn rest coreDeps
          else (dep ++ "@" ++ coreVersion)%string :: mismatchedIn rest coreDeps
      end
  end.

(** The order of [sort.Strings]: [a <= b] on Go strings, byte by byte. *)
Definition stringLe (a b : string) : Prop := String.leb a b = true.

#[global] Instance stringLe_dec (a b : string) : Decision (stringLe a b).
Proof. unfold stringLe. apply _. Defined.

(** [sort.Strings]: the sorted arrangement of the slice, of which there is
    one; a merge sort computes it. *)
Definition sortStrings (l : list string) : list string := merge_sort stringLe l.

(** What [main] writes on stdout, if anything. *)
Definition mainOutput (order : list (string * string))
    (coreDeps : gmap string string) : option string :=
  let mismatched := mismatchedIn order coreDeps in
  if Nat.eqb (length mismatched) 0 then None
  else Some ("go get " ++ Join (sortStrings mismatched) " "
             ++ String newline EmptyString)%string.

(** The map of a result with the entries of [base] under it: the entries
    read later override those read before. *)
Definition overDeps (base : gmap string string) (res : depsResult) : depsResult :=
  match res with
  | Deps deps => Deps (deps ∪ base)
  | other => other
  end.

(** The bytes of [s] before its first blank: the version of a requirement,
    without the comment that may follow it. *)
Definition firstField (s : string) : string := default EmptyString (head (Split s " "%char)).

(** The lines [<tab>module version] of a list of requirements. *)
Fixpoint requireLines (entries : list (string * string)) : string :=
  match entries with
  | [] => EmptyString
  | (dep, version) :: rest =>
      (String tab dep ++ String " "%char version
       ++ String newline (requireLines rest))%string
  end.

(** * The cluster of the end-to-end tests (pkg/testutils/e2e/cluster) *)

Module E2e.

(** [fmt.Sprintf("%d", n)] *)
Definition Itoa (n : Z) : string := NilZero.string_of_int (Z.to_int n).

(** [cluster.NodePort] and [cluster.Options], of pkg/testutils/cluster. *)
Record ClusterNodePort := {
  HostPort : Z;
  NodePort : Z
}.

Record ClusterOptions := {
  OptImages : list string;
  OptWait : Duration;
  OptNodePorts : list ClusterNodePort
}.

Section Model.
(** The world the build acts on, and the configurations, clusters and
    kubectl clients of the packages it calls. *)
Context {W Config Cluster Client : Type}.

(** The calls into the packages cluster, kubectl, fetch and time; each one
    takes the world as it is and gives it back as it leaves it. *)
Record Externals := {
  NewConfig : string -> ClusterOptions -> W -> W * (Config + error);
  Create : Config -> W -> W * (Cluster + error);
  ClusterDelete : Cluster -> W -> W * option error;
  ClusterKubeconfig : Cluster -> string;
  NewFromKubeconfig : string -> W -> W * (Client + error);
  Apply : Client -> string -> W -> W * option error;
  FromURL : string -> W -> W * (list byte + error);
  Sleep : Duration -> W -> W
}.

Variable ext : Externals.

(** [e2eCluster] and its four methods. *)
Record e2eCluster := {
  cluster : Cluster;
  ingress : string;
  name : string
}.

Definition Delete (c : e2eCluster) (w : W) : W * option error :=
  ClusterDelete ext (cluster c) w.
Definition Name (c : e2eCluster) : string := name c.
Definition Ingress (c : e2eCluster) : string := ingress c.
Definition Kubeconfig (c : e2eCluster) : string := ClusterKubeconfig ext (cluster c).

(** [PostInstall]; the context is [context.TODO()]. *)
Definition PostInstall := e2eCluster -> W -> W * option error.

(** The fields [Name] and [PostInstall] are [CfgName] and [PostInstalls]
    here, where [Name] is the method and [PostInstall] the type. *)
Record E2eClusterConfig := {
  CfgName : string;
  Images : list string;
  IngressAddr : string;
  IngressPort : Z;
  PostInstalls : list PostInstall;
  Reuse : bool;
  Wait : Duration
}.

Definition E2eClusterOption := E2eClusterConfig -> E2eClusterConfig + error.

Definition WithIngressPort (port : Z) : E2eClusterOption :=
  fun c => inl {| CfgName := CfgName c; Images := Images c; IngressAddr := IngressAddr c;
                  IngressPort := port; PostInstalls := PostInstalls c;
                  Reuse := Reuse c; Wait := Wait c |}.

Definition WithIngressAddress (address : string) : E2eClusterOption :=
  fun c => inl {| CfgName := CfgName c; Images := Images c; IngressAddr := address;
                  IngressPort := IngressPort c; PostInstalls := PostInstalls c;
                  Reuse := Reuse c; Wait := Wait c |}.

Definition WithName (name0 : string) : E2eClusterOption :=
  fun c => inl {| CfgName := name0; Images := Images c; IngressAddr := IngressAddr c;
                  IngressPort := IngressPort c; PostInstalls := PostInstalls c;
                  Reuse := Reuse c; Wait := Wait c |}.

Definition WithWait (timeout0 : Duration) : E2eClusterOption :=
  fun c => inl {| CfgName := CfgName c; Images := Images c; IngressAddr := IngressAddr c;
                  IngressPort := IngressPort c; PostInstalls := PostInstalls c;
                  Reuse := Reuse c; Wait := timeout0 |}.

Definition contourConfig : string := "
apiVersion: v1
kind: ConfigMap
metadata:
  name: contour
  namespace: projectcontour
data:
  contour.yaml: |
    disablePermitInsecure: false
    ingress-status-address: local.projectcontour.io

".

Definition contourBaseURL : string :=
  "https://raw.githubusercontent.com/projectcontour/contour/main/examples/contour/".

Definition contourManifests : list string :=
  [ "00-common.yaml"; "01-crds.yaml"; "02-job-certgen.yaml"; "02-rbac.yaml";
    "02-role-contour.yaml"; "02-service-contour.yaml"; "02-service-envoy.yaml";
    "03-contour.yaml"; "03-envoy.yaml" ].

(** The loop of [InstallContourIngress] over the manifests. *)
Fixpoint applyManifests (client : Client) (manifests : list string) (w : W)
    : W * option error :=
  match manifests with
  | [] => (w, None)
  | manifest :: rest =>
      let url := (contourBaseURL ++ manifest)%string in
      let '(w1, fetched) := FromURL ext url w in
      match fetched with
      | inr err2 => (w1, Some err2)
      | inl yaml =>
          let '(w2, err2) := Apply ext client (string_of_bytes yaml) w1 in
          match err2 with
          | Some err2 => (w2, Some err2)
          | None => applyManifests client rest w2
          end
      end
  end.

Definition InstallContourIngress : PostInstall :=
  fun c w =>
    let '(w0, made) := NewFromKubeconfig ext (Kubeconfig c) w in
    match made with
    | inr err => (w0, Some err)
    | inl client =>
        let '(w1, err) := applyManifests client contourManifests w0 in
        match err with
        | Some err => (w1, Some err)
        | None => Apply ext client contourConfig w1
        end
    end.

Definition DefaultE2eClusterConfig : E2eClusterConfig :=
  {| CfgName := "e2e-tests";
     Images := ["ghcr.io/grafana/xk6-disruptor-agent:latest"];
     IngressAddr := "localhost";
     IngressPort := 30080;
     Reuse := true;
     Wait := (60 * Second)%Z;
     PostInstalls := [InstallContourIngress] |}.

(** The first loop of [BuildE2eCluster]: the options, in order. *)
Fixpoint applyOptions (e2eConfig : E2eClusterConfig) (ops : list E2eClusterOption)
    : E2eClusterConfig + error :=
  match ops with
  | [] => inl e2eConfig
  | option :: rest =>
      match option e2eConfig with
      | inr err => inr err
      | inl e2eConfig' => applyOptions e2eConfig' rest
      end
  end.

(** Its last loop: the post install functions, in order, and the cluster
    deleted when one fails. *)
Fixpoint runPostInstall (postInstalls : list PostInstall) (c : e2eCluster) (w : W)
    : W * option error :=
  match postInstalls with
  | [] => (w, None)
  | postInstall :: rest =>
      let '(w1, err) := postInstall c w in
      match err with
      | Some err => ((Delete c w1).1, Some err)
      | None => runPostInstall rest c w1
      end
  end.

Definition BuildE2eCluster (e2eConfig : E2eClusterConfig) (ops : list E2eClusterOption)
    (w : W) : W * (e2eCluster + error) :=
  match applyOptions e2eConfig ops with
  | inr err => (w, inr err)
  | inl e2eConfig =>
      let '(w0, made) :=
        NewConfig ext (CfgName e2eConfig)
          {| OptImages := Images e2eConfig;
             OptWait := Wait e2eConfig;
             OptNodePorts := [{| HostPort := IngressPort e2eConfig; NodePort := 80 |}] |}
          w in
      match made with
      | inr err =>
          (w0, inr (wrapError ("failed to create cluster config: " ++ Error err)%string err))
      | inl config =>
          let '(w1, created) := Create ext config w0 in
          match created with
          | inr err =>
              (w1, inr (wrapError ("failed to create cluster: " ++ Error err)%string err))
          | inl c =>
              let cl := {| cluster := c;
                           ingress := (IngressAddr e2eConfig ++ ":"
                                       ++ Itoa (IngressPort e2eConfig))%string;
                           name := CfgName e2eConfig |} in
              let '(w2, err) := runPostInstall (PostInstalls e2eConfig) cl w1 in
              match err with
              | Some err => (w2, inr err)
              | None => (Sleep ext (Wait e2eConfig) w2, inl cl)
              end
          end
      end
  end.

Definition BuildDefaultE2eCluster (w : W) : W * (e2eCluster + error) :=
  BuildE2eCluster DefaultE2eClusterConfig [] w.

(** [BuildCluster], which returns what [config.Create()] returns. *)
Definition BuildCluster (name0 : string) (ports : list ClusterNodePort) (w : W)
    : W * (Cluster + error) :=
  let '(w0, made) :=
    NewConfig ext name0
      {| OptImages := ["ghcr.io/grafana/xk6-disruptor-agent:latest"];
         OptWait := (Second * 60)%Z;
         OptNodePorts := ports |} w in
  match made with
  | inr err =>
      (w0, inr (wrapError ("failed to create cluster config: " ++ Error err)%string err))
  | inl config => Create ext config w0
  end.
End Model.
End E2e.

(** A world for the scenarios: the log of the calls made into the other
    packages, which fail on the names for which [failing] holds.  It stands
    for no code of the repository. *)
Definition logExternals (failing : string -> bool)
    : @E2e.Externals (list string) string string string :=
  {| E2e.NewConfig := fun name0 _ w =>
       (w ++ [("NewConfig " ++ name0)%string],
        if failing name0 then inr (errorString "bad name") else inl name0);
     E2e.Create := fun config w => (w ++ [("Create " ++ config)%string], inl config);
     E2e.ClusterDelete := fun c w => (w ++ [("Delete " ++ c)%string], None);
     E2e.ClusterKubeconfig := fun c => ("/tmp/" ++ c)%string;
     E2e.NewFromKubeconfig := fun path w => (w ++ [("kubectl " ++ path)%string], inl path);
     E2e.Apply := fun _ yaml w =>
       (w ++ [("Apply " ++ yaml)%string],
        if failing yaml then Some (errorString "apply failed") else None);
     E2e.FromURL := fun url w =>
       (w ++ [("GET " ++ url)%string],
        if failing url then inr (errorString "not found")
        else inl (bytes_of_string url));
     E2e.Sleep := fun _ w => w ++ ["Sleep"] |}.

(** * Properties *)

(** ** Lists *)

Lemma sum_list_insert {A : Type} (w : A -> nat) (l : list A) (k : nat) (x y : A) :
  l !! k = Some x ->
  sum_list_with w (<[k := y]> l) + w x = sum_list_with w l + w y.
Proof.
  revert k. induction l as [|a l IH]; intros [|k] Hk; simplify_eq/=; [lia|].
  specialize (IH _ Hk). lia.
Qed.

Lemma sum_list_lookup_le {A : Type} (w : A -> nat) (l : list A) (k : nat) (x : A) :
  l !! k = Some x -> w x <= sum_list_with w l.
Proof. intros Hk. eapply sum_list_with_in, list_elem_of_lookup_2, Hk. Qed.

Lemma sum_list_snoc {A : Type} (w : A -> nat) (l : list A) (x : A) :
  sum_list_with w (l ++ [x]) = sum_list_with w l + w x.
Proof. rewrite sum_list_with_app. simpl. lia. Qed.

(** ** Strings *)

Lemma Contains_unfold (s sub : string) :
  Contains s sub =
  if HasPrefix s sub then true
  else match s with EmptyString => false | String _ s' => Contains s' sub end.
Proof. by destruct s. Qed.

Lemma Contains_prepend (a s sub : string) :
  Contains s sub = true -> Contains (a ++ s)%string sub = true.
Proof.
  intros Hs. induction a as [|c a IH]; cbn [String.append]; [done|].
  rewrite Contains_unfold, IH. by destruct (HasPrefix _ sub).
Qed.

Lemma HasPrefix_refl (s : string) : HasPrefix s s = true.
Proof. induction s as [|c s IH]; simpl; [done|]. by rewrite Ascii.eqb_refl. Qed.

Lemma Contains_refl (s : string) : Contains s s = true.
Proof. by rewrite Contains_unfold, HasPrefix_refl. Qed.

(** ** The machine *)

Lemma elem_of_calls {Job Res : Type} (tr : list (Event Job Res)) k j r :
  (k, j, r) ∈ calls tr <-> EvCall k j r ∈ tr.
Proof.
  unfold calls. rewrite list_elem_of_omap. split.
  - intros ([] & Hin & Heq); by simplify_eq.
  - intros Hin. by exists (EvCall k j r).
Qed.

Section FanOutFacts.
Context {V Cl Job Res : Type}.
Variable prepare : V -> string -> option (V * Job).
Variable call : Cl -> Job -> Cl * Res.
Variable failure : Res -> option error.
Variable cap : nat.

Local Abbreviation step := (step prepare call failure cap).
Local Abbreviation run := (run prepare call failure cap).
Local Abbreviation fanout := (fanout prepare call failure cap).
Local Abbreviation invariant := (invariant prepare failure cap).
Local Abbreviation after_call := (after_call failure).
Local Abbreviation prepareAll := (prepareAll prepare).
Local Abbreviation panicking := (panicking prepare).
Local Abbreviation made := (made call).

(** The three moves. *)
Lemma step_inv (s s' : State V Cl Job Res) (t : Tid) :
  step s t = Some s' ->
  (exists pod rest v' j, t = Main /\ todo s = pod :: rest /\
     prepare (vstate s) pod = Some (v', j) /\
     s' = {| todo := rest; vstate := v'; tasks := tasks s ++ [Running j];
             chan := chan s; cluster := cluster s;
             trace := trace s ++ [EvLoop pod; EvGo (length (tasks s)) j] |}) \/
  (exists k j cl' r, t = Go k /\ tasks s !! k = Some (Running j) /\
     call (cluster s) j = (cl', r) /\
     s' = {| todo := todo s; vstate := vstate s;
             tasks := <[k := after_call j r]> (tasks s);
             chan := chan s; cluster := cl';
             trace := trace s ++ [EvCall k j r] |}) \/
  (exists k j r e, t = Go k /\ tasks s !! k = Some (Sending j r e) /\
     length (chan s) < cap /\
     s' = {| todo := todo s; vstate := vstate s;
             tasks := <[k := Finished j r]> (tasks s);
             chan := chan s ++ [e]; cluster := cluster s;
             trace := trace s ++ [EvSend k e] |}).
Proof.
  unfold step. destruct t as [|k].
  - destruct (todo s) as [|pod rest] eqn:E; [done|].
    destruct (prepare (vstate s) pod) as [[v' j]|] eqn:Hprep; [|done].
    intros [= <-]. left. by exists pod, rest, v', j.
  - destruct (tasks s !! k) as [[j|j r e|j r]|] eqn:E; try done.
    + destruct (call (cluster s) j) as [cl' r] eqn:Ec.
      intros [= <-]. right; left. by exists k, j, cl', r.
    + destruct (decide (length (chan s) < cap)); [|done].
      intros [= <-]. right; right. by exists k, j, r, e.
Qed.

Lemma run_app (sched1 sched2 : list Tid) (s : State V Cl Job Res) :
  run (sched1 ++ sched2) s = run sched1 s ≫= run sched2.
Proof.
  revert s. induction sched1 as [|t sched1 IH]; intros s; simpl; [done|].
  destruct (step s t); simpl; [apply IH|done].
Qed.

Lemma outcome_after_call (j : Job) (r : Res) : outcome_of (after_call j r) = Some (j, r).
Proof. unfold after_call. by destruct (failure r). Qed.

Lemma job_after_call (j : Job) (r : Res) : job_of (after_call j r) = j.
Proof. unfold after_call. by destruct (failure r). Qed.

(** *** The loop bodies, one after the other *)

Lemma prepareAll_app (v : V) (pods1 pods2 : list string) :
  prepareAll v (pods1 ++ pods2)
  = match prepareAll v pods1 with
    | Some (v1, js1) =>
        match prepareAll v1 pods2 with
        | Some (v2, js2) => Some (v2, js1 ++ js2)
        | None => None
        end
    | None => None
    end.
Proof.
  revert v. induction pods1 as [|pod pods1 IH]; intros v; simpl.
  - by destruct (prepareAll v pods2) as [[v2 js2]|].
  - destruct (prepare v pod) as [[v1 j]|]; [|done]. rewrite IH.
    destruct (prepareAll v1 pods1) as [[v2 js1]|]; [|done].
    by destruct (prepareAll v2 pods2) as [[v3 js2]|].
Qed.

Lemma prepareAll_length (v v' : V) (pods : list string) (js : list Job) :
  prepareAll v pods = Some (v', js) -> length js = length pods.
Proof.
  revert v js. induction pods as [|pod pods IH]; intros v js; simpl.
  - by intros [= _ <-].
  - destruct (prepare v pod) as [[v1 j]|]; [|done].
    destruct (prepareAll v1 pods) as [[v2 js']|] eqn:Hrest; [|done].
    intros [= -> <-]. simpl. f_equal. eauto.
Qed.

(** A body that panics makes the bodies of every longer list panic. *)
Lemma prepareAll_None_app (v : V) (pods1 pods2 : list string) :
  prepareAll v pods1 = None -> prepareAll v (pods1 ++ pods2) = None.
Proof. intros Hnone. by rewrite prepareAll_app, Hnone. Qed.

Lemma invariant_start (v : V) (pods : list string) (cl : Cl) :
  length pods <= cap -> invariant v pods (start v pods cl).
Proof.
  intros Hcap. split; simpl; try done.
  - intros k j r. split; [by intros ?%elem_of_nil|done].
  - constructor.
  - intros k e. split; [by intros ?%elem_of_nil|].
    intros (j & r & Hk & _). by rewrite lookup_nil in Hk.
  - unfold room_needed. simpl. lia.
Qed.

(** What each move adds to the three projections of the trace. *)
Lemma loops_main (tr : list (Event Job Res)) pod k j :
  loops (tr ++ [EvLoop pod; EvGo k j]) = loops tr ++ [pod].
Proof. unfold loops. by rewrite omap_app. Qed.

Lemma calls_main (tr : list (Event Job Res)) pod k j :
  calls (tr ++ [EvLoop pod; EvGo k j]) = calls tr.
Proof. unfold calls. rewrite omap_app. apply app_nil_r. Qed.

Lemma sends_main (tr : list (Event Job Res)) pod k j :
  sends (tr ++ [EvLoop pod; EvGo k j]) = sends tr.
Proof. unfold sends. rewrite omap_app. apply app_nil_r. Qed.

Lemma loops_call (tr : list (Event Job Res)) k j r :
  loops (tr ++ [EvCall k j r]) = loops tr.
Proof. unfold loops. rewrite omap_app. apply app_nil_r. Qed.

Lemma calls_call (tr : list (Event Job Res)) k j r :
  calls (tr ++ [EvCall k j r]) = calls tr ++ [(k, j, r)].
Proof. unfold calls. by rewrite omap_app. Qed.

Lemma sends_call (tr : list (Event Job Res)) k j r :
  sends (tr ++ [EvCall k j r]) = sends tr.
Proof. unfold sends. rewrite omap_app. apply app_nil_r. Qed.

Lemma loops_send (tr : list (Event Job Res)) k e :
  loops (tr ++ [EvSend k e]) = loops tr.
Proof. unfold loops. rewrite omap_app. apply app_nil_r. Qed.

Lemma calls_send (tr : list (Event Job Res)) k e :
  calls (tr ++ [EvSend k e]) = calls tr.
Proof. unfold calls. rewrite omap_app. apply app_nil_r. Qed.

Lemma sends_send (tr : list (Event Job Res)) k e :
  sends (tr ++ [EvSend k e]) = sends tr ++ [(k, e)].
Proof. unfold sends. by rewrite omap_app. Qed.

(** The goroutines are as many as the loop bodies started. *)
Lemma invariant_length v0 pods (s : State V Cl Job Res) :
  invariant v0 pods s -> length (tasks s) = length (loops (trace s)).
Proof.
  intros Hinv. rewrite <- (length_fmap job_of).
  apply (prepareAll_length _ _ _ _ (inv_jobs _ _ _ _ _ _ Hinv)).
Qed.

(** The loop moves on. *)
Lemma invariant_main v0 pods (s : State V Cl Job Res) pod rest v' j :
  invariant v0 pods s -> todo s = pod :: rest ->
  prepare (vstate s) pod = Some (v', j) ->
  invariant v0 pods
    {| todo := rest; vstate := v'; tasks := tasks s ++ [Running j];
       chan := chan s; cluster := cluster s;
       trace := trace s ++ [EvLoop pod; EvGo (length (tasks s)) j] |}.
Proof.
  intros Hinv Htodo Hprep. pose proof (invariant_length _ _ _ Hinv) as Hlen.
  destruct Hinv as [Hloop Hjobs Hcalls Honce Hchan Hsends Hsending Horder Hroom].
  split; simpl; rewrite ?loops_main, ?calls_main, ?sends_main; try done.
  - rewrite <- app_assoc. simpl. by rewrite <- Htodo.
  - rewrite prepareAll_app, Hjobs. simpl. rewrite Hprep. by rewrite fmap_app.
  - intros k j' r. rewrite Hcalls. destruct (decide (k < length (tasks s))).
    + by rewrite lookup_app_l.
    + rewrite (lookup_ge_None_2 (tasks s)) by lia. simpl.
      destruct (decide (k = length (tasks s))) as [->|].
      * by rewrite list_lookup_middle.
      * rewrite lookup_ge_None_2; [done|]. rewrite length_app. simpl. lia.
  - intros k e. rewrite Hsends. split; intros (j' & r & Hk & Hf); exists j', r.
    + split; [|done]. rewrite lookup_app_l; eauto using lookup_lt_Some.
    + split; [|done]. apply lookup_snoc_Some in Hk as [[_ Hk]|[_ ?]]; done.
  - intros k j' r e Hk. apply lookup_snoc_Some in Hk as [[_ Hk]|[_ ?]]; [eauto|done].
  - intros k task Hk. apply lookup_snoc_Some in Hk as [[_ Hk]|[-> <-]].
    + destruct (Horder _ _ Hk) as (tr1 & tr2 & p & -> & ? & ? & ?).
      exists tr1, (tr2 ++ [EvLoop pod; EvGo (length (tasks s)) j]), p.
      split; [|done]. by rewrite <- !app_assoc.
    + exists (trace s), [], pod. rewrite Hlen. split_and!; [done|..].
      * rewrite Hloop, Htodo. by apply list_lookup_middle.
      * by rewrite Hloop, take_app_length.
      * intros j' r Hin%elem_of_calls%Hcalls.
        by rewrite <- Hlen, (lookup_ge_None_2 (tasks s)) in Hin.
  - unfold room_needed in *. simpl. rewrite sum_list_snoc. rewrite Htodo in Hroom.
    simpl in *. lia.
Qed.

(** A move of a goroutine leaves its call as it is. *)
Lemma jobs_insert (l : list (Task Job Res)) k task task' :
  l !! k = Some task -> job_of task' = job_of task ->
  job_of <$> <[k := task']> l = job_of <$> l.
Proof.
  intros Hk Hjob. rewrite list_fmap_insert, Hjob.
  apply list_insert_id. by rewrite list_lookup_fmap, Hk.
Qed.

Lemma order_insert pods (tr : list (Event Job Res)) (l : list (Task Job Res))
    k task task' ev :
  l !! k = Some task -> job_of task' = job_of task ->
  (forall k' task0, l !! k' = Some task0 ->
     exists tr1 tr2 pod,
       tr = tr1 ++ [EvLoop pod; EvGo k' (job_of task0)] ++ tr2 /\
       pods !! k' = Some pod /\ loops tr1 = take k' pods /\
       forall j r, EvCall k' j r ∉ tr1) ->
  forall k' task0, <[k := task']> l !! k' = Some task0 ->
    exists tr1 tr2 pod,
      tr ++ [ev] = tr1 ++ [EvLoop pod; EvGo k' (job_of task0)] ++ tr2 /\
      pods !! k' = Some pod /\ loops tr1 = take k' pods /\
      forall j r, EvCall k' j r ∉ tr1.
Proof.
  intros Hk Hjob Horder k' task0 Hk'.
  assert (exists task1, l !! k' = Some task1 /\ job_of task0 = job_of task1)
    as (task1 & Hold & ->).
  { destruct (decide (k' = k)) as [->|Hne].
    - rewrite list_lookup_insert_eq in Hk' by eauto using lookup_lt_Some.
      exists task. split; [done|congruence].
    - rewrite list_lookup_insert_ne in Hk' by done. eauto. }
  destruct (Horder _ _ Hold) as (tr1 & tr2 & p & -> & ? & ? & ?).
  exists tr1, (tr2 ++ [ev]), p. split; [|done]. by rewrite <- !app_assoc.
Qed.

(** A goroutine makes its call. *)
Lemma invariant_call v0 pods (s : State V Cl Job Res) k j (cl' : Cl) r :
  invariant v0 pods s -> tasks s !! k = Some (Running j) ->
  invariant v0 pods
    {| todo := todo s; vstate := vstate s;
       tasks := <[k := after_call j r]> (tasks s);
       chan := chan s; cluster := cl';
       trace := trace s ++ [EvCall k j r] |}.
Proof.
  intros Hinv Hk. pose proof (lookup_lt_Some _ _ _ Hk) as Hlt.
  destruct Hinv as [Hloop Hjobs Hcalls Honce Hchan Hsends Hsending Horder Hroom].
  split; simpl; rewrite ?loops_call, ?calls_call, ?sends_call; try done.
  - by rewrite (jobs_insert _ _ _ _ Hk (job_after_call j r)).
  - intros k' j' r'. rewrite elem_of_app, list_elem_of_singleton, Hcalls.
    destruct (decide (k' = k)) as [->|Hne].
    + rewrite list_lookup_insert_eq, Hk by done. simpl.
      rewrite outcome_after_call.
      split; [intros [?|?]; by simplify_eq|intros ?; right; by simplify_eq].
    + rewrite list_lookup_insert_ne by done.
      split; [intros [?|?]; [done|by simplify_eq]|by left].
  - rewrite !fmap_app. simpl. apply NoDup_app. split_and!; [done| |apply NoDup_singleton].
    intros k' Hin ->%list_elem_of_singleton.
    apply list_elem_of_fmap in Hin as ([k1 j1] & Heq & Hin). simpl in Heq. subst k1.
    apply list_elem_of_fmap in Hin as ([[k2 j2] r2] & Heq & Hin). simplify_eq/=.
    apply Hcalls in Hin. by rewrite Hk in Hin.
  - intros k' e. rewrite Hsends. destruct (decide (k' = k)) as [->|Hne].
    + rewrite list_lookup_insert_eq, Hk by done. unfold after_call.
      split; intros (j' & r' & Heq & Hf); [done|].
      destruct (failure r) eqn:Hr; simplify_eq.
    + by rewrite list_lookup_insert_ne.
  - intros k' j' r' e. destruct (decide (k' = k)) as [->|Hne].
    + rewrite list_lookup_insert_eq by done. unfold after_call.
      destruct (failure r) eqn:Hr; intros; simplify_eq. done.
    + rewrite list_lookup_insert_ne by done. apply Hsending.
  - apply (order_insert _ _ _ _ _ _ _ Hk (job_after_call j r) Horder).
  - unfold room_needed in *. simpl.
    pose proof (sum_list_insert may_send _ _ _ (after_call j r) Hk) as Hsum.
    assert (may_send (after_call j r) <= 1).
    { unfold after_call. destruct (failure r); simpl; lia. }
    simpl in Hsum. lia.
Qed.

(** A goroutine sends its error. *)
Lemma invariant_send v0 pods (s : State V Cl Job Res) k j r e :
  invariant v0 pods s -> tasks s !! k = Some (Sending j r e) ->
  invariant v0 pods
    {| todo := todo s; vstate := vstate s;
       tasks := <[k := Finished j r]> (tasks s);
       chan := chan s ++ [e]; cluster := cluster s;
       trace := trace s ++ [EvSend k e] |}.
Proof.
  intros Hinv Hk. pose proof (lookup_lt_Some _ _ _ Hk) as Hlt.
  destruct Hinv as [Hloop Hjobs Hcalls Honce Hchan Hsends Hsending Horder Hroom].
  split; simpl; rewrite ?loops_send, ?calls_send, ?sends_send; try done.
  - by rewrite (jobs_insert _ _ _ (Finished j r) Hk eq_refl).
  - intros k' j' r'. rewrite Hcalls. destruct (decide (k' = k)) as [->|Hne].
    + by rewrite list_lookup_insert_eq, Hk.
    + by rewrite list_lookup_insert_ne.
  - by rewrite fmap_app, Hchan.
  - intros k' e'. rewrite elem_of_app, list_elem_of_singleton, Hsends.
    destruct (decide (k' = k)) as [->|Hne].
    + rewrite list_lookup_insert_eq, Hk by done.
      pose proof (Hsending _ _ _ _ Hk). split.
      * intros [(j' & r' & [=] & _)|[= ->]]. by exists j, r.
      * intros (j' & r' & [= <- <-] & Hf). right. congruence.
    + rewrite list_lookup_insert_ne by done.
      split; [intros [?|?]; [done|by simplify_eq]|by left].
  - intros k' j' r' e'. destruct (decide (k' = k)) as [->|Hne].
    + by rewrite list_lookup_insert_eq.
    + rewrite list_lookup_insert_ne by done. apply Hsending.
  - apply (order_insert _ _ _ _ _ (Finished j r) _ Hk eq_refl Horder).
  - unfold room_needed in *. simpl. rewrite length_app. simpl.
    pose proof (sum_list_insert may_send _ _ _ (Finished j r) Hk) as Hsum.
    simpl in Hsum. lia.
Qed.

(** Every move keeps the invariant, so every run does. *)
Lemma invariant_step v0 pods (s s' : State V Cl Job Res) t :
  invariant v0 pods s -> step s t = Some s' -> invariant v0 pods s'.
Proof.
  intros Hinv Hstep.
  destruct (step_inv _ _ _ Hstep) as
    [(pod & rest & v' & j & _ & Htodo & Hprep & ->)
    |[(k & j & cl' & r & _ & Hk & _ & ->)|(k & j & r & e & _ & Hk & _ & ->)]].
  - by apply invariant_main.
  - by apply invariant_call.
  - by apply invariant_send.
Qed.

Lemma invariant_run v0 pods sched (s s' : State V Cl Job Res) :
  invariant v0 pods s -> run sched s = Some s' -> invariant v0 pods s'.
Proof.
  revert s. induction sched as [|t sched IH]; intros s Hinv; simpl.
  - by intros [= <-].
  - destruct (step s t) as [s1|] eqn:Hstep; [|done].
    eauto using invariant_step.
Qed.

(** *** The join *)

Lemma joined_todo (s : State V Cl Job Res) : joined s = true -> todo s = [].
Proof. unfold joined. by destruct (todo s). Qed.

Lemma joined_finished (s : State V Cl Job Res) k task :
  joined s = true -> tasks s !! k = Some task ->
  exists j r, task = Finished j r.
Proof.
  unfold joined. destruct (todo s); [|done]. intros Hall Hk.
  rewrite forallb_forall in Hall. specialize (Hall task).
  destruct task; [discriminate Hall..|by eauto];
    apply list_elem_of_In; eapply list_elem_of_lookup_2, Hk.
Qed.

Lemma not_joined (s : State V Cl Job Res) :
  joined s = false ->
  todo s <> [] \/ exists k task, tasks s !! k = Some task /\ finished task = false.
Proof.
  unfold joined. destruct (todo s); [|by left]. intros Hall. right.
  induction (tasks s) as [|task l IH]; simpl in Hall; [done|].
  destruct (finished task) eqn:Hf.
  - destruct (IH Hall) as (k & task' & ? & ?). by exists (S k), task'.
  - by exists 0, task.
Qed.

Lemma joined_loops v0 pods (s : State V Cl Job Res) :
  invariant v0 pods s -> joined s = true -> loops (trace s) = pods.
Proof.
  intros Hinv Hj.
  pose proof (inv_loop _ _ _ _ _ _ Hinv) as Hloop.
  by rewrite (joined_todo _ Hj), app_nil_r in Hloop.
Qed.


(** The bodies still to come run from the state the loop is in. *)
Lemma todo_prepared v0 pods (s : State V Cl Job Res) :
  invariant v0 pods s ->
  prepareAll v0 pods
  = match prepareAll (vstate s) (todo s) with
    | Some (v2, js2) => Some (v2, (job_of <$> tasks s) ++ js2)
    | None => None
    end.
Proof.
  intros Hinv. rewrite (inv_loop _ _ _ _ _ _ Hinv) at 1.
  by rewrite prepareAll_app, (inv_jobs _ _ _ _ _ _ Hinv).
Qed.

(** *** Termination: every move uses fuel, and some goroutine can move
    until the join; in particular no send ever blocks. *)

Lemma step_fuel (s s' : State V Cl Job Res) t :
  step s t = Some s' -> fuel s' < fuel s.
Proof.
  intros Hstep.
  destruct (step_inv _ _ _ Hstep) as
    [(pod & rest & v' & j & _ & Htodo & _ & ->)
    |[(k & j & cl' & r & _ & Hk & _ & ->)|(k & j & r & e & _ & Hk & _ & ->)]];
    unfold fuel; simpl.
  - rewrite Htodo, sum_list_snoc. simpl. lia.
  - pose proof (sum_list_insert moves_left _ _ _ (after_call j r) Hk) as Hsum.
    assert (moves_left (after_call j r) <= 1).
    { unfold after_call. destruct (failure r); simpl; lia. }
    simpl in Hsum. lia.
  - pose proof (sum_list_insert moves_left _ _ _ (Finished j r) Hk) as Hsum.
    simpl in Hsum. lia.
Qed.

Lemma progress v0 pods (s : State V Cl Job Res) :
  invariant v0 pods s -> joined s = false -> panicking s = false ->
  exists t s', step s t = Some s'.
Proof.
  intros Hinv [Htodo|(k & task & Hk & Hf)]%not_joined Hpanic.
  - exists Main. unfold step, panicking in *. destruct (todo s) as [|pod rest]; [done|].
    destruct (prepare (vstate s) pod) as [[v' j]|]; [eauto|done].
  - exists (Go k). unfold step. rewrite Hk. destruct task as [j|j r e|j r]; [| |done].
    + destruct (call (cluster s) j). eauto.
    + destruct (decide (length (chan s) < cap)) as [|Hfull]; [eauto|].
      pose proof (inv_room _ _ _ _ _ _ Hinv) as Hroom. unfold room_needed in Hroom.
      pose proof (sum_list_lookup_le may_send _ _ _ Hk). simpl in *. lia.
Qed.

(** A move leaves the bodies still to come as they were, but for the one
    that has run. *)
Lemma step_prepared (s s' : State V Cl Job Res) t :
  step s t = Some s' ->
  is_Some (prepareAll (vstate s) (todo s)) ->
  is_Some (prepareAll (vstate s') (todo s')).
Proof.
  intros Hstep.
  destruct (step_inv _ _ _ Hstep) as
    [(pod & rest & v' & j & _ & Htodo & Hprep & ->)
    |[(k & j & cl' & r & _ & Hk & _ & ->)|(k & j & r & e & _ & Hk & _ & ->)]];
    simpl; [|done..].
  rewrite Htodo. simpl. rewrite Hprep.
  destruct (prepareAll v' rest) as [[v2 js]|]; [eauto|by intros [? ?]].
Qed.

Lemma prepared_not_panicking (s : State V Cl Job Res) :
  is_Some (prepareAll (vstate s) (todo s)) -> panicking s = false.
Proof.
  unfold panicking. destruct (todo s) as [|pod rest]; [done|]. simpl.
  destruct (prepare (vstate s) pod) as [[v' j]|]; [done|by intros [? ?]].
Qed.

Lemma terminates v0 pods (s : State V Cl Job Res) :
  invariant v0 pods s -> is_Some (prepareAll (vstate s) (todo s)) ->
  exists sched s', run sched s = Some s' /\ joined s' = true.
Proof.
  remember (fuel s) as n eqn:Hn. revert s Hn.
  induction n as [n IH] using lt_wf_ind. intros s -> Hinv Hprep.
  destruct (joined s) eqn:Hj.
  - by exists [], s.
  - destruct (progress _ _ _ Hinv Hj (prepared_not_panicking _ Hprep))
      as (t & s1 & Hstep).
    destruct (IH (fuel s1) (step_fuel _ _ _ Hstep) s1 eq_refl) as (sched & s' & Hrun & Hj').
    { eauto using invariant_step. }
    { eauto using step_prepared. }
    exists (t :: sched), s'. simpl. by rewrite Hstep.
Qed.

(** When no loop body panics the call returns under some schedule, and
    every run that has not reached the join can be continued to it. *)
Lemma fanout_returns v pods (cl : Cl) sched1 (s1 : State V Cl Job Res) :
  length pods <= cap ->
  is_Some (prepareAll v pods) ->
  run sched1 (start v pods cl) = Some s1 ->
  exists sched2 s r, fanout v pods (sched1 ++ sched2) cl = Some (s, r).
Proof.
  intros Hcap Hprep Hrun.
  assert (invariant v pods s1) as Hinv by eauto using invariant_run, invariant_start.
  destruct (terminates v pods s1 Hinv) as (sched2 & s & Hrun2 & Hj).
  { rewrite (todo_prepared _ _ _ Hinv) in Hprep.
    destruct (prepareAll (vstate s1) (todo s1)); [eauto|by destruct Hprep]. }
  exists sched2, s, (selected s). unfold fanout.
  rewrite run_app, Hrun. simpl. by rewrite Hrun2, Hj.
Qed.

(** What a completed call looks like. *)
Lemma fanout_inv v pods sched (cl : Cl) (s : State V Cl Job Res) r :
  length pods <= cap ->
  fanout v pods sched cl = Some (s, r) ->
  invariant v pods s /\ joined s = true /\ r = selected s.
Proof.
  unfold fanout. intros Hcap Hf.
  destruct (run sched (start v pods cl)) as [s'|] eqn:Hrun; [|done].
  destruct (joined s') eqn:Hj; [|done]. simplify_eq.
  eauto using invariant_run, invariant_start.
Qed.



(** *** Calls and goroutines *)

(** A goroutine past its call is one whose call is in the trace. *)
Lemma called_task v0 pods (s : State V Cl Job Res) k j r :
  invariant v0 pods s ->
  (k, j, r) ∈ calls (trace s) <->
  (exists e, tasks s !! k = Some (Sending j r e)) \/ tasks s !! k = Some (Finished j r).
Proof.
  intros Hinv. rewrite (inv_calls _ _ _ _ _ _ Hinv).
  destruct (tasks s !! k) as [[j'|j' r' e'|j' r']|]; simpl;
    (split; [intros ?; simplify_eq; eauto|intros [[? ?]|?]; by simplify_eq]).
Qed.

(** Goroutine [k] works for the [k]-th target. *)
Lemma task_pod v0 pods (s : State V Cl Job Res) k task :
  invariant v0 pods s -> tasks s !! k = Some task -> is_Some (pods !! k).
Proof.
  intros Hinv Hk. apply lookup_lt_is_Some.
  apply lookup_lt_Some in Hk. rewrite (invariant_length _ _ _ Hinv) in Hk.
  rewrite (inv_loop _ _ _ _ _ _ Hinv), length_app. lia.
Qed.

(** At the join every target has its goroutine, and it is done. *)
Lemma joined_tasks v0 pods (s : State V Cl Job Res) k pod :
  invariant v0 pods s -> joined s = true -> pods !! k = Some pod ->
  exists j r, tasks s !! k = Some (Finished j r).
Proof.
  intros Hinv Hj Hpod.
  assert (is_Some (tasks s !! k)) as [task Hk].
  { apply lookup_lt_is_Some. rewrite (invariant_length _ _ _ Hinv).
    apply lookup_lt_Some in Hpod.
    by rewrite (inv_loop _ _ _ _ _ _ Hinv), (joined_todo _ Hj), app_nil_r in Hpod. }
  destruct (joined_finished _ _ _ Hj Hk) as (j & r & ->). eauto.
Qed.

(** *** The error returned *)

(** What [select] reads was sent by a goroutine whose call failed. *)
Lemma selected_Some v0 pods (s : State V Cl Job Res) e :
  invariant v0 pods s -> selected s = Some e ->
  exists k j r, (k, j, r) ∈ calls (trace s) /\ failure r = Some e.
Proof.
  intros Hinv Hsel. unfold selected in Hsel.
  apply head_Some_elem_of in Hsel. rewrite (inv_chan _ _ _ _ _ _ Hinv) in Hsel.
  apply list_elem_of_fmap in Hsel as ([k e'] & Heq & Hin). simpl in Heq. subst e'.
  apply (inv_sends _ _ _ _ _ _ Hinv) in Hin as (j & r & Hk & Hf).
  exists k, j, r. split; [|done]. apply (called_task _ _ _ k j r Hinv). auto.
Qed.

(** [select] finds the channel empty exactly when no call failed. *)
Lemma selected_None v0 pods (s : State V Cl Job Res) :
  invariant v0 pods s -> joined s = true ->
  selected s = None <->
  forall k j r, (k, j, r) ∈ calls (trace s) -> failure r = None.
Proof.
  intros Hinv Hj. split.
  - intros Hsel k j r Hin. unfold selected in Hsel. apply head_None in Hsel.
    destruct (failure r) as [e|] eqn:Hf; [|done]. exfalso.
    destruct (proj1 (called_task _ _ _ k j r Hinv) Hin) as [[e' Hk]|Hk].
    { by destruct (joined_finished _ _ _ Hj Hk) as (? & ? & ?). }
    assert ((k, e) ∈ sends (trace s)) as Hsent.
    { apply (inv_sends _ _ _ _ _ _ Hinv). eauto. }
    apply (list_elem_of_fmap_2 snd) in Hsent.
    rewrite <- (inv_chan _ _ _ _ _ _ Hinv), Hsel in Hsent. by apply elem_of_nil in Hsent.
  - intros Hall. destruct (selected s) as [e|] eqn:Hsel; [|done].
    destruct (selected_Some _ _ _ _ Hinv Hsel) as (k & j & r & Hin & Hf).
    rewrite (Hall _ _ _ Hin) in Hf. done.
Qed.

(** At the join a failed call has had its error sent, and a call that
    succeeded has sent nothing. *)
Lemma joined_sent v0 pods (s : State V Cl Job Res) k j r e :
  invariant v0 pods s -> joined s = true ->
  (k, j, r) ∈ calls (trace s) -> failure r = Some e ->
  (k, e) ∈ sends (trace s) /\ e ∈ chan s.
Proof.
  intros Hinv Hj Hin Hf.
  assert ((k, e) ∈ sends (trace s)) as Hsent.
  { apply (inv_sends _ _ _ _ _ _ Hinv).
    destruct (proj1 (called_task _ _ _ k j r Hinv) Hin) as [[e' Hk]|Hk]; [|eauto].
    by destruct (joined_finished _ _ _ Hj Hk) as (? & ? & ?). }
  split; [done|]. rewrite (inv_chan _ _ _ _ _ _ Hinv).
  by apply (list_elem_of_fmap_2 snd) in Hsent.
Qed.

Lemma not_sent v0 pods (s : State V Cl Job Res) k j r e :
  invariant v0 pods s ->
  (k, j, r) ∈ calls (trace s) -> failure r = None -> (k, e) ∉ sends (trace s).
Proof.
  intros Hinv Hin Hf Hsent.
  apply (inv_sends _ _ _ _ _ _ Hinv) in Hsent as (j' & r' & Hk & Hf').
  apply (inv_calls _ _ _ _ _ _ Hinv) in Hin. rewrite Hk in Hin. simpl in Hin.
  congruence.
Qed.

(** Only the main goroutine starts loop bodies, and only a loop body
    changes the state the bodies share. *)
Lemma loops_step (s s' : State V Cl Job Res) t :
  step s t = Some s' -> loops (trace s') <> loops (trace s) -> t = Main.
Proof.
  intros Hstep.
  destruct (step_inv _ _ _ Hstep) as
    [(pod & rest & v' & j & -> & _)
    |[(k & j & cl' & r & _ & _ & _ & ->)|(k & j & r & e & _ & _ & _ & ->)]];
    simpl; rewrite ?loops_call, ?loops_send; done.
Qed.

Lemma go_step (s s' : State V Cl Job Res) k :
  step s (Go k) = Some s' -> vstate s' = vstate s /\ todo s' = todo s.
Proof.
  intros Hstep.
  destruct (step_inv _ _ _ Hstep) as
    [(pod & rest & v' & j & [=] & _)
    |[(k' & j & cl' & r & _ & _ & _ & ->)|(k' & j & r & e & _ & _ & _ & ->)]];
    simpl; done.
Qed.

(** A move of the main goroutine is one loop body: one call of [prepare],
    on the state the bodies before have left, and the [go] statement for
    the call it returns. *)
Lemma main_step (s s' : State V Cl Job Res) :
  step s Main = Some s' ->
  exists pod rest j,
    todo s = pod :: rest /\ todo s' = rest /\
    prepare (vstate s) pod = Some (vstate s', j) /\
    tasks s' = tasks s ++ [Running j] /\
    trace s' = trace s ++ [EvLoop pod; EvGo (length (tasks s)) j] /\
    cluster s' = cluster s /\ chan s' = chan s.
Proof.
  intros Hstep.
  destruct (step_inv _ _ _ Hstep) as
    [(pod & rest & v' & j & _ & Htodo & Hprep & ->)
    |[(k & j & cl' & r & [=] & _)|(k & j & r & e & [=] & _)]].
  by exists pod, rest, j.
Qed.

(** *** The calls, made one after the other on the cluster *)

Lemma made_snoc (cl0 cl1 cl2 : Cl) cs k j r :
  made cl0 cs cl1 -> call cl1 j = (cl2, r) -> made cl0 (cs ++ [(k, j, r)]) cl2.
Proof.
  revert cl0. induction cs as [|[[k' j'] r'] cs IH]; intros cl0; simpl.
  - intros ->. eauto.
  - intros (cl' & Hcall & Hrest) Hlast. eauto.
Qed.

Lemma made_elem (cl0 cl1 : Cl) cs k j r :
  made cl0 cs cl1 -> (k, j, r) ∈ cs -> exists cl cl', call cl j = (cl', r).
Proof.
  revert cl0. induction cs as [|[[k' j'] r'] cs IH]; intros cl0; simpl.
  - by intros _ ?%elem_of_nil.
  - intros (cl' & Hcall & Hrest) [?|Hin]%elem_of_cons; [simplify_eq; eauto|eauto].
Qed.

Lemma run_made sched (s s' : State V Cl Job Res) (cl0 : Cl) :
  made cl0 (calls (trace s)) (cluster s) ->
  run sched s = Some s' ->
  made cl0 (calls (trace s')) (cluster s').
Proof.
  revert s. induction sched as [|t sched IH]; intros s Hmade; simpl.
  { by intros [= <-]. }
  destruct (step s t) as [s1|] eqn:Hstep; [|done].
  apply IH.
  destruct (step_inv _ _ _ Hstep) as
    [(pod & rest & v' & j & _ & _ & _ & ->)
    |[(k & j & cl' & r & _ & _ & Hcall & ->)|(k & j & r & e & _ & _ & _ & ->)]];
    simpl; rewrite ?calls_main, ?calls_call, ?calls_send; try done.
  by apply (made_snoc _ (cluster s)).
Qed.

Lemma fanout_made v pods sched (cl : Cl) (s : State V Cl Job Res) r :
  fanout v pods sched cl = Some (s, r) ->
  made cl (calls (trace s)) (cluster s).
Proof.
  unfold fanout. destruct (run sched (start v pods cl)) as [s'|] eqn:Hrun; [|done].
  destruct (joined s'); [|done]. intros [= <- _].
  by apply (run_made _ _ _ _ (eq_refl : made cl (calls (trace (start v pods cl))) cl) Hrun).
Qed.

(** At the join there are as many calls as targets. *)
Lemma joined_calls_length v0 pods (s : State V Cl Job Res) :
  invariant v0 pods s -> joined s = true ->
  length (calls (trace s)) = length pods.
Proof.
  intros Hinv Hj.
  assert ((calls (trace s)).*1.*1 ≡ₚ seq 0 (length (tasks s))) as Hperm.
  { apply NoDup_Permutation; [apply (inv_calls_once _ _ _ _ _ _ Hinv)|apply NoDup_seq|].
    intros k. rewrite elem_of_seq. split.
    - intros ([k' j] & -> & ([[k'' j'] r] & Heq' & Hin)%list_elem_of_fmap)%list_elem_of_fmap.
      simpl in *. injection Heq' as -> ->. apply (inv_calls _ _ _ _ _ _ Hinv) in Hin.
      destruct (tasks s !! k'') as [task|] eqn:Hk; [|done].
      apply lookup_lt_Some in Hk. lia.
    - intros [_ Hlt]. apply lookup_lt_is_Some in Hlt as [task Hk].
      destruct (joined_finished _ _ _ Hj Hk) as (j & r & ->).
      apply list_elem_of_fmap. exists (k, j). split; [done|].
      apply list_elem_of_fmap. exists (k, j, r). split; [done|].
      apply (inv_calls _ _ _ _ _ _ Hinv). by rewrite Hk. }
  apply Permutation_length in Hperm.
  rewrite !length_fmap, length_seq, (invariant_length _ _ _ Hinv) in Hperm.
  by rewrite Hperm, (joined_loops _ _ _ Hinv Hj).
Qed.

(** *** What the cluster keeps of the calls made

    [P] holds of the cluster throughout, and [post] of every call made
    and its result, when each call keeps [P], establishes its own [post]
    and keeps the [post] of the calls before it. *)
Section Cluster.
Variable P : Cl -> Prop.
Variable post : Cl -> Job -> Res -> Prop.
Hypothesis call_P : forall cl j, P cl -> P (call cl j).1.
Hypothesis call_post : forall cl j, P cl -> post (call cl j).1 j (call cl j).2.
Hypothesis call_stable :
  forall cl j r j', P cl -> post cl j r -> post (call cl j').1 j r.

Lemma run_post sched (s s' : State V Cl Job Res) :
  P (cluster s) ->
  (forall k j r, tasks s !! k ≫= outcome_of = Some (j, r) -> post (cluster s) j r) ->
  run sched s = Some s' ->
  P (cluster s') /\
  forall k j r, tasks s' !! k ≫= outcome_of = Some (j, r) -> post (cluster s') j r.
Proof.
  revert s. induction sched as [|t sched IH]; intros s HP Hpost; simpl.
  { by intros [= <-]. }
  destruct (step s t) as [s1|] eqn:Hstep; [|done].
  apply IH;
    destruct (step_inv _ _ _ Hstep) as
      [(pod & rest & v' & j0 & _ & Htodo & _ & ->)
      |[(k & j & cl' & r & _ & Hk & Hcall & ->)|(k & j & r & e & _ & Hk & _ & ->)]];
    simpl; try done.
  - specialize (call_P (cluster s) j HP). by rewrite Hcall in call_P.
  - intros k' j' r' Hk'. destruct (decide (k' < length (tasks s))).
    + rewrite lookup_app_l in Hk' by done. eauto.
    + apply bind_Some in Hk' as (task & Hk' & Hout).
      apply lookup_snoc_Some in Hk' as [[? _]|[_ <-]]; [lia|done].
  - intros k' j' r' Hk'. destruct (decide (k' = k)) as [->|Hne].
    + rewrite list_lookup_insert_eq in Hk' by eauto using lookup_lt_Some.
      simpl in Hk'. rewrite outcome_after_call in Hk'. simplify_eq.
      specialize (call_post (cluster s) j' HP). by rewrite Hcall in call_post.
    + rewrite list_lookup_insert_ne in Hk' by done.
      specialize (call_stable (cluster s) j' r' j HP (Hpost _ _ _ Hk')).
      by rewrite Hcall in call_stable.
  - intros k' j' r' Hk'. destruct (decide (k' = k)) as [->|Hne].
    + rewrite list_lookup_insert_eq in Hk' by eauto using lookup_lt_Some.
      simpl in Hk'. simplify_eq. apply (Hpost k). by rewrite Hk.
    + rewrite list_lookup_insert_ne in Hk' by done. eauto.
Qed.
End Cluster.

(** *** Loop bodies that keep no state *)
Section Stateless.
Variable f : string -> Job.
Hypothesis prepare_stateless : forall v pod, prepare v pod = Some (v, f pod).

Lemma prepareAll_stateless (v : V) (pods : list string) :
  prepareAll v pods = Some (v, f <$> pods).
Proof.
  induction pods as [|pod pods IH]; simpl; [done|].
  by rewrite prepare_stateless, IH.
Qed.

(** Goroutine [k] has the call prepared for the [k]-th target. *)
Lemma task_target v0 pods (s : State V Cl Job Res) k task :
  invariant v0 pods s -> tasks s !! k = Some task ->
  exists pod, pods !! k = Some pod /\ job_of task = f pod.
Proof.
  intros Hinv Hk.
  assert ((job_of <$> tasks s) !! k = Some (job_of task)) as Hj
    by by rewrite list_lookup_fmap, Hk.
  pose proof (inv_jobs _ _ _ _ _ _ Hinv) as Hjobs.
  rewrite prepareAll_stateless in Hjobs. injection Hjobs as _ Hjobs.
  rewrite <- Hjobs, list_lookup_fmap in Hj.
  destruct (loops (trace s) !! k) as [pod|] eqn:Hpod; [|done].
  exists pod. split; [|by simplify_eq/=].
  rewrite (inv_loop _ _ _ _ _ _ Hinv). by apply lookup_app_l_Some.
Qed.

(** Every call of the trace is the one prepared for its target. *)
Lemma call_target v0 pods (s : State V Cl Job Res) k j r :
  invariant v0 pods s -> (k, j, r) ∈ calls (trace s) ->
  exists pod, pods !! k = Some pod /\ j = f pod.
Proof.
  intros Hinv Hin.
  destruct (proj1 (called_task _ _ _ k j r Hinv) Hin) as [[e Hk]|Hk];
    destruct (task_target _ _ _ _ _ Hinv Hk) as (pod & ? & ?); eauto.
Qed.

(** At the join every target has had its call. *)
Lemma joined_task v0 pods (s : State V Cl Job Res) k pod :
  invariant v0 pods s -> joined s = true -> pods !! k = Some pod ->
  exists r, tasks s !! k = Some (Finished (f pod) r).
Proof.
  intros Hinv Hj Hpod.
  destruct (joined_tasks _ _ _ _ _ Hinv Hj Hpod) as (j & r & Hk).
  destruct (task_target _ _ _ _ _ Hinv Hk) as (pod' & Hpod' & Hjob).
  simpl in Hjob. exists r. congruence.
Qed.
End Stateless.
End FanOutFacts.

(** ** The controller *)

Section ControllerFacts.
Context {Ctx Cl : Type}.
Variable AgentImage : string.

Local Abbreviation InjectDisruptorAgent := (InjectDisruptorAgent AgentImage).
Local Abbreviation injectJob := (injectJob AgentImage).
Local Abbreviation agentContainer := (agentContainer AgentImage).

(** *** Construction *)

(** C4: [NewAgentController] resolves a zero timeout to 30 seconds, a
    negative one to exactly 0 and stores a positive one as it is. *)
Theorem NewAgentController_timeout (ctx0 : Ctx) (helper0 : PodHelper Ctx Cl)
    (namespace0 : string) (targets0 : list string) (t : Duration) :
  (t = 0 -> timeout (NewAgentController ctx0 helper0 namespace0 targets0 t)
            = 30 * Second)%Z /\
  (t < 0 -> timeout (NewAgentController ctx0 helper0 namespace0 targets0 t) = 0)%Z /\
  (0 < t -> timeout (NewAgentController ctx0 helper0 namespace0 targets0 t) = t)%Z.
Proof.
  unfold NewAgentController, Second. simpl. split_and!; intros Ht.
  - by subst t.
  - destruct (Z.eqb_spec t 0); [lia|]. destruct (Z.ltb_spec t 0); [done|lia].
  - destruct (Z.eqb_spec t 0); [lia|]. destruct (Z.ltb_spec t 0); [lia|done].
Qed.

(** C9: [Targets] returns the list given to [NewAgentController] as it
    is, with a nil error, whatever the helper and the cluster behind it. *)
Theorem Targets_verbatim (ctx0 : Ctx) (helper0 helper1 : PodHelper Ctx Cl)
    (namespace0 : string) (targets0 : list string) (t : Duration) :
  Targets (NewAgentController ctx0 helper0 namespace0 targets0 t) = (targets0, None) /\
  Targets (NewAgentController ctx0 helper1 namespace0 targets0 t) =
  Targets (NewAgentController ctx0 helper0 namespace0 targets0 t).
Proof. done. Qed.

(** *** InjectDisruptorAgent *)

Lemma InjectDisruptorAgent_inv (c : agentController Ctx Cl) sched cl s r :
  InjectDisruptorAgent c sched cl = Some (s, r) ->
  invariant (stateless (injectJob c)) injectFailure (length (targets c)) tt (targets c) s /\
  joined s = true /\ r = selected s.
Proof. by apply fanout_inv. Qed.

Lemma InjectDisruptorAgent_returns (c : agentController Ctx Cl) cl :
  exists sched s r, InjectDisruptorAgent c sched cl = Some (s, r).
Proof.
  destruct (fanout_returns (stateless (injectJob c)) (injectCall c) injectFailure
              (length (targets c)) tt (targets c) cl [] (start tt (targets c) cl)
              (le_n _))
    as (sched & s & r & H); [|done|by exists sched, s, r].
  by rewrite (prepareAll_stateless _ (injectJob c)).
Qed.

(** One attach per target, once, for the target. *)
Lemma InjectDisruptorAgent_calls (c : agentController Ctx Cl) sched cl s r :
  InjectDisruptorAgent c sched cl = Some (s, r) ->
  (forall k pod, targets c !! k = Some pod ->
     exists res, (k, injectJob c pod, res) ∈ calls (trace s)) /\
  (forall k j res, (k, j, res) ∈ calls (trace s) ->
     exists pod, targets c !! k = Some pod /\ j = injectJob c pod) /\
  NoDup (calls (trace s)).*1.*1 /\
  length (calls (trace s)) = length (targets c).
Proof.
  intros (Hinv & Hj & ->)%InjectDisruptorAgent_inv. split_and!.
  - intros k pod Hpod.
    destruct (joined_task _ _ _ (injectJob c) (fun _ _ => eq_refl) _ _ _ _ _ Hinv Hj Hpod)
      as (res & Hk).
    exists res. apply (called_task _ _ _ _ _ _ k _ res Hinv). auto.
  - intros k j res Hin.
    apply (call_target _ _ _ (injectJob c) (fun _ _ => eq_refl) _ _ _ _ _ _ Hinv Hin).
  - apply (inv_calls_once _ _ _ _ _ _ Hinv).
  - apply (joined_calls_length _ _ _ _ _ _ Hinv Hj).
Qed.

(** C3: the call returns, and under every schedule each target has its
    attach attempted, once, whatever the other attaches return: the
    attaches of the run are calls of the helper's AttachEphemeralContainer,
    made one after the other on the cluster, as many as there are targets.
    The call returns nil exactly when every one of them returned nil, and
    otherwise an error that one of them returned. *)
Theorem InjectDisruptorAgent_errors (c : agentController Ctx Cl) (cl : Cl) :
  (exists sched s r, InjectDisruptorAgent c sched cl = Some (s, r)) /\
  forall sched s r,
    InjectDisruptorAgent c sched cl = Some (s, r) ->
    (forall k pod, targets c !! k = Some pod ->
       exists res,
         (k, {| attachPod := pod; attachContainer := agentContainer;
                attachOptions := {| Timeout := timeout c; IgnoreIfExists := true |} |},
          res) ∈ calls (trace s)) /\
    NoDup (calls (trace s)).*1.*1 /\
    length (calls (trace s)) = length (targets c) /\
    made (fun cl1 j =>
            AttachEphemeralContainer (helper c) cl1 (ctx c)
              (attachPod j) (attachContainer j) (attachOptions j))
         cl (calls (trace s)) (cluster s) /\
    (r = None <-> forall k j res, (k, j, res) ∈ calls (trace s) -> res = None) /\
    (forall e, r = Some e -> exists k j, (k, j, Some e) ∈ calls (trace s)).
Proof.
  split; [apply InjectDisruptorAgent_returns|].
  intros sched s r Hrun.
  destruct (InjectDisruptorAgent_calls _ _ _ _ _ Hrun) as (Hall & _ & Honce & Hlen).
  pose proof (fanout_made _ _ _ _ _ _ _ _ _ _ Hrun) as Hmade.
  apply InjectDisruptorAgent_inv in Hrun as (Hinv & Hj & ->).
  split_and!; [done..| |].
  - apply (selected_None _ _ _ _ _ _ Hinv Hj).
  - intros e Hsel.
    destruct (selected_Some _ _ _ _ _ _ _ Hinv Hsel) as (k & j & res & Hin & Hf).
    unfold injectFailure in Hf. subst res. eauto.
Qed.

(** C8: [InjectDisruptorAgent] has the helper attach one container to
    every target, and what it gives the helper as the container is named
    xk6-agent, runs the configured image, adds NET_ADMIN, runs as user 0
    and group 0 with run-as-non-root false, and has TTY and stdin on. *)
Theorem InjectDisruptorAgent_container (c : agentController Ctx Cl)
    (sched : list Tid) (cl : Cl) s r :
  InjectDisruptorAgent c sched cl = Some (s, r) ->
  (forall k pod, targets c !! k = Some pod ->
     exists j res, (k, j, res) ∈ calls (trace s) /\ attachPod j = pod) /\
  made (fun cl1 j =>
          AttachEphemeralContainer (helper c) cl1 (ctx c)
            (attachPod j) (attachContainer j) (attachOptions j))
       cl (calls (trace s)) (cluster s) /\
  forall k j res, (k, j, res) ∈ calls (trace s) ->
    targets c !! k = Some (attachPod j) /\
    Name (attachContainer j) = "xk6-agent" /\
    Image (attachContainer j) = AgentImage /\
    (exists sc caps,
       SecContext (attachContainer j) = Some sc /\
       Caps sc = Some caps /\ "NET_ADMIN" ∈ Add caps /\
       RunAsUser sc = Some 0%Z /\ RunAsGroup sc = Some 0%Z /\
       RunAsNonRoot sc = Some false) /\
    TTY (attachContainer j) = true /\
    Stdin (attachContainer j) = true.
Proof.
  intros Hrun.
  destruct (InjectDisruptorAgent_calls _ _ _ _ _ Hrun) as (Hall & Honly & _ & _).
  split_and!.
  - intros k pod Hpod. destruct (Hall k pod Hpod) as (res & Hin).
    by exists (injectJob c pod), res.
  - apply (fanout_made _ _ _ _ _ _ _ _ _ _ Hrun).
  - intros k j res Hin. destruct (Honly _ _ _ Hin) as (pod & Hpod & ->). simpl.
    split_and!; try done. eexists _, _. split_and!; try done.
    apply list_elem_of_singleton. done.
Qed.

(** *** Visit *)

Lemma VisitWith_inv {V : Type} (c : agentController Ctx Cl) (visitor : Visitor V)
    v sched cl s r :
  VisitWith c visitor v sched cl = Some (s, r) ->
  invariant (askVisitor visitor) visitFailure (length (targets c)) v (targets c) s /\
  joined s = true /\ r = selected s.
Proof. by apply fanout_inv. Qed.

Lemma visitRunWith_invariant {V : Type} (c : agentController Ctx Cl)
    (visitor : Visitor V) v sched cl s :
  visitRunWith c visitor v sched cl = Some s ->
  invariant (askVisitor visitor) visitFailure (length (targets c)) v (targets c) s.
Proof.
  intros Hrun. eapply invariant_run; [|exact Hrun]. by apply invariant_start.
Qed.

Lemma Visit_inv (c : agentController Ctx Cl) visitor sched cl s r :
  Visit c visitor sched cl = Some (s, r) ->
  invariant (stateless (fun pod => visitJob pod (visitor pod))) visitFailure
    (length (targets c)) tt (targets c) s /\
  joined s = true /\ r = selected s.
Proof.
  intros Hvisit.
  exact (VisitWith_inv c (fun v pod => Some (v, visitor pod)) tt sched cl s r Hvisit).
Qed.

(** The loop bodies of [Visit] are the calls of the visitor. *)
Lemma prepareAll_askVisitor {V : Type} (visitor : Visitor V) (v : V) (pods : list string) :
  prepareAll (askVisitor visitor) v pods
  = (fun vc : V * list (list string) => (vc.1, zip_with visitJob pods vc.2))
      <$> visits visitor v pods.
Proof.
  revert v. induction pods as [|pod pods IH]; intros v; simpl; [done|].
  unfold askVisitor at 1. destruct (visitor v pod) as [[v1 cmd]|]; [|done].
  rewrite IH. by destruct (visits visitor v1 pods) as [[v2 cmds]|].
Qed.

Lemma visits_length {V : Type} (visitor : Visitor V) (v v' : V) pods cmds :
  visits visitor v pods = Some (v', cmds) -> length cmds = length pods.
Proof.
  revert v cmds. induction pods as [|pod pods IH]; intros v cmds; simpl.
  - by intros [= _ <-].
  - destruct (visitor v pod) as [[v1 cmd]|]; [|done].
    destruct (visits visitor v1 pods) as [[v2 cmds']|] eqn:Hrest; [|done].
    intros [= -> <-]. simpl. f_equal. eauto.
Qed.



(** Wherever a run stands, the visitor has been called for the targets
    whose loop body has started, once each and in their order, and the
    goroutines have the commands it returned. *)
Lemma visitRunWith_visits {V : Type} (c : agentController Ctx Cl) (visitor : Visitor V)
    v sched cl s :
  visitRunWith c visitor v sched cl = Some s ->
  exists cmds,
    visits visitor v (loops (trace s)) = Some (vstate s, cmds) /\
    job_of <$> tasks s = zip_with visitJob (loops (trace s)) cmds /\
    targets c = loops (trace s) ++ todo s.
Proof.
  intros Hinv%visitRunWith_invariant.
  pose proof (inv_jobs _ _ _ _ _ _ Hinv) as Hjobs.
  rewrite prepareAll_askVisitor in Hjobs.
  destruct (visits visitor v (loops (trace s))) as [[v' cmds]|]; [|done].
  simpl in Hjobs. injection Hjobs as -> Hjobs.
  exists cmds. split_and!; [done..|]. apply (inv_loop _ _ _ _ _ _ Hinv).
Qed.

Lemma VisitWith_visitRunWith {V : Type} (c : agentController Ctx Cl)
    (visitor : Visitor V) v sched cl s r :
  VisitWith c visitor v sched cl = Some (s, r) ->
  visitRunWith c visitor v sched cl = Some s.
Proof.
  unfold VisitWith, fanout, visitRunWith. destruct (run _ _ _ _ sched _) as [s'|]; [|done].
  destruct (joined s'); [|done]. by intros [= -> _].
Qed.

(** When [Visit] returns, the visitor has been called for all the
    targets, and each target has had the command returned for it
    executed, after the call of the visitor. *)
Lemma VisitWith_order {V : Type} (c : agentController Ctx Cl) (visitor : Visitor V)
    v sched cl s r :
  VisitWith c visitor v sched cl = Some (s, r) ->
  exists cmds,
    visits visitor v (targets c) = Some (vstate s, cmds) /\
    forall k pod, targets c !! k = Some pod ->
      exists cmd tr1 tr2 res,
        cmds !! k = Some cmd /\
        trace s = tr1 ++ [EvLoop pod; EvGo k (visitJob pod cmd)] ++ tr2 /\
        loops tr1 = take k (targets c) /\
        (forall j' res', EvCall k j' res' ∉ tr1) /\
        EvCall k (visitJob pod cmd) res ∈ tr2.
Proof.
  intros Hvisit.
  destruct (visitRunWith_visits _ _ _ _ _ _ (VisitWith_visitRunWith _ _ _ _ _ _ _ Hvisit))
    as (cmds & Hvisits & Hjobs & _).
  apply VisitWith_inv in Hvisit as (Hinv & Hj & _).
  rewrite (joined_loops _ _ _ _ _ _ Hinv Hj) in Hvisits, Hjobs.
  exists cmds. split; [done|]. intros k pod Hpod.
  destruct (joined_tasks _ _ _ _ _ _ _ _ Hinv Hj Hpod) as (j & res & Hk).
  assert (exists cmd, cmds !! k = Some cmd /\ j = visitJob pod cmd) as (cmd & Hcmd & ->).
  { assert ((job_of <$> tasks s) !! k = Some j) as Hjk
      by by rewrite list_lookup_fmap, Hk.
    rewrite Hjobs in Hjk. apply lookup_zip_with_Some in Hjk
      as (pod' & cmd & -> & Hpod' & Hcmd).
    exists cmd. split; [done|]. congruence. }
  destruct (inv_order _ _ _ _ _ _ Hinv _ _ Hk) as (tr1 & tr2 & pod' & Htr & Hpod' & Hl & Hno).
  assert (pod' = pod) as -> by congruence.
  exists cmd, tr1, tr2, res. split_and!; try done.
  assert (EvCall k (visitJob pod cmd) res ∈ trace s) as Hin.
  { apply elem_of_calls. apply (called_task _ _ _ _ _ _ k _ res Hinv). auto. }
  rewrite Htr in Hin.
  apply elem_of_app in Hin as [Hin|Hin]; [by apply Hno in Hin|].
  apply elem_of_app in Hin as [Hin|Hin]; [|done].
  apply elem_of_cons in Hin as [?|Hin]; [done|].
  apply list_elem_of_singleton in Hin. done.
Qed.

(** Every execution of a run is that of a command for a target. *)
Lemma visitRunWith_call {V : Type} (c : agentController Ctx Cl) (visitor : Visitor V)
    v sched cl s k j res :
  visitRunWith c visitor v sched cl = Some s ->
  (k, j, res) ∈ calls (trace s) ->
  exists pod cmd, targets c !! k = Some pod /\ j = visitJob pod cmd.
Proof.
  intros Hrun Hin.
  destruct (visitRunWith_visits _ _ _ _ _ _ Hrun) as (cmds & _ & Hjobs & Htargets).
  apply visitRunWith_invariant in Hrun.
  apply (inv_calls _ _ _ _ _ _ Hrun) in Hin.
  destruct (tasks s !! k) as [task|] eqn:Hk; [|done].
  assert ((job_of <$> tasks s) !! k = Some j) as Hjk.
  { rewrite list_lookup_fmap, Hk. simpl. f_equal.
    destruct task; simpl in *; by simplify_eq. }
  rewrite Hjobs in Hjk.
  apply lookup_zip_with_Some in Hjk as (pod & cmd & -> & Hpod & Hcmd).
  exists pod, cmd. split; [|done]. rewrite Htargets. by apply lookup_app_l_Some.
Qed.

Lemma VisitWith_returns {V : Type} (c : agentController Ctx Cl) (visitor : Visitor V)
    v cl :
  is_Some (visits visitor v (targets c)) ->
  exists sched s r, VisitWith c visitor v sched cl = Some (s, r).
Proof.
  intros Hsome.
  destruct (fanout_returns (askVisitor visitor) (visitCall c) visitFailure
              (length (targets c)) v (targets c) cl [] (start v (targets c) cl)
              (le_n _))
    as (sched & s & r & H); [|done|by exists sched, s, r].
  rewrite prepareAll_askVisitor. destruct Hsome as [vc ->]. by eexists.
Qed.

Lemma Visit_returns (c : agentController Ctx Cl) visitor cl :
  exists sched s r, Visit c visitor sched cl = Some (s, r).
Proof.
  apply VisitWith_returns. induction (targets c) as [|pod pods [[v cmds] IH]]; simpl.
  - by eexists.
  - destruct v. rewrite IH. by eexists.
Qed.

Lemma visitFailure_Some (res : ExecResult) (e : error) :
  visitFailure res = Some e <->
  exists err, execErr res = Some err /\ e = invokeError err (stderr res).
Proof.
  unfold visitFailure. destruct (execErr res) as [err|]; split.
  - intros [= <-]. eauto.
  - by intros (? & [= <-] & ->).
  - done.
  - by intros (? & ? & ?).
Qed.

Lemma visitFailure_None (res : ExecResult) :
  visitFailure res = None <-> execErr res = None.
Proof. unfold visitFailure. by destruct (execErr res). Qed.

(** The message of the error built for a failed execution is the text
    before, the message of the error of [Exec], a blank and a newline,
    and the bytes of stderr. *)
Lemma invokeError_stderr (err : error) (out : list byte) :
  Contains (Error (invokeError err out)) (string_of_bytes out) = true.
Proof.
  unfold invokeError. cbn [Error].
  do 4 apply Contains_prepend. apply Contains_refl.
Qed.

(** One execution per target: the command the visitor returned for it,
    in the container xk6-agent of the target, with an empty stdin. *)
Lemma Visit_calls (c : agentController Ctx Cl) visitor sched cl s r :
  Visit c visitor sched cl = Some (s, r) ->
  (forall k pod, targets c !! k = Some pod ->
     exists res, (k, visitJob pod (visitor pod), res) ∈ calls (trace s)) /\
  (forall k j res, (k, j, res) ∈ calls (trace s) ->
     exists pod, targets c !! k = Some pod /\ j = visitJob pod (visitor pod)) /\
  NoDup (calls (trace s)).*1.*1 /\
  length (calls (trace s)) = length (targets c).
Proof.
  intros (Hinv & Hj & ->)%Visit_inv. split_and!.
  - intros k pod Hpod.
    destruct (joined_task _ _ _ (fun pod => visitJob pod (visitor pod))
                (fun _ _ => eq_refl) _ _ _ _ _ Hinv Hj Hpod) as (res & Hk).
    exists res. apply (called_task _ _ _ _ _ _ k _ res Hinv). auto.
  - intros k j res Hin.
    apply (call_target _ _ _ (fun pod => visitJob pod (visitor pod))
             (fun _ _ => eq_refl) _ _ _ _ _ _ Hinv Hin).
  - apply (inv_calls_once _ _ _ _ _ _ Hinv).
  - apply (joined_calls_length _ _ _ _ _ _ Hinv Hj).
Qed.

(** The executions of a run are calls of the helper's Exec, made one
    after the other on the cluster. *)
Lemma VisitWith_made {V : Type} (c : agentController Ctx Cl) (visitor : Visitor V)
    v sched cl s r :
  VisitWith c visitor v sched cl = Some (s, r) ->
  made (fun cl1 j => Exec (helper c) cl1 (Pod j) (Container j) (Cmd j) (StdinBytes j))
       cl (calls (trace s)) (cluster s).
Proof. apply fanout_made. Qed.

(** The error returned, whatever the visitor. *)
Lemma VisitWith_stderr {V : Type} (c : agentController Ctx Cl) (visitor : Visitor V)
    v sched cl s r :
  VisitWith c visitor v sched cl = Some (s, r) -> stderrOfReturnedFailure c s r.
Proof.
  intros Hvisit. pose proof (VisitWith_made _ _ _ _ _ _ _ Hvisit) as Hmade.
  pose proof (VisitWith_visitRunWith _ _ _ _ _ _ _ Hvisit) as Hrun.
  apply VisitWith_inv in Hvisit as (Hinv & Hj & ->). split.
  - intros (k & j & res & Hin & Herr) Hnone.
    pose proof (proj1 (selected_None _ _ _ _ _ _ Hinv Hj) Hnone _ _ _ Hin) as Hok.
    by apply visitFailure_None in Hok.
  - intros e Hsel.
    destruct (selected_Some _ _ _ _ _ _ _ Hinv Hsel) as (k & j & res & Hin & Hf).
    apply visitFailure_Some in Hf as (err & Herr & ->).
    destruct (visitRunWith_call _ _ _ _ _ _ _ _ _ Hrun Hin) as (pod & cmd & Hpod & ->).
    destruct (made_elem _ _ _ _ _ _ _ Hmade Hin) as (cl1 & cl2 & Hexec).
    exists k, pod, cmd, cl1, cl2, res, err. split_and!; try done.
    apply invokeError_stderr.
Qed.


(** C10: when [Visit] returns, whatever the schedule, the visitor has
    been called once for each target, in the order of the target list and
    each call on the state that the call before left; the command executed
    for a target is the one it returned for that target, and the call of
    the visitor for the target comes right before the [go] statement of
    the target, after the calls for the targets before it and before the
    execution, which is a call of the helper's Exec.  All along a run the
    visitor has been called for the targets whose goroutine has been
    started and for no other, and only a
    move of the main goroutine, which makes one call, changes the
    visitor's state. *)
Theorem Visit_visitor_sequential {V : Type} (c : agentController Ctx Cl)
    (visitor : Visitor V) (v : V) (sched : list Tid) (cl : Cl) s r :
  VisitWith c visitor v sched cl = Some (s, r) ->
  (exists cmds,
     visits visitor v (targets c) = Some (vstate s, cmds) /\
     forall k pod, targets c !! k = Some pod ->
       exists cmd tr1 tr2 res,
         cmds !! k = Some cmd /\
         trace s = tr1 ++ [EvLoop pod;
                           EvGo k {| Pod := pod; Container := "xk6-agent";
                                     Cmd := cmd; StdinBytes := [] |}] ++ tr2 /\
         loops tr1 = take k (targets c) /\
         (forall j' res', EvCall k j' res' ∉ tr1) /\
         EvCall k {| Pod := pod; Container := "xk6-agent";
                     Cmd := cmd; StdinBytes := [] |} res ∈ tr2) /\
  made (fun cl1 j => Exec (helper c) cl1 (Pod j) (Container j) (Cmd j) (StdinBytes j))
       cl (calls (trace s)) (cluster s) /\
  (forall sched1 s1,
     visitRunWith c visitor v sched1 cl = Some s1 ->
     exists cmds1,
       visits visitor v (take (length (tasks s1)) (targets c)) = Some (vstate s1, cmds1) /\
       Cmd <$> (job_of <$> tasks s1) = cmds1) /\
  (forall s1 t s2,
     step (askVisitor visitor) (visitCall c) visitFailure (length (targets c)) s1 t
       = Some s2 ->
     (t = Main ->
      exists pod rest cmd,
        todo s1 = pod :: rest /\ todo s2 = rest /\
        visitor (vstate s1) pod = Some (vstate s2, cmd)) /\
     (t <> Main -> vstate s2 = vstate s1 /\ todo s2 = todo s1)).
Proof.
  intros Hvisit. split_and!.
  - apply (VisitWith_order _ _ _ _ _ _ _ Hvisit).
  - apply (VisitWith_made _ _ _ _ _ _ _ Hvisit).
  - intros sched1 s1 Hrun.
    destruct (visitRunWith_visits _ _ _ _ _ _ Hrun) as (cmds & Hvisits & Hjobs & Htargets).
    apply visitRunWith_invariant in Hrun.
    exists cmds. split.
    + rewrite Htargets, (invariant_length _ _ _ _ _ _ Hrun), take_app_length. done.
    + rewrite Hjobs. apply visits_length in Hvisits.
      clear -Hvisits. revert cmds Hvisits.
      induction (loops (trace s1)) as [|pod pods IH]; intros [|cmd cmds]; simpl;
        try done.
      intros [= Hlen]. f_equal. by apply IH.
  - intros s1 t s2 Hstep. split.
    + intros ->. destruct (main_step _ _ _ _ _ _ Hstep)
        as (pod & rest & j & Htodo & Htodo' & Hask & _).
      unfold askVisitor in Hask.
      destruct (visitor (vstate s1) pod) as [[v' cmd]|] eqn:Hv; [|done].
      exists pod, rest, cmd. by simplify_eq.
    + intros Hne. destruct t as [|k]; [done|].
      apply (go_step _ _ _ _ _ _ _ Hstep).
Qed.

(** C7: [Visit] and [ExecCommand] return, and when an execution has
    failed the error returned is not nil and is the error built for one
    of the executions that the helper made and that failed; its message
    contains the bytes that this execution wrote on stderr. *)
Theorem returned_error_has_stderr {V : Type} (c : agentController Ctx Cl)
    (visitor : Visitor V) (v : V) (cmd : list string) (cl : Cl) :
  (is_Some (visits visitor v (targets c)) ->
   exists sched s r, VisitWith c visitor v sched cl = Some (s, r)) /\
  (forall sched s r,
     VisitWith c visitor v sched cl = Some (s, r) ->
     made (fun cl1 j => Exec (helper c) cl1 (Pod j) (Container j) (Cmd j) (StdinBytes j))
          cl (calls (trace s)) (cluster s) /\
     stderrOfReturnedFailure c s r) /\
  (exists sched s r, ExecCommand c cmd sched cl = Some (s, r)) /\
  (forall sched s r,
     ExecCommand c cmd sched cl = Some (s, r) ->
     made (fun cl1 j => Exec (helper c) cl1 (Pod j) (Container j) (Cmd j) (StdinBytes j))
          cl (calls (trace s)) (cluster s) /\
     stderrOfReturnedFailure c s r).
Proof.
  split_and!.
  - apply VisitWith_returns.
  - intros sched s r Hvisit. split; [by apply (VisitWith_made _ _ _ _ _ _ _ Hvisit)|].
    by apply (VisitWith_stderr _ _ _ _ _ _ _ Hvisit).
  - apply Visit_returns.
  - intros sched s r Hexec. split; [by apply (VisitWith_made _ _ _ _ _ _ _ Hexec)|].
    by apply (VisitWith_stderr _ _ _ _ _ _ _ Hexec).
Qed.
End ControllerFacts.

(** ** ExecCommand and the Visit of the specification *)

Section SpecFacts.
Context {Ctx Cl : Type}.
Variable c : agentController Ctx Cl.
Variable cmd : list string.

Local Abbreviation codeStep :=
  (step (askVisitor (fun (v : unit) (_ : string) => Some (v, cmd))) (visitCall c)
        visitFailure (length (targets c))).
Local Abbreviation codeRun :=
  (run (askVisitor (fun (v : unit) (_ : string) => Some (v, cmd))) (visitCall c)
       visitFailure (length (targets c))).
Local Abbreviation specStep := (Spec.step c (Spec.constantVisitor cmd)).
Local Abbreviation specRun := (Spec.run c (Spec.constantVisitor cmd)).

(** From the same point the same goroutine can move in both or in
    neither, and they are at the same point after. *)
Lemma samePoint_step s s' t :
  samePoint cmd s s' ->
  match codeStep s t, specStep s' t with
  | Some s1, Some s1' => samePoint cmd s1 s1'
  | None, None => True
  | _, _ => False
  end.
Proof.
  intros [Htodo Htasks Hchan Hcl Hcalls]. destruct t as [|k]; simpl.
  - rewrite <- Htodo. destruct (todo s) as [|pod rest]; [done|]. simpl.
    split; simpl; try done.
    + apply Forall2_app; [done|]. by repeat constructor.
    + by rewrite calls_main.
  - destruct (tasks s !! k) as [task|] eqn:Hk; cycle 1.
    { destruct (Spec.tasks s' !! k) as [task'|] eqn:Hk'; [|done].
      apply lookup_lt_Some in Hk'. apply lookup_ge_None in Hk.
      apply Forall2_length in Htasks. lia. }
    destruct (Forall2_lookup_l _ _ _ _ _ Htasks Hk) as (task' & Hk' & Hsame).
    rewrite Hk'. destruct task as [j|j r e|j r], task' as [pod cmds|pod cmds e'|e'|];
      simpl in Hsame; try done.
    + destruct Hsame as [-> ->]. unfold visitCall. simpl. rewrite <- Hcl.
      destruct (Exec (helper c) (cluster s) pod "xk6-agent" cmd []) as [cl' res].
      split; simpl; try done.
      * apply Forall2_insert; [done|]. unfold after_call, visitFailure.
        by destruct (execErr res).
      * by rewrite calls_call, Hcalls.
    + subst e'. rewrite <- Hchan.
      destruct (decide (length (chan s) < length (targets c))); [|done].
      split; simpl; try done.
      * by apply Forall2_insert.
      * by rewrite calls_send.
Qed.

Lemma samePoint_run sched s s' :
  samePoint cmd s s' ->
  match codeRun sched s, specRun sched s' with
  | Some s1, Some s1' => samePoint cmd s1 s1'
  | None, None => True
  | _, _ => False
  end.
Proof.
  revert s s'. induction sched as [|t sched IH]; intros s s' Hsame; simpl; [done|].
  pose proof (samePoint_step s s' t Hsame) as Hstep.
  destruct (codeStep s t) as [s1|], (specStep s' t) as [s1'|]; try done.
  by apply IH.
Qed.

Lemma samePoint_joined (s : State unit Cl Command ExecResult) (s' : Spec.State Cl) :
  samePoint cmd s s' -> joined s = Spec.joined s'.
Proof.
  intros [Htodo Htasks _ _ _]. unfold joined, Spec.joined. rewrite <- Htodo.
  destruct (todo s); [|done].
  induction Htasks as [|task task' l l' Hsame _ IH]; simpl; [done|].
  rewrite IH. by destruct task, task'.
Qed.

(** C5: under every schedule [ExecCommand cmd] and the [Visit] of the
    specification given the constant visitor, which for every pod
    returns cmd to execute and nothing to clean up with, either both
    return or none does, and when they return they have made the same
    remote executions, in the same order and with the same results, they
    leave the cluster in the same state and they return the same error. *)
Theorem ExecCommand_is_constant_Visit (sched : list Tid) (cl : Cl) :
  observed <$> ExecCommand c cmd sched cl
  = observedOfSpec <$> Spec.Visit c (Spec.constantVisitor cmd) sched cl.
Proof.
  unfold ExecCommand, Visit, VisitWith, fanout, Spec.Visit.
  pose proof (samePoint_run sched (start tt (targets c) cl)
                {| Spec.todo := targets c; Spec.tasks := []; Spec.failures := [];
                   Spec.cluster := cl; Spec.executions := [] |}) as Hrun.
  destruct (codeRun sched (start tt (targets c) cl)) as [s|],
           (specRun sched _) as [s'|]; try (by destruct Hrun; [by split|]); cycle 1.
  { exfalso. apply Hrun. by split. }
  { exfalso. apply Hrun. by split. }
  assert (samePoint cmd s s') as Hsame by (apply Hrun; by split).
  rewrite (samePoint_joined _ _ Hsame). destruct (Spec.joined s'); [|done].
  destruct Hsame as [_ _ Hchan Hcl Hcalls]. unfold observed, observedOfSpec, selected.
  simpl. by rewrite Hchan, Hcl, Hcalls.
Qed.
End SpecFacts.

(** ** The cluster of the specification *)

Lemma containersOf_attachTo pods pod c pod' :
  containersOf (attachTo pods pod c) pod' =
  if String.eqb pod pod' then (fun cs => cs ++ [c]) <$> containersOf pods pod'
  else containersOf pods pod'.
Proof.
  induction pods as [|[p cs] pods IH]; simpl.
  - by destruct (String.eqb pod pod').
  - destruct (String.eqb_spec p pod) as [->|Hp]; simpl.
    + by destruct (String.eqb_spec pod pod').
    + destruct (String.eqb_spec p pod') as [->|Hp']; [|apply IH].
      by destruct (String.eqb_spec pod pod') as [->|].
Qed.

(** An attach removes no container. *)
Lemma fakeAttach_keeps ready cl ctx0 pod c opts pod' name :
  hasContainer cl pod' name = true ->
  hasContainer (fakeAttach ready cl ctx0 pod c opts).1 pod' name = true.
Proof.
  intros Hhas. unfold fakeAttach.
  destruct (containersOf (ephemeral cl) pod) as [cs|]; [|done].
  destruct (existsb _ cs); [by destruct (IgnoreIfExists opts)|].
  assert (hasContainer {| ephemeral := attachTo (ephemeral cl) pod c;
                          history := history cl |} pod' name = true) as Hkept.
  { unfold hasContainer in *. simpl. rewrite containersOf_attachTo.
    destruct (String.eqb pod pod'); [|done].
    destruct (containersOf (ephemeral cl) pod') as [cs'|]; [|done]. simpl.
    rewrite existsb_app, Hhas. done. }
  by destruct (Timeout opts =? 0)%Z, ready.
Qed.

(** "IgnoreIfExists=true makes re-attachment a no-op success." *)
Lemma fakeAttach_exists ready cl ctx0 pod c opts :
  hasContainer cl pod (Name c) = true -> IgnoreIfExists opts = true ->
  fakeAttach ready cl ctx0 pod c opts = (cl, None).
Proof.
  unfold hasContainer, fakeAttach. intros Hhas ->.
  destruct (containersOf (ephemeral cl) pod) as [cs|]; [|done].
  by rewrite Hhas.
Qed.

(** After an attach that returned nil the pod has the container. *)
Lemma fakeAttach_attached ready cl ctx0 pod c opts cl' :
  fakeAttach ready cl ctx0 pod c opts = (cl', None) ->
  hasContainer cl' pod (Name c) = true.
Proof.
  unfold fakeAttach, hasContainer.
  destruct (containersOf (ephemeral cl) pod) as [cs|] eqn:Hcs; [|done].
  destruct (existsb _ cs) eqn:Hex.
  - destruct (IgnoreIfExists opts); [|done]. intros [= <-]. by rewrite Hcs.
  - assert (containersOf (attachTo (ephemeral cl) pod c) pod = Some (cs ++ [c])) as Hnew.
    { by rewrite containersOf_attachTo, String.eqb_refl, Hcs. }
    assert (existsb (fun c' => String.eqb (Name c') (Name c)) (cs ++ [c]) = true) as Hin.
    { rewrite existsb_app. simpl. rewrite String.eqb_refl. by destruct (existsb _ cs). }
    destruct (Timeout opts =? 0)%Z; [|destruct ready; [|done]];
      intros [= <-]; simpl; by rewrite Hnew.
Qed.

(** An attach executes nothing. *)
Lemma fakeAttach_history ready cl ctx0 pod c opts h :
  history cl = h -> history (fakeAttach ready cl ctx0 pod c opts).1 = h.
Proof.
  intros <-. unfold fakeAttach.
  destruct (containersOf (ephemeral cl) pod) as [cs|]; [|done].
  destruct (existsb _ cs); [by destruct (IgnoreIfExists opts)|].
  by destruct (Timeout opts =? 0)%Z, ready.
Qed.

Section Idempotence.
Variable AgentImage : string.
Variable ready : bool.
Variable result : string -> ExecResult.
Variable c : agentController unit FakeCluster.
Hypothesis helper_c : helper c = fakeHelper ready result.

(** What the cluster keeps of the attaches made since [cl]. *)
Lemma InjectDisruptorAgent_cluster cl sched s r :
  InjectDisruptorAgent AgentImage c sched cl = Some (s, r) ->
  forall k j res, (k, j, res) ∈ calls (trace s) ->
    (hasContainer cl (attachPod j) "xk6-agent" = true -> res = None) /\
    (res = None -> hasContainer (cluster s) (attachPod j) "xk6-agent" = true).
Proof.
  intros Hrun k j res Hin.
  pose proof (InjectDisruptorAgent_inv _ _ _ _ _ _ Hrun) as (Hinv & Hj & _).
  unfold InjectDisruptorAgent, fanout in Hrun.
  destruct (run _ _ _ _ sched _) as [s'|] eqn:Hsched; [|done].
  destruct (joined s'); [|done]. simplify_eq.
  pose (P := fun cl' : FakeCluster =>
    forall pod, hasContainer cl pod "xk6-agent" = true ->
                hasContainer cl' pod "xk6-agent" = true).
  pose (post := fun (cl' : FakeCluster) (j : AttachCall) (res : option error) =>
    attachContainer j = agentContainer AgentImage ->
    IgnoreIfExists (attachOptions j) = true ->
    (hasContainer cl (attachPod j) "xk6-agent" = true -> res = None) /\
    (res = None -> hasContainer cl' (attachPod j) "xk6-agent" = true)).
  assert (P (cluster s) /\
          forall k j r, tasks s !! k ≫= outcome_of = Some (j, r) ->
                        post (cluster s) j r) as [_ Hpost];
    [eapply (run_post (stateless (injectJob AgentImage c)) (injectCall c) injectFailure
               (length (targets c)) P post); [..|exact Hsched]|].
  - intros cl1 j1 HP pod Hpod. unfold injectCall. rewrite helper_c. simpl.
    by apply fakeAttach_keeps, HP.
  - intros cl1 j1 HP Hc Hopt. unfold injectCall. rewrite helper_c. simpl. split.
    + intros Hhas. rewrite fakeAttach_exists; [done| |done].
      rewrite Hc. simpl. by apply HP.
    + intros Hnone.
      destruct (fakeAttach ready cl1 (ctx c) (attachPod j1) (attachContainer j1)
                  (attachOptions j1)) as [cl2 res2] eqn:Hat.
      simpl in *. subst res2. apply fakeAttach_attached in Hat. by rewrite Hc in Hat.
  - intros cl1 j1 r1 j2 HP Hpost Hc Hopt. destruct (Hpost Hc Hopt) as [H1 H2].
    split; [done|]. intros Hnone. unfold injectCall. rewrite helper_c. simpl.
    by apply fakeAttach_keeps, H2.
  - by intros pod.
  - by intros k' j' r'.
  - destruct (call_target _ _ _ (injectJob AgentImage c) (fun _ _ => eq_refl)
                _ _ _ _ _ _ Hinv Hin) as (pod & _ & ->).
    apply (Hpost k); [|done..]. by apply (inv_calls _ _ _ _ _ _ Hinv).
Qed.

(** Targets that all have the container: the call returns nil. *)
Lemma InjectDisruptorAgent_injected cl sched s r :
  InjectDisruptorAgent AgentImage c sched cl = Some (s, r) ->
  (forall pod, pod ∈ targets c -> hasContainer cl pod "xk6-agent" = true) ->
  r = None.
Proof.
  intros Hrun Hall.
  pose proof (InjectDisruptorAgent_inv _ _ _ _ _ _ Hrun) as (Hinv & Hj & ->).
  apply (selected_None _ _ _ _ _ _ Hinv Hj). intros k j res Hin.
  destruct (InjectDisruptorAgent_cluster _ _ _ _ Hrun _ _ _ Hin) as [Hnone _].
  destruct (call_target _ _ _ (injectJob AgentImage c) (fun _ _ => eq_refl)
              _ _ _ _ _ _ Hinv Hin) as (pod & Hpod & ->).
  apply Hnone, Hall. eapply list_elem_of_lookup_2, Hpod.
Qed.

(** C6: every attach is issued with IgnoreIfExists set; against the
    helper of the specification the attach of a target that already has
    the agent container returns nil, the call returns nil when all the
    targets have it, and a second call after a first that returned nil
    returns, and returns nil. *)
Theorem InjectDisruptorAgent_idempotent (cl : FakeCluster) (sched : list Tid) s r :
  InjectDisruptorAgent AgentImage c sched cl = Some (s, r) ->
  (forall k j res, (k, j, res) ∈ calls (trace s) ->
     IgnoreIfExists (attachOptions j) = true) /\
  (forall k pod, targets c !! k = Some pod ->
     hasContainer cl pod "xk6-agent" = true ->
     (k, injectJob AgentImage c pod, None) ∈ calls (trace s)) /\
  ((forall pod, pod ∈ targets c -> hasContainer cl pod "xk6-agent" = true) ->
   r = None) /\
  (r = None ->
   forall sched' s' r',
     InjectDisruptorAgent AgentImage c sched' (cluster s) = Some (s', r') ->
     r' = None) /\
  (exists sched' s' r',
     InjectDisruptorAgent AgentImage c sched' (cluster s) = Some (s', r')).
Proof.
  intros Hrun.
  pose proof (InjectDisruptorAgent_inv _ _ _ _ _ _ Hrun) as (Hinv & Hj & Hr).
  split_and!; [..|apply InjectDisruptorAgent_returns].
  - intros k j res Hin.
    by destruct (call_target _ _ _ (injectJob AgentImage c) (fun _ _ => eq_refl)
                   _ _ _ _ _ _ Hinv Hin) as (pod & _ & ->).
  - intros k pod Hpod Hhas.
    destruct (joined_task _ _ _ (injectJob AgentImage c) (fun _ _ => eq_refl)
                _ _ _ _ _ Hinv Hj Hpod) as (res & Hk).
    assert ((k, injectJob AgentImage c pod, res) ∈ calls (trace s)) as Hin.
    { apply (called_task _ _ _ _ _ _ k _ res Hinv). auto. }
    destruct (InjectDisruptorAgent_cluster _ _ _ _ Hrun _ _ _ Hin) as [Hnone _].
    by rewrite (Hnone Hhas) in Hin.
  - by apply (InjectDisruptorAgent_injected _ _ _ _ Hrun).
  - intros Hnone sched' s' r' Hrun'.
    eapply InjectDisruptorAgent_injected; [exact Hrun'|].
    intros pod (k & Hpod)%list_elem_of_lookup_1.
    destruct (joined_task _ _ _ (injectJob AgentImage c) (fun _ _ => eq_refl)
                _ _ _ _ _ Hinv Hj Hpod) as (res & Hk).
    assert ((k, injectJob AgentImage c pod, res) ∈ calls (trace s)) as Hin.
    { apply (called_task _ _ _ _ _ _ k _ res Hinv). auto. }
    destruct (InjectDisruptorAgent_cluster _ _ _ _ Hrun _ _ _ Hin) as [_ Hhas].
    apply Hhas. subst r.
    by apply (proj1 (selected_None _ _ _ _ _ _ Hinv Hj) Hnone _ _ _ Hin).
Qed.
End Idempotence.

(** ** The scenarios of the tests *)

(** C4 at 0, at -1 (the timeout Test_InjectAgent passes so as not to wait)
    and at 5 seconds. *)
Lemma NewAgentController_timeout_witness :
  (timeout (testController succeeds ["pod1"; "pod2"] 0%Z) = 30 * Second)%Z /\
  (timeout (testController succeeds ["pod1"; "pod2"] (-1)%Z) = 0)%Z /\
  (timeout (testController succeeds ["pod1"; "pod2"] (5 * Second)%Z) = 5 * Second)%Z.
Proof.
  split_and!.
  - apply (NewAgentController_timeout tt (fakeHelper false succeeds) "test-ns"
             ["pod1"; "pod2"] 0%Z). reflexivity.
  - apply (NewAgentController_timeout tt (fakeHelper false succeeds) "test-ns"
             ["pod1"; "pod2"] (-1)%Z). reflexivity.
  - apply (NewAgentController_timeout tt (fakeHelper false succeeds) "test-ns"
             ["pod1"; "pod2"] (5 * Second)%Z). reflexivity.
Defined.

(** The hypothesis of a theorem about a run, at a run that is given: the
    run is evaluated. *)
Ltac run_it :=
  match goal with
  | |- ?run /\ _ =>
      let Hrun := fresh "Hrun" in
      assert run as Hrun by (vm_compute; reflexivity);
      split; [exact Hrun|]
  end.




(** "failed execution" of Test_VisitPod with the [Visit] of the
    specification and the visitor of the test, which has a cleanup: each
    target has its command executed and then, the execution having
    failed, its cleanup.  These are the four commands that the test
    expects in the history of the executor. *)
Lemma Spec_Visit_cleans_up :
  exists s r,
    Spec.Visit (testController (fails "error output") ["pod1"; "pod2"] 0%Z)
      (fun _ => inl {| Spec.Exec := ["command"]; Spec.Cleanup := ["cleanup"] |})
      [Main; Go 0; Go 0; Go 0; Main; Go 1; Go 1; Go 1]
      (emptyCluster ["pod1"; "pod2"]) = Some (s, r) /\
    history (Spec.cluster s) =
      [ {| Pod := "pod1"; Container := "xk6-agent"; Cmd := ["command"]; StdinBytes := [] |};
        {| Pod := "pod1"; Container := "xk6-agent"; Cmd := ["cleanup"]; StdinBytes := [] |};
        {| Pod := "pod2"; Container := "xk6-agent"; Cmd := ["command"]; StdinBytes := [] |};
        {| Pod := "pod2"; Container := "xk6-agent"; Cmd := ["cleanup"]; StdinBytes := [] |} ] /\
    exists e, r = Some e /\ Contains (Error e) "error output" = true.
Proof.
  eexists _, _. run_it. split; [reflexivity|]. eexists. split; reflexivity.
Qed.

(** C3 on "ephemeral container not ready" of Test_InjectAgent: a positive
    timeout and a cluster that never reports the container ready; both
    attaches are made and fail, and the error of one is returned. *)
Lemma InjectDisruptorAgent_errors_witness :
  exists s r,
    InjectDisruptorAgent "xk6-disruptor-agent"
      (testController succeeds ["pod1"; "pod2"] 1%Z)
      (inOrder true 0 2) (emptyCluster ["pod1"; "pod2"]) = Some (s, r) /\
    length (calls (trace s)) = 2 /\
    made (fun cl1 j =>
            AttachEphemeralContainer (fakeHelper false succeeds) cl1 tt
              (attachPod j) (attachContainer j) (attachOptions j))
         (emptyCluster ["pod1"; "pod2"]) (calls (trace s)) (cluster s) /\
    (r = None <-> forall k j res, (k, j, res) ∈ calls (trace s) -> res = None) /\
    (forall e, r = Some e -> exists k j, (k, j, Some e) ∈ calls (trace s)) /\
    r = Some (errorString "timeout waiting for ephemeral container").
Proof.
  eexists _, _. run_it.
  destruct (proj2 (InjectDisruptorAgent_errors "xk6-disruptor-agent"
                     (testController succeeds ["pod1"; "pod2"] 1%Z)
                     (emptyCluster ["pod1"; "pod2"])) _ _ _ Hrun)
    as (_ & _ & Hlen & Hmade & Hnil & Herr).
  split_and!; [exact Hlen|exact Hmade|exact Hnil|exact Herr|reflexivity].
Defined.

(** C6: pod1 has the agent container, pod2 has none and the cluster never
    reports a container ready: pod1's attach returns nil, pod2's fails. *)
Lemma InjectDisruptorAgent_idempotent_witness :
  exists s r,
    InjectDisruptorAgent "xk6-disruptor-agent"
      (testController succeeds ["pod1"; "pod2"] 1%Z) [Main; Go 0; Main; Go 1; Go 1]
      {| ephemeral := [("pod1", [agentContainer "xk6-disruptor-agent"]); ("pod2", [])];
         history := [] |} = Some (s, r) /\
    helper (testController succeeds ["pod1"; "pod2"] 1%Z) = fakeHelper false succeeds /\
    (0, injectJob "xk6-disruptor-agent" (testController succeeds ["pod1"; "pod2"] 1%Z) "pod1",
     None) ∈ calls (trace s).
Proof.
  eexists _, _. run_it. split; [reflexivity|].
  destruct (InjectDisruptorAgent_idempotent "xk6-disruptor-agent" false succeeds
              (testController succeeds ["pod1"; "pod2"] 1%Z) eq_refl _ _ _ _ Hrun)
    as (_ & Hhas & _).
  apply (Hhas 0 "pod1"); reflexivity.
Defined.

(** C7 on "failed execution" of Test_VisitPod: the error returned was
    built for an execution of the executor, and has "error output" in its
    message. *)
Lemma returned_error_has_stderr_witness :
  exists s r,
    Visit (testController (fails "error output") ["pod1"; "pod2"] 0%Z)
          (fun _ => ["command"]) (inOrder true 0 2)
          (emptyCluster ["pod1"; "pod2"]) = Some (s, r) /\
    made (fun cl1 j => Exec (fakeHelper false (fails "error output")) cl1
                         (Pod j) (Container j) (Cmd j) (StdinBytes j))
         (emptyCluster ["pod1"; "pod2"]) (calls (trace s)) (cluster s) /\
    stderrOfReturnedFailure
      (testController (fails "error output") ["pod1"; "pod2"] 0%Z) s r /\
    exists e, r = Some e /\ Contains (Error e) "error output" = true.
Proof.
  eexists _, _. run_it.
  destruct (proj1 (proj2 (returned_error_has_stderr
                            (testController (fails "error output") ["pod1"; "pod2"] 0%Z)
                            (fun v pod => Some (v, ["command"])) tt ["command"]
                            (emptyCluster ["pod1"; "pod2"]))) _ _ _ Hrun)
    as [Hmade Hstderr].
  split_and!; [exact Hmade|exact Hstderr|].
  eexists. split; reflexivity.
Defined.

(** C8 on "Inject ephemeral container" of Test_InjectAgent: the cluster
    ends with the agent container in both pods. *)
Lemma InjectDisruptorAgent_container_witness :
  exists s r,
    InjectDisruptorAgent "xk6-disruptor-agent"
      (testController succeeds ["pod1"; "pod2"] (-1)%Z)
      (inOrder false 0 2) (emptyCluster ["pod1"; "pod2"]) = Some (s, r) /\
    (forall k pod,
       targets (testController succeeds ["pod1"; "pod2"] (-1)%Z) !! k = Some pod ->
       exists j res, (k, j, res) ∈ calls (trace s) /\ attachPod j = pod) /\
    made (fun cl1 j =>
            AttachEphemeralContainer (fakeHelper false succeeds) cl1 tt
              (attachPod j) (attachContainer j) (attachOptions j))
         (emptyCluster ["pod1"; "pod2"]) (calls (trace s)) (cluster s) /\
    (forall k j res, (k, j, res) ∈ calls (trace s) ->
       Name (attachContainer j) = "xk6-agent" /\
       Image (attachContainer j) = "xk6-disruptor-agent" /\
       TTY (attachContainer j) = true /\ Stdin (attachContainer j) = true) /\
    ephemeral (cluster s) =
      [ ("pod1", [agentContainer "xk6-disruptor-agent"]);
        ("pod2", [agentContainer "xk6-disruptor-agent"]) ].
Proof.
  eexists _, _. run_it.
  destruct (InjectDisruptorAgent_container "xk6-disruptor-agent"
              (testController succeeds ["pod1"; "pod2"] (-1)%Z) _ _ _ _ Hrun)
    as (Hall & Hmade & Hcontainer).
  split_and!; [exact Hall|exact Hmade| |reflexivity].
  intros k j res Hin. destruct (Hcontainer k j res Hin) as (_ & ? & ? & _ & ? & ?).
  done.
Defined.

(** C10 with the visitor that counts its calls, under a schedule that
    lets pod1's goroutine run before the loop body of pod2: the visitor
    has been called twice, and the commands executed have the numbers 0
    and 1. *)
Lemma Visit_visitor_sequential_witness :
  exists s r,
    VisitWith (testController succeeds ["pod1"; "pod2"] 0%Z) countingVisitor 0
              [Main; Go 0; Main; Go 1] (emptyCluster ["pod1"; "pod2"]) = Some (s, r) /\
    (exists cmds,
       visits countingVisitor 0 ["pod1"; "pod2"] = Some (vstate s, cmds) /\
       forall k pod, ["pod1"; "pod2"] !! k = Some pod ->
         exists cmd tr1 tr2 res,
           cmds !! k = Some cmd /\
           trace s = tr1 ++ [EvLoop pod;
                             EvGo k {| Pod := pod; Container := "xk6-agent";
                                       Cmd := cmd; StdinBytes := [] |}] ++ tr2 /\
           loops tr1 = take k ["pod1"; "pod2"] /\
           (forall j' res', EvCall k j' res' ∉ tr1) /\
           EvCall k {| Pod := pod; Container := "xk6-agent";
                       Cmd := cmd; StdinBytes := [] |} res ∈ tr2) /\
    made (fun cl1 j => Exec (fakeHelper false succeeds) cl1
                         (Pod j) (Container j) (Cmd j) (StdinBytes j))
         (emptyCluster ["pod1"; "pod2"]) (calls (trace s)) (cluster s) /\
    vstate s = 2 /\
    history (cluster s) =
      [ {| Pod := "pod1"; Container := "xk6-agent"; Cmd := ["command"; "pod1"; "0"];
           StdinBytes := [] |};
        {| Pod := "pod2"; Container := "xk6-agent"; Cmd := ["command"; "pod2"; "1"];
           StdinBytes := [] |} ].
Proof.
  eexists _, _. run_it.
  destruct (Visit_visitor_sequential (testController succeeds ["pod1"; "pod2"] 0%Z)
              countingVisitor 0 _ _ _ _ Hrun) as (Hasked & Hmade & _).
  split_and!; [exact Hasked|exact Hmade|reflexivity..].
Defined.

(** * More of the controller *)

(** ** The machine, continued *)

Section FanOutMore.
Context {V Cl Job Res : Type}.
Variable prepare : V -> string -> option (V * Job).
Variable call : Cl -> Job -> Cl * Res.
Variable failure : Res -> option error.
Variable cap : nat.

Local Abbreviation step := (step prepare call failure cap).
Local Abbreviation run := (run prepare call failure cap).
Local Abbreviation invariant := (invariant prepare failure cap).

(** A run is no longer than the fuel it starts with. *)
Lemma run_fuel sched (s s' : State V Cl Job Res) :
  run sched s = Some s' -> length sched + fuel s' <= fuel s.
Proof.
  revert s. induction sched as [|t sched IH]; intros s; simpl.
  - intros [= <-]. lia.
  - destruct (step s t) as [s1|] eqn:Hstep; [|done]. intros Hrun.
    pose proof (step_fuel _ _ _ _ _ _ _ Hstep). specialize (IH _ Hrun). lia.
Qed.

(** A goroutine that has an error to send finds room in the channel. *)
Lemma sending_room v0 pods (s : State V Cl Job Res) k j r e :
  invariant v0 pods s -> tasks s !! k = Some (Sending j r e) ->
  length (chan s) < cap.
Proof.
  intros Hinv Hk.
  pose proof (inv_room _ _ _ _ _ _ Hinv) as Hroom. unfold room_needed in Hroom.
  pose proof (sum_list_lookup_le may_send _ _ _ Hk). simpl in *. lia.
Qed.

(** With no target nothing can move. *)
Lemma run_no_target sched v (cl : Cl) (s : State V Cl Job Res) :
  run sched (start v [] cl) = Some s -> sched = [] /\ s = start v [] cl.
Proof.
  destruct sched as [|[|k] sched]; simpl; [by intros [= <-]|done..].
Qed.

(** The channel is read in the order of the sends. *)
Lemma selected_first_sent v0 pods (s : State V Cl Job Res) :
  invariant v0 pods s -> selected s = snd <$> head (sends (trace s)).
Proof.
  intros Hinv. unfold selected. rewrite (inv_chan _ _ _ _ _ _ Hinv).
  by destruct (sends (trace s)).
Qed.

(** *** The cluster and the calls for the targets

    As [run_post], for loop bodies that keep no state and with the
    assumptions on the calls made only for the calls prepared for a
    target. *)
Section ClusterTargets.
Variable f : string -> Job.
Hypothesis prepare_stateless : forall v pod, prepare v pod = Some (v, f pod).
Variable v0 : V.
Variable pods : list string.
Variable P : Cl -> Prop.
Variable post : Cl -> Job -> Res -> Prop.
Hypothesis call_P :
  forall cl pod, pod ∈ pods -> P cl -> P (call cl (f pod)).1.
Hypothesis call_post :
  forall cl pod, pod ∈ pods -> P cl ->
    post (call cl (f pod)).1 (f pod) (call cl (f pod)).2.
Hypothesis call_stable :
  forall cl pod j r, pod ∈ pods -> P cl -> post cl j r ->
    post (call cl (f pod)).1 j r.

Lemma run_post_targets sched (s s' : State V Cl Job Res) :
  invariant v0 pods s ->
  P (cluster s) ->
  (forall k j r, tasks s !! k ≫= outcome_of = Some (j, r) -> post (cluster s) j r) ->
  run sched s = Some s' ->
  P (cluster s') /\
  forall k j r, tasks s' !! k ≫= outcome_of = Some (j, r) -> post (cluster s') j r.
Proof.
  revert s. induction sched as [|t sched IH]; intros s Hinv HP Hpost; simpl.
  { by intros [= <-]. }
  destruct (step s t) as [s1|] eqn:Hstep; [|done].
  pose proof (invariant_step _ _ _ _ _ _ _ _ _ Hinv Hstep) as Hinv1.
  apply IH; [done|..];
    destruct (step_inv _ _ _ _ _ _ _ Hstep) as
      [(pod & rest & v' & j0 & _ & Htodo & _ & ->)
      |[(k & j & cl' & r & _ & Hk & Hcall & ->)|(k & j & r & e & _ & Hk & _ & ->)]];
    simpl; try done.
  - destruct (task_target _ _ _ f prepare_stateless _ _ _ _ _ Hinv Hk)
      as (pod & Hpod & Hjob).
    simpl in Hjob. subst j. apply list_elem_of_lookup_2 in Hpod.
    specialize (call_P (cluster s) pod Hpod HP). by rewrite Hcall in call_P.
  - intros k' j' r' Hk'. destruct (decide (k' < length (tasks s))).
    + rewrite lookup_app_l in Hk' by done. eauto.
    + apply bind_Some in Hk' as (task & Hk' & Hout).
      apply lookup_snoc_Some in Hk' as [[? _]|[_ <-]]; [lia|done].
  - destruct (task_target _ _ _ f prepare_stateless _ _ _ _ _ Hinv Hk)
      as (pod & Hpod & Hjob).
    simpl in Hjob. subst j. apply list_elem_of_lookup_2 in Hpod.
    intros k' j' r' Hk'. destruct (decide (k' = k)) as [->|Hne].
    + rewrite list_lookup_insert_eq in Hk' by eauto using lookup_lt_Some.
      simpl in Hk'. rewrite outcome_after_call in Hk'. simplify_eq.
      specialize (call_post (cluster s) pod Hpod HP). by rewrite Hcall in call_post.
    + rewrite list_lookup_insert_ne in Hk' by done.
      specialize (call_stable (cluster s) pod j' r' Hpod HP (Hpost _ _ _ Hk')).
      by rewrite Hcall in call_stable.
  - intros k' j' r' Hk'. destruct (decide (k' = k)) as [->|Hne].
    + rewrite list_lookup_insert_eq in Hk' by eauto using lookup_lt_Some.
      simpl in Hk'. simplify_eq. apply (Hpost k). by rewrite Hk.
    + rewrite list_lookup_insert_ne in Hk' by done. eauto.
Qed.
End ClusterTargets.
End FanOutMore.

(** ** The controller, continued *)

Section ControllerMore.
Context {Ctx Cl : Type}.
Variable AgentImage : string.

Local Abbreviation visitLoop visitor :=
  (@stateless unit Command (fun pod => visitJob pod (visitor pod))).
Local Abbreviation injectLoop c :=
  (@stateless unit AttachCall (injectJob AgentImage c)).

Lemma visitRun_invariant (c : agentController Ctx Cl) visitor sched cl s :
  visitRun c visitor sched cl = Some s ->
  invariant (visitLoop visitor) visitFailure (length (targets c)) tt (targets c) s.
Proof.
  intros Hrun.
  exact (visitRunWith_invariant c (fun v pod => Some (v, visitor pod)) tt sched cl s Hrun).
Qed.

Lemma injectRun_invariant (c : agentController Ctx Cl) sched cl s :
  injectRun AgentImage c sched cl = Some s ->
  invariant (injectLoop c) injectFailure (length (targets c)) tt (targets c) s.
Proof.
  intros Hrun. eapply invariant_run; [|exact Hrun]. by apply invariant_start.
Qed.

Lemma Visit_visitRun (c : agentController Ctx Cl) visitor sched cl s r :
  Visit c visitor sched cl = Some (s, r) -> visitRun c visitor sched cl = Some s.
Proof. apply VisitWith_visitRunWith. Qed.

Lemma InjectDisruptorAgent_injectRun (c : agentController Ctx Cl) sched cl s r :
  InjectDisruptorAgent AgentImage c sched cl = Some (s, r) -> injectRun AgentImage c sched cl = Some s.
Proof.
  unfold InjectDisruptorAgent, fanout, injectRun.
  destruct (run _ _ _ _ sched _) as [s'|]; [|done].
  destruct (joined s'); [|done]. by intros [= -> _].
Qed.

(** X1: "ensure errors channel has enough space to avoid blocking
    gorutines".  Wherever a run of [Visit] or of [InjectDisruptorAgent]
    stands, a goroutine that has an error to send finds the channel not
    full, and its send is the next move if the scheduler picks it. *)
Theorem errors_channel_has_room (c : agentController Ctx Cl)
    (visitor : string -> list string) (sched : list Tid) (cl : Cl) :
  (forall s k j r e,
     visitRun c visitor sched cl = Some s ->
     tasks s !! k = Some (Sending j r e) ->
     length (chan s) < length (targets c) /\
     exists s', visitRun c visitor (sched ++ [Go k]) cl = Some s' /\
                chan s' = chan s ++ [e]) /\
  (forall s k j r e,
     injectRun AgentImage c sched cl = Some s ->
     tasks s !! k = Some (Sending j r e) ->
     length (chan s) < length (targets c) /\
     exists s', injectRun AgentImage c (sched ++ [Go k]) cl = Some s' /\
                chan s' = chan s ++ [e]).
Proof.
  split; intros s k j r e Hrun Hk.
  - pose proof (sending_room _ _ _ _ _ _ _ _ _ _ (visitRun_invariant _ _ _ _ _ Hrun) Hk)
      as Hroom.
    split; [done|]. unfold visitRun, visitRunWith in *. rewrite run_app, Hrun. simpl.
    rewrite Hk. destruct (decide _); [|done]. eauto.
  - pose proof (sending_room _ _ _ _ _ _ _ _ _ _ (injectRun_invariant _ _ _ _ Hrun) Hk)
      as Hroom.
    split; [done|]. unfold injectRun in *.
    rewrite run_app, Hrun. simpl.
    rewrite Hk. destruct (decide _); [|done]. eauto.
Qed.

(** X2: [wg.Wait()] returns.  A run of [Visit] or of
    [InjectDisruptorAgent] has at most three moves per target, and
    wherever it stands it can go on to the join: no schedule leaves a
    goroutine stuck. *)
Theorem run_reaches_join (c : agentController Ctx Cl)
    (visitor : string -> list string) (sched1 : list Tid) (cl : Cl) :
  (forall s1, visitRun c visitor sched1 cl = Some s1 ->
     length sched1 <= 3 * length (targets c) /\
     exists sched2 s r, Visit c visitor (sched1 ++ sched2) cl = Some (s, r)) /\
  (forall s1, injectRun AgentImage c sched1 cl = Some s1 ->
     length sched1 <= 3 * length (targets c) /\
     exists sched2 s r, InjectDisruptorAgent AgentImage c (sched1 ++ sched2) cl = Some (s, r)).
Proof.
  split; intros s1 Hrun; split.
  - pose proof (run_fuel _ _ _ _ _ _ _ Hrun) as Hfuel.
    unfold fuel in Hfuel at 2. simpl in Hfuel. lia.
  - apply (fanout_returns (visitLoop visitor) (visitCall c) visitFailure _ tt _ _ _ s1
             (le_n _)); [|exact Hrun].
    by rewrite (prepareAll_stateless _ (fun pod => visitJob pod (visitor pod))).
  - pose proof (run_fuel _ _ _ _ _ _ _ Hrun) as Hfuel.
    unfold fuel in Hfuel at 2. simpl in Hfuel. lia.
  - apply (fanout_returns (injectLoop c) (injectCall c) injectFailure _ tt _ _ _ s1
             (le_n _)); [|exact Hrun].
    by rewrite (prepareAll_stateless _ (injectJob AgentImage c)).
Qed.

(** X3: with no target, [Visit] and [InjectDisruptorAgent] return nil at
    once: no goroutine is spawned, the helper is not called and the
    cluster is as it was. *)
Theorem no_target_returns_nil (c : agentController Ctx Cl)
    (visitor : string -> list string) (cl : Cl) :
  targets c = [] ->
  (exists s, Visit c visitor [] cl = Some (s, None)) /\
  (forall sched s r, Visit c visitor sched cl = Some (s, r) ->
     sched = [] /\ r = None /\ cluster s = cl /\ trace s = []) /\
  (exists s, InjectDisruptorAgent AgentImage c [] cl = Some (s, None)) /\
  (forall sched s r, InjectDisruptorAgent AgentImage c sched cl = Some (s, r) ->
     sched = [] /\ r = None /\ cluster s = cl /\ trace s = []).
Proof.
  intros Hnone. split_and!.
  - unfold Visit, VisitWith, fanout. rewrite Hnone. simpl. eauto.
  - intros sched s r Hvisit.
    pose proof (Visit_inv _ _ _ _ _ _ Hvisit) as (_ & _ & ->).
    apply Visit_visitRun in Hvisit. unfold visitRun, visitRunWith in Hvisit.
    rewrite Hnone in Hvisit.
    by apply run_no_target in Hvisit as [-> ->].
  - unfold InjectDisruptorAgent, fanout.
    rewrite Hnone. simpl. eauto.
  - intros sched s r Hinject.
    pose proof (InjectDisruptorAgent_inv _ _ _ _ _ _ Hinject) as (_ & _ & ->).
    apply InjectDisruptorAgent_injectRun in Hinject.
    unfold injectRun in Hinject. rewrite Hnone in Hinject.
    by apply run_no_target in Hinject as [-> ->].
Qed.

(** X4: the final [select] reads the oldest value of the channel: the
    error returned is the one of the goroutine that sent first in the run,
    whatever its place in the target list. *)
Theorem first_error_sent_is_returned (c : agentController Ctx Cl)
    (visitor : string -> list string) (sched : list Tid) (cl : Cl) :
  (forall s r, Visit c visitor sched cl = Some (s, r) ->
     r = snd <$> head (sends (trace s))) /\
  (forall s r, InjectDisruptorAgent AgentImage c sched cl = Some (s, r) ->
     r = snd <$> head (sends (trace s))).
Proof.
  split; intros s r.
  - intros (Hinv & _ & ->)%Visit_inv. eapply selected_first_sent, Hinv.
  - intros (Hinv & _ & ->)%InjectDisruptorAgent_inv.
    eapply selected_first_sent, Hinv.
Qed.

(** X5: the timeout a helper sees.  Every attach of a controller built by
    [NewAgentController] carries the resolved timeout: never a negative
    one, 30 seconds for 0, and 0 only for a negative argument. *)
Theorem attach_timeout_resolved (ctx0 : Ctx) (helper0 : PodHelper Ctx Cl)
    (namespace0 : string) (targets0 : list string) (t : Duration)
    (sched : list Tid) (cl : Cl) s k j res :
  injectRun AgentImage (NewAgentController ctx0 helper0 namespace0 targets0 t) sched cl = Some s ->
  (k, j, res) ∈ calls (trace s) ->
  (0 <= Timeout (attachOptions j))%Z /\
  (t = 0 -> Timeout (attachOptions j) = 30 * Second)%Z /\
  (t <> 0 -> Timeout (attachOptions j) = Z.max 0 t)%Z /\
  (Timeout (attachOptions j) = 0 <-> t < 0)%Z.
Proof.
  intros Hrun Hin. apply injectRun_invariant in Hrun.
  destruct (call_target _ _ _ _ (fun _ _ => eq_refl) _ _ _ _ _ _ Hrun Hin)
    as (pod & _ & ->).
  simpl. unfold Second.
  destruct (Z.eqb_spec t 0) as [->|Hne]; simpl; [lia|].
  destruct (Z.ltb_spec t 0); lia.
Qed.

(** X6: [ExecCommand cmd] has the helper execute cmd once in the agent
    container of each target, with an empty stdin, and nothing else: the
    executions of the run are calls of the helper's Exec with these
    arguments, made one after the other on the cluster, as many as there
    are targets. *)
Theorem ExecCommand_same_command (c : agentController Ctx Cl)
    (cmd : list string) (sched : list Tid) (cl : Cl) s r :
  ExecCommand c cmd sched cl = Some (s, r) ->
  (forall k pod, targets c !! k = Some pod ->
     exists res,
       (k, {| Pod := pod; Container := "xk6-agent"; Cmd := cmd; StdinBytes := [] |},
        res) ∈ calls (trace s)) /\
  (forall k j res, (k, j, res) ∈ calls (trace s) ->
     targets c !! k = Some (Pod j) /\ Container j = "xk6-agent" /\
     Cmd j = cmd /\ StdinBytes j = []) /\
  NoDup (calls (trace s)).*1.*1 /\
  length (calls (trace s)) = length (targets c) /\
  made (fun cl1 j => Exec (helper c) cl1 (Pod j) "xk6-agent" cmd [])
       cl (calls (trace s)) (cluster s).
Proof.
  intros Hexec. pose proof (VisitWith_made _ _ _ _ _ _ _ Hexec) as Hmade.
  destruct (Visit_calls _ _ _ _ _ _ Hexec) as (Hall & Honly & Honce & Hlen).
  split_and!; [done| |done..|].
  - intros k j res Hin. by destruct (Honly _ _ _ Hin) as (pod & Hpod & ->).
  - revert Hmade Honly. generalize (calls (trace s)) cl. clear.
    intros cs. induction cs as [|[[k j] res] cs IH]; intros cl Hmade Honly; [done|].
    destruct Hmade as (cl1 & Hcall & Hmade).
    destruct (Honly k j res) as (pod & _ & ->); [left|].
    exists cl1. split; [done|]. apply IH; [done|].
    intros k' j' res' Hin. apply (Honly k' j' res'). by right.
Qed.

(** X7: [Visit] touches the cluster through [Exec] only, and only with the
    executions it makes for its targets: what these executions keep true of
    the cluster is true all along a run, whatever the helper's attach
    does. *)
Theorem Visit_keeps (c : agentController Ctx Cl) (visitor : string -> list string)
    (P : Cl -> Prop) (sched : list Tid) (cl : Cl) s :
  (forall cl' pod, pod ∈ targets c -> P cl' ->
     P (Exec (helper c) cl' pod "xk6-agent" (visitor pod) []).1) ->
  P cl ->
  visitRun c visitor sched cl = Some s ->
  P (cluster s).
Proof.
  intros Hexec HP Hrun.
  eapply (run_post_targets (visitLoop visitor) (visitCall c) visitFailure
            (length (targets c)) (fun pod => visitJob pod (visitor pod))
            (fun _ _ => eq_refl) tt (targets c) P (fun _ _ _ => True));
    [..|exact Hrun]; try done.
  by apply invariant_start.
Qed.

(** X8: [InjectDisruptorAgent] touches the cluster through
    [AttachEphemeralContainer] only, called for its targets with the agent
    container, the controller's context and timeout, and IgnoreIfExists. *)
Theorem InjectDisruptorAgent_keeps (c : agentController Ctx Cl)
    (P : Cl -> Prop) (sched : list Tid) (cl : Cl) s :
  (forall cl' pod, pod ∈ targets c -> P cl' ->
     P (AttachEphemeralContainer (helper c) cl' (ctx c) pod
          (agentContainer AgentImage)
          {| Timeout := timeout c; IgnoreIfExists := true |}).1) ->
  P cl ->
  injectRun AgentImage c sched cl = Some s ->
  P (cluster s).
Proof.
  intros Hattach HP Hrun.
  eapply (run_post_targets (injectLoop c) (injectCall c) injectFailure
            (length (targets c)) (injectJob AgentImage c)
            (fun _ _ => eq_refl) tt (targets c) P (fun _ _ _ => True));
    [..|exact Hrun]; try done.
  by apply invariant_start.
Qed.

(** X9: when what an execution returns does not depend on the state of
    the cluster, whether [Visit] returns an error does not depend on the
    schedule: it returns nil exactly when the execution of every target
    succeeds. *)
Theorem Visit_nil_whatever_the_schedule (c : agentController Ctx Cl)
    (visitor : string -> list string) (sched : list Tid) (cl : Cl) s r :
  (forall cl1 cl2 pod, pod ∈ targets c ->
     execErr (Exec (helper c) cl1 pod "xk6-agent" (visitor pod) []).2 =
     execErr (Exec (helper c) cl2 pod "xk6-agent" (visitor pod) []).2) ->
  Visit c visitor sched cl = Some (s, r) ->
  (r = None <->
   forall pod, pod ∈ targets c ->
     execErr (Exec (helper c) cl pod "xk6-agent" (visitor pod) []).2 = None).
Proof.
  intros Hindep Hvisit.
  pose proof (Visit_inv _ _ _ _ _ _ Hvisit) as (Hinv & Hj & ->).
  apply Visit_visitRun in Hvisit.
  assert (forall k j res,
            tasks s !! k ≫= outcome_of = Some (j, res) ->
            execErr res = execErr (visitCall c cl j).2) as Hres.
  { eapply (run_post_targets (visitLoop visitor) (visitCall c) visitFailure
              (length (targets c)) (fun pod => visitJob pod (visitor pod))
              (fun _ _ => eq_refl) tt (targets c) (fun _ => True)
              (fun _ j res => execErr res = execErr (visitCall c cl j).2));
      [..|exact Hvisit]; try done.
    - intros cl1 pod Hpod _. apply (Hindep cl1 cl pod Hpod).
    - by apply invariant_start. }
  rewrite (selected_None _ _ _ _ _ _ Hinv Hj). split.
  - intros Hall pod (k & Hpod)%list_elem_of_lookup_1.
    destruct (joined_task _ _ _ (fun pod => visitJob pod (visitor pod))
                (fun _ _ => eq_refl) _ _ _ _ _ Hinv Hj Hpod) as (res & Hk).
    assert ((k, visitJob pod (visitor pod), res) ∈ calls (trace s)) as Hin.
    { apply (called_task _ _ _ _ _ _ k _ res Hinv). auto. }
    specialize (Hres k (visitJob pod (visitor pod)) res). rewrite Hk in Hres.
    transitivity (execErr res); [symmetry; exact (Hres eq_refl)|].
    apply visitFailure_None, (Hall _ _ _ Hin).
  - intros Hall k j res Hin. apply visitFailure_None.
    rewrite (Hres k j res) by by apply (inv_calls _ _ _ _ _ _ Hinv).
    destruct (call_target _ _ _ (fun pod => visitJob pod (visitor pod))
                (fun _ _ => eq_refl) _ _ _ _ _ _ Hinv Hin) as (pod & Hpod & ->).
    apply Hall. eapply list_elem_of_lookup_2, Hpod.
Qed.
End ControllerMore.

(** ** Scenarios for the above *)

(** X1: pod1's execution has failed and its goroutine is about to send,
    while pod2 has not been reached by the loop. *)
Lemma errors_channel_has_room_witness :
  exists s j r e,
    visitRun (testController (fails "error output") ["pod1"; "pod2"] 0%Z)
             (fun _ => ["command"]) [Main; Go 0]
             (emptyCluster ["pod1"; "pod2"]) = Some s /\
    tasks s !! 0 = Some (Sending j r e) /\
    length (chan s) < 2.
Proof.
  eexists _, _, _, _. run_it.
  match goal with
  | |- ?sending /\ _ => assert sending as Hk by (vm_compute; reflexivity)
  end.
  split; [exact Hk|].
  exact (proj1 (proj1 (errors_channel_has_room "xk6-disruptor-agent" _ _ _ _)
                  _ _ _ _ _ Hrun Hk)).
Defined.

(** X2: the loop has spawned both goroutines and none has moved. *)
Lemma run_reaches_join_witness :
  exists s1,
    visitRun (testController (fails "error output") ["pod1"; "pod2"] 0%Z)
             (fun _ => ["command"]) [Main; Main]
             (emptyCluster ["pod1"; "pod2"]) = Some s1 /\
    exists sched2 s r,
      Visit (testController (fails "error output") ["pod1"; "pod2"] 0%Z)
            (fun _ => ["command"]) ([Main; Main] ++ sched2)
            (emptyCluster ["pod1"; "pod2"]) = Some (s, r).
Proof.
  eexists _. run_it.
  exact (proj2 (proj1 (run_reaches_join "xk6-disruptor-agent" _ _ _ _) _ Hrun)).
Defined.

(** X3: a controller with no target. *)
Lemma no_target_returns_nil_witness :
  targets (testController succeeds [] 0%Z) = [] /\
  exists s, Visit (testController succeeds [] 0%Z) (fun _ => ["command"]) []
                  (emptyCluster []) = Some (s, None).
Proof.
  split; [reflexivity|].
  exact (proj1 (no_target_returns_nil "xk6-disruptor-agent"
                  (testController succeeds [] 0%Z) (fun _ => ["command"])
                  (emptyCluster []) eq_refl)).
Defined.

(** X4: both pods fail, and pod2's goroutine runs before pod1's: the error
    returned is pod2's. *)
Lemma first_error_sent_is_returned_witness :
  exists s r,
    Visit (testController failsWithPodName ["pod1"; "pod2"] 0%Z)
          (fun _ => ["command"]) [Main; Main; Go 1; Go 1; Go 0; Go 0]
          (emptyCluster ["pod1"; "pod2"]) = Some (s, r) /\
    r = Some (invokeError (errorString "fake error") (bytes_of_string "pod2")) /\
    r = snd <$> head (sends (trace s)).
Proof.
  eexists _, _. run_it. split; [reflexivity|].
  exact (proj1 (first_error_sent_is_returned "xk6-disruptor-agent" _ _ _ _) _ _ Hrun).
Defined.

(** X5: the timeout -1 of Test_InjectAgent reaches the helper as 0. *)
Lemma attach_timeout_resolved_witness :
  exists s,
    injectRun "xk6-disruptor-agent"
      (NewAgentController tt (fakeHelper false succeeds) "test-ns" ["pod1"] (-1)%Z)
      [Main; Go 0] (emptyCluster ["pod1"]) = Some s /\
    (0, injectJob "xk6-disruptor-agent"
          (NewAgentController tt (fakeHelper false succeeds) "test-ns" ["pod1"] (-1)%Z)
          "pod1", None) ∈ calls (trace s) /\
    (Timeout (attachOptions
       (injectJob "xk6-disruptor-agent"
          (NewAgentController tt (fakeHelper false succeeds) "test-ns" ["pod1"] (-1)%Z)
          "pod1")) = 0 <-> -1 < 0)%Z.
Proof.
  eexists _. run_it.
  match goal with
  | |- ?called /\ _ =>
      assert called as Hin
        by (apply elem_of_calls; do 2 apply list_elem_of_further; apply list_elem_of_here)
  end.
  split; [exact Hin|].
  exact (proj2 (proj2 (proj2 (attach_timeout_resolved "xk6-disruptor-agent"
           tt (fakeHelper false succeeds) "test-ns" ["pod1"] (-1)%Z
           _ _ _ _ _ _ Hrun Hin)))).
Defined.

(** X6 on "successful execution" of Test_VisitPod, through [ExecCommand]:
    the two executions are those of the executor, whose history has the
    two commands. *)
Lemma ExecCommand_same_command_witness :
  exists s r,
    ExecCommand (testController succeeds ["pod1"; "pod2"] 0%Z) ["command"]
                (inOrder false 0 2) (emptyCluster ["pod1"; "pod2"]) = Some (s, r) /\
    length (calls (trace s)) = 2 /\
    made (fun cl1 j => Exec (fakeHelper false succeeds) cl1 (Pod j) "xk6-agent"
                         ["command"] [])
         (emptyCluster ["pod1"; "pod2"]) (calls (trace s)) (cluster s) /\
    history (cluster s) =
      [ {| Pod := "pod1"; Container := "xk6-agent"; Cmd := ["command"]; StdinBytes := [] |};
        {| Pod := "pod2"; Container := "xk6-agent"; Cmd := ["command"]; StdinBytes := [] |} ].
Proof.
  eexists _, _. run_it.
  destruct (ExecCommand_same_command
              (testController succeeds ["pod1"; "pod2"] 0%Z) _ _ _ _ _ Hrun)
    as (_ & _ & _ & Hlen & Hmade).
  split_and!; [exact Hlen|exact Hmade|reflexivity].
Defined.

(** X7: the fake executor records commands and attaches nothing. *)
Lemma Visit_keeps_witness :
  exists s,
    visitRun (testController (fails "error output") ["pod1"; "pod2"] 0%Z)
             (fun _ => ["command"]) [Main; Go 0; Main; Go 1]
             (emptyCluster ["pod1"; "pod2"]) = Some s /\
    ephemeral (cluster s) = [("pod1", []); ("pod2", [])].
Proof.
  eexists _. run_it.
  apply (Visit_keeps (testController (fails "error output") ["pod1"; "pod2"] 0%Z)
           (fun _ => ["command"])
           (fun cl => ephemeral cl = [("pod1", []); ("pod2", [])])
           _ (emptyCluster ["pod1"; "pod2"]) _ (fun cl' pod _ H => H) eq_refl Hrun).
Defined.

(** X8: attaching adds no command to the executor's history. *)
Lemma InjectDisruptorAgent_keeps_witness :
  exists s,
    injectRun "xk6-disruptor-agent" (testController succeeds ["pod1"; "pod2"] (-1)%Z)
      [Main; Go 0; Main; Go 1] (emptyCluster ["pod1"; "pod2"]) = Some s /\
    history (cluster s) = [].
Proof.
  eexists _. run_it.
  apply (InjectDisruptorAgent_keeps "xk6-disruptor-agent"
           (testController succeeds ["pod1"; "pod2"] (-1)%Z)
           (fun cl => history cl = []) _ (emptyCluster ["pod1"; "pod2"]) _
           (fun cl' pod _ H =>
              fakeAttach_history false cl' tt pod _ _ [] H)
           eq_refl Hrun).
Defined.

(** X9: the fake executor answers by pod, whatever the cluster. *)
Lemma Visit_nil_whatever_the_schedule_witness :
  exists s r,
    Visit (testController succeeds ["pod1"; "pod2"] 0%Z)
          (fun _ => ["command"]) [Main; Main; Go 1; Go 0]
          (emptyCluster ["pod1"; "pod2"]) = Some (s, r) /\
    (r = None <->
     forall pod, pod ∈ ["pod1"; "pod2"] ->
       execErr (fakeExec succeeds (emptyCluster ["pod1"; "pod2"]) pod "xk6-agent"
                  ["command"] []).2 = None).
Proof.
  eexists _, _. run_it.
  exact (Visit_nil_whatever_the_schedule
           (testController succeeds ["pod1"; "pod2"] 0%Z) (fun _ => ["command"])
           _ _ _ _ (fun _ _ _ _ => eq_refl) Hrun).
Defined.

(** * depsync *)

(** ** Strings *)

Lemma length_append (a b : string) :
  String.length (a ++ b)%string = String.length a + String.length b.
Proof. induction a as [|c a IH]; simpl; [done|]. by rewrite IH. Qed.

Lemma dropBytes_append (a b : string) :
  dropBytes (String.length a) (a ++ b)%string = b.
Proof. induction a as [|c a IH]; simpl; [by destruct b|done]. Qed.

Lemma substring_append (a b : string) :
  String.substring 0 (String.length a) (a ++ b)%string = a.
Proof.
  induction a as [|c a IH]; simpl; [by destruct b|]. by rewrite IH.
Qed.

Lemma TrimPrefix_tab (s : string) :
  TrimPrefix (String tab s) (String tab EmptyString) = s.
Proof. unfold TrimPrefix. simpl. by destruct s. Qed.

Lemma TrimSuffix_newline (s : string) :
  TrimSuffix (s ++ String newline EmptyString)%string (String newline EmptyString) = s.
Proof.
  unfold TrimSuffix, HasSuffix. rewrite length_append. simpl String.length.
  replace (String.length s + 1 - 1)%nat with (String.length s) by lia.
  rewrite dropBytes_append, substring_append, String.eqb_refl.
  by rewrite (proj2 (Nat.leb_le 1 (String.length s + 1)%nat)) by lia.
Qed.

Lemma Split_nonempty (s : string) (sep : ascii) : Split s sep <> [].
Proof.
  induction s as [|c s IH]; simpl; [done|].
  destruct (Ascii.eqb c sep); [done|]. by destruct (Split s sep).
Qed.

(** A string without the separator is one piece. *)
Lemma Split_none (s : string) (sep : ascii) :
  hasByte s sep = false -> Split s sep = [s].
Proof.
  induction s as [|c s IH]; simpl; [done|].
  destruct (Ascii.eqb c sep); [done|]. intros Hs. by rewrite (IH Hs).
Qed.

(** The first piece ends at the first separator. *)
Lemma Split_first (a b : string) (sep : ascii) :
  hasByte a sep = false ->
  Split (a ++ String sep b)%string sep = a :: Split b sep.
Proof.
  induction a as [|c a IH]; simpl.
  - by rewrite Ascii.eqb_refl.
  - destruct (Ascii.eqb c sep); [done|]. intros Ha. by rewrite (IH Ha).
Qed.

Lemma hasByte_append (a b : string) (c : ascii) :
  hasByte (a ++ b)%string c = hasByte a c || hasByte b c.
Proof.
  induction a as [|d a IH]; simpl; [done|]. by destruct (Ascii.eqb d c).
Qed.

(** ** Reading lines *)

Lemma upTo_found (delim : ascii) (line rest : string) :
  hasByte line delim = false ->
  upTo delim (line ++ String delim rest)%string
  = Some ((line ++ String delim EmptyString)%string, rest).
Proof.
  induction line as [|c line IH]; simpl.
  - by rewrite Ascii.eqb_refl.
  - destruct (Ascii.eqb c delim); [done|]. intros Hl. by rewrite (IH Hl).
Qed.

Lemma upTo_missing (delim : ascii) (s : string) :
  hasByte s delim = false -> upTo delim s = None.
Proof.
  induction s as [|c s IH]; simpl; [done|].
  destruct (Ascii.eqb c delim); [done|]. intros Hs. by rewrite (IH Hs).
Qed.

(** What [upTo] finds is the input cut in two after a delimiter. *)
Lemma upTo_Some (delim : ascii) (s line rest : string) :
  upTo delim s = Some (line, rest) ->
  exists body, line = (body ++ String delim EmptyString)%string /\
               hasByte body delim = false /\
               s = (body ++ String delim rest)%string.
Proof.
  revert line. induction s as [|c s IH]; intros line; simpl; [done|].
  destruct (Ascii.eqb_spec c delim) as [->|Hne].
  - intros [= <- <-]. by exists EmptyString.
  - destruct (upTo delim s) as [[l r]|]; [|done]. intros [= <- <-].
    destruct (IH l eq_refl) as (body & -> & Hbody & ->).
    exists (String c body). simpl.
    by rewrite (proj2 (Ascii.eqb_neq _ _) Hne).
Qed.

Lemma upTo_length (delim : ascii) (s line rest : string) :
  upTo delim s = Some (line, rest) -> String.length rest < String.length s.
Proof.
  intros (body & -> & _ & ->)%upTo_Some. rewrite length_append. simpl. lia.
Qed.

(** ** The loop of dependencies *)

(** One iteration on a complete line. *)
Lemma loop_line (n : nat) (l more : string) (f : option error) deps :
  hasByte l newline = false ->
  dependenciesLoop (S n) {| unread := (l ++ String newline more)%string; fault := f |} deps
  = if negb (HasPrefix (l ++ String newline EmptyString)%string (String tab EmptyString))
    then dependenciesLoop n {| unread := more; fault := f |} deps
    else
      let pieces :=
        Split (TrimSuffix (TrimPrefix (l ++ String newline EmptyString)%string
                             (String tab EmptyString))
                 (String newline EmptyString)) " "%char in
      match pieces !! 0, pieces !! 1 with
      | Some dep, Some version =>
          dependenciesLoop n {| unread := more; fault := f |} (<[dep := version]> deps)
      | _, _ => Some (DepsPanic 1 (length pieces))
      end.
Proof.
  intros Hl. simpl. unfold ReadString. simpl. by rewrite (upTo_found _ _ _ Hl).
Qed.

(** The last iteration. *)
Lemma loop_end (n : nat) (tail : string) (f : option error) deps :
  hasByte tail newline = false ->
  dependenciesLoop (S n) {| unread := tail; fault := f |} deps
  = Some match f with
         | None => Deps deps
         | Some err => DepsErr (wrapError ("reading go.mod: " ++ Error err)%string err)
         end.
Proof.
  intros Ht. simpl. unfold ReadString. simpl. rewrite (upTo_missing _ _ Ht).
  by destruct f.
Qed.

(** Any input is a complete line and more, or has no newline. *)
Lemma line_or_end (s : string) :
  (exists l more, s = (l ++ String newline more)%string /\
                  hasByte l newline = false /\
                  String.length more < String.length s) \/
  hasByte s newline = false.
Proof.
  destruct (upTo newline s) as [[line rest]|] eqn:Hs.
  - left. pose proof (upTo_length _ _ _ _ Hs).
    apply upTo_Some in Hs as (body & _ & Hbody & ->). by exists body, rest.
  - right. induction s as [|c s IH]; simpl in *; [done|].
    destruct (Ascii.eqb c newline); [done|].
    destruct (upTo newline s) as [[? ?]|]; [done|]. by apply IH.
Qed.

(** Fuel beyond the number of bytes changes nothing. *)
Lemma loop_fuel (n m : nat) (s : string) (f : option error) deps :
  String.length s < n -> String.length s < m ->
  dependenciesLoop n {| unread := s; fault := f |} deps
  = dependenciesLoop m {| unread := s; fault := f |} deps.
Proof.
  revert m s deps. induction n as [|n IH]; intros [|m] s deps Hn Hm; try lia.
  destruct (line_or_end s) as [(l & more & -> & Hl & Hlen)|Hs].
  - rewrite !loop_line by done.
    destruct (negb _); [apply IH; lia|].
    cbv zeta. destruct (_ !! 0); [|done]. destruct (_ !! 1); [|done].
    apply IH; lia.
  - by rewrite !loop_end.
Qed.

(** The loop returns. *)
Lemma loop_returns (n : nat) (s : string) (f : option error) deps :
  String.length s < n ->
  is_Some (dependenciesLoop n {| unread := s; fault := f |} deps).
Proof.
  revert s deps. induction n as [|n IH]; intros s deps Hn; [lia|].
  destruct (line_or_end s) as [(l & more & -> & Hl & Hlen)|Hs].
  - rewrite loop_line by done.
    destruct (negb _); [apply IH; lia|].
    cbv zeta. destruct (_ !! 0); [|done]. destruct (_ !! 1); [|done].
    apply IH; lia.
  - by rewrite loop_end.
Qed.

(** The entries the loop starts with stay under those it reads. *)
Lemma loop_over (n : nat) (s : string) (f : option error) deps :
  dependenciesLoop n {| unread := s; fault := f |} deps
  = overDeps deps <$> dependenciesLoop n {| unread := s; fault := f |} ∅.
Proof.
  revert s deps. induction n as [|n IH]; intros s deps; [done|].
  destruct (line_or_end s) as [(l & more & -> & Hl & Hlen)|Hs].
  - rewrite !loop_line by done.
    destruct (negb _); [apply IH|].
    cbv zeta. destruct (_ !! 0) as [dep|]; [|done].
    destruct (_ !! 1) as [version|]; [|done].
    rewrite (IH more (<[dep:=version]> deps)), (IH more (<[dep:=version]> ∅)).
    destruct (dependenciesLoop n _ ∅) as [[m|e|i k]|]; simpl; try done.
    do 2 f_equal. rewrite <- (assoc_L (∪)). f_equal.
    by rewrite insert_empty, <- insert_union_singleton_l.
  - rewrite !loop_end by done. destruct f; simpl; [done|].
    by rewrite (left_id_L ∅ (∪)).
Qed.

(** [dependencies] on a first line and the rest, in terms of
    [dependencies] on the rest. *)
Lemma dependencies_line (l more : string) (f : option error) :
  hasByte l newline = false ->
  dependencies {| unread := (l ++ String newline more)%string; fault := f |}
  = if negb (HasPrefix (l ++ String newline EmptyString)%string (String tab EmptyString))
    then dependencies {| unread := more; fault := f |}
    else
      let pieces :=
        Split (TrimSuffix (TrimPrefix (l ++ String newline EmptyString)%string
                             (String tab EmptyString))
                 (String newline EmptyString)) " "%char in
      match pieces !! 0, pieces !! 1 with
      | Some dep, Some version =>
          overDeps {[dep := version]} <$> dependencies {| unread := more; fault := f |}
      | _, _ => Some (DepsPanic 1 (length pieces))
      end.
Proof.
  intros Hl. unfold dependencies. simpl unread. rewrite loop_line by done.
  assert (String.length more < String.length (l ++ String newline more)%string) as Hlen.
  { rewrite length_append. simpl. lia. }
  destruct (negb _).
  - apply loop_fuel; lia.
  - cbv zeta. destruct (_ !! 0) as [dep|]; [|done].
    destruct (_ !! 1) as [version|]; [|done].
    rewrite loop_over, insert_empty. f_equal. apply loop_fuel; lia.
Qed.

Lemma append_assoc (a b c : string) :
  ((a ++ b) ++ c)%string = (a ++ (b ++ c))%string.
Proof. induction a as [|d a IH]; simpl; [done|]. by rewrite IH. Qed.

Lemma HasPrefix_tab_line (l : string) :
  HasPrefix (l ++ String newline EmptyString)%string (String tab EmptyString)
  = HasPrefix l (String tab EmptyString).
Proof.
  destruct l as [|c l]; [done|]. cbn [String.append HasPrefix].
  destruct (Ascii.eqb tab c); [|done]. by destruct l.
Qed.

Lemma HasPrefix_tab (body : string) :
  HasPrefix (String tab body) (String tab EmptyString) = true.
Proof. cbn [HasPrefix]. rewrite Ascii.eqb_refl. by destruct body. Qed.

(** With nothing but an unfinished line to read, the map is empty. *)
Lemma dependencies_end (tail : string) :
  hasByte tail newline = false ->
  dependencies {| unread := tail; fault := None |} = Some (Deps ∅).
Proof. intros Ht. unfold dependencies. by rewrite loop_end. Qed.

(** X10: a line that does not start with a tab is skipped, whatever it
    holds: the module line, the go directive, a one-line require, a
    closing bracket, a blank line. *)
Theorem dependencies_skips_other_lines (l more : string) (f : option error) :
  hasByte l newline = false ->
  HasPrefix l (String tab EmptyString) = false ->
  dependencies {| unread := (l ++ String newline more)%string; fault := f |}
  = dependencies {| unread := more; fault := f |}.
Proof.
  intros Hl Htab. rewrite dependencies_line by done.
  by rewrite HasPrefix_tab_line, Htab.
Qed.

(** The pieces of a tab line. *)
Lemma tab_line_pieces (body : string) :
  TrimSuffix (TrimPrefix (String tab body ++ String newline EmptyString)%string
                (String tab EmptyString))
    (String newline EmptyString) = body.
Proof.
  change (String tab body ++ String newline EmptyString)%string
    with (String tab (body ++ String newline EmptyString)%string).
  by rewrite TrimPrefix_tab, TrimSuffix_newline.
Qed.

(** A tab line is cut at its blanks; its first two pieces make the entry. *)
Lemma dependencies_tab_line (body more : string) (f : option error) :
  hasByte body newline = false ->
  dependencies {| unread := (String tab body ++ String newline more)%string; fault := f |}
  = match Split body " "%char !! 0, Split body " "%char !! 1 with
    | Some dep, Some version =>
        overDeps {[dep := version]} <$> dependencies {| unread := more; fault := f |}
    | _, _ => Some (DepsPanic 1 (length (Split body " "%char)))
    end.
Proof.
  intros Hbody. rewrite dependencies_line by (cbn [hasByte]; by rewrite Hbody).
  rewrite HasPrefix_tab_line, HasPrefix_tab. cbv zeta. cbn [negb].
  by rewrite tab_line_pieces.
Qed.

(** The line of a requirement, [<tab>dep rest]. *)
Lemma dependencies_tab_dep (dep rest more : string) (f : option error) :
  hasByte dep " "%char = false ->
  hasByte dep newline = false ->
  hasByte rest newline = false ->
  dependencies
    {| unread := (String tab dep ++ String " "%char rest ++ String newline more)%string;
       fault := f |}
  = match Split rest " "%char !! 0 with
    | Some version =>
        overDeps {[dep := version]} <$> dependencies {| unread := more; fault := f |}
    | None => Some (DepsPanic 1 1)
    end.
Proof.
  intros Hblank Hdep Hrest.
  replace (String tab dep ++ String " "%char rest ++ String newline more)%string
    with (String tab (dep ++ String " "%char rest) ++ String newline more)%string
    by (simpl; by rewrite append_assoc).
  rewrite dependencies_tab_line.
  - rewrite Split_first by done. simpl.
    pose proof (Split_nonempty rest " "%char).
    by destruct (Split rest " "%char).
  - rewrite hasByte_append. cbn [hasByte]. rewrite Hdep, Hrest. reflexivity.
Qed.

(** X11: a line [<tab>dep rest] maps [dep], the bytes up to the first
    blank, to the bytes of [rest] up to its first blank: what follows the
    version (as [// indirect]) is dropped.  The entry goes under those of
    the lines after it, which override it. *)
Theorem dependencies_requirement (dep rest more : string) (f : option error) :
  hasByte dep " "%char = false ->
  hasByte dep newline = false ->
  hasByte rest newline = false ->
  dependencies
    {| unread := (String tab dep ++ String " "%char rest ++ String newline more)%string;
       fault := f |}
  = overDeps {[dep := firstField rest]}
      <$> dependencies {| unread := more; fault := f |}.
Proof.
  intros Hblank Hdep Hrest. rewrite dependencies_tab_dep by done.
  unfold firstField. pose proof (Split_nonempty rest " "%char).
  by destruct (Split rest " "%char).
Qed.

(** X12: a tab line without a blank, as the version lines of a retract
    block are, stops [dependencies] with the panic of [pieces[1]]: index 1
    out of range for a slice of length 1. *)
Theorem dependencies_panics_without_blank (w more : string) (f : option error) :
  hasByte w " "%char = false ->
  hasByte w newline = false ->
  dependencies {| unread := (String tab w ++ String newline more)%string; fault := f |}
  = Some (DepsPanic 1 1).
Proof.
  intros Hblank Hw. rewrite dependencies_tab_line by done.
  by rewrite Split_none.
Qed.

(** X13: [dependencies] returns at io.EOF before it looks at the line: the
    bytes after the last newline are never parsed, be they a requirement
    or a line that would panic. *)
Theorem dependencies_drops_unfinished_line (text tail : string) :
  hasByte tail newline = false ->
  dependencies {| unread := (text ++ String newline tail)%string; fault := None |}
  = dependencies {| unread := (text ++ String newline EmptyString)%string;
                    fault := None |}.
Proof.
  intros Htail. remember (String.length text) as n eqn:Hn.
  revert text Hn. induction n as [n IH] using lt_wf_ind. intros text ->.
  destruct (line_or_end text) as [(l & more & -> & Hl & Hlen)|Htext].
  - rewrite !append_assoc. cbn [String.append].
    rewrite !(dependencies_line l) by done.
    rewrite (IH _ Hlen more eq_refl). done.
  - rewrite !(dependencies_line text) by done.
    by rewrite (dependencies_end tail), (dependencies_end EmptyString).
Qed.

(** X14: when the reader fails, with an error that is not io.EOF, after
    lines that [dependencies] has read without a panic, the entries read
    are lost: the result is the error of the reader, wrapped, with
    "reading go.mod: " before its message. *)
Theorem dependencies_reader_error (text : string) (err : error) :
  dependencies {| unread := text; fault := Some err |}
  = match dependencies {| unread := text; fault := None |} with
    | Some (Deps _) =>
        Some (DepsErr (wrapError ("reading go.mod: " ++ Error err)%string err))
    | other => other
    end.
Proof.
  remember (String.length text) as n eqn:Hn.
  revert text Hn. induction n as [n IH] using lt_wf_ind. intros text ->.
  destruct (line_or_end text) as [(l & more & -> & Hl & Hlen)|Htext].
  - rewrite !(dependencies_line l) by done.
    pose proof (IH _ Hlen more eq_refl) as IHmore.
    destruct (negb _); [done|].
    cbv zeta. destruct (_ !! 0) as [dep|]; [|done].
    destruct (_ !! 1) as [version|]; [|done].
    rewrite IHmore.
    by destruct (dependencies {| unread := more; fault := None |}) as [[m|e|i k]|].
  - unfold dependencies. by rewrite !loop_end.
Qed.

(** X15: read back, the lines [<tab>module version] of a list of
    requirements give the map of the list, the last line of a module
    being the one that counts; for the entries of a map they give the map. *)
Theorem dependencies_requireLines (entries : list (string * string)) :
  Forall (fun e => hasByte e.1 " "%char = false /\ hasByte e.1 newline = false /\
                   hasByte e.2 " "%char = false /\ hasByte e.2 newline = false)
         entries ->
  dependencies {| unread := requireLines entries; fault := None |}
  = Some (Deps (list_to_map (reverse entries))) /\
  forall m : gmap string string,
    entries = map_to_list m ->
    dependencies {| unread := requireLines entries; fault := None |} = Some (Deps m).
Proof.
  intros Hwf.
  assert (dependencies {| unread := requireLines entries; fault := None |}
          = Some (Deps (list_to_map (reverse entries)))) as Hlist.
  { induction Hwf as [|[dep version] entries (Hd1 & Hd2 & Hv1 & Hv2) Hwf IH].
    - by apply dependencies_end.
    - cbn [requireLines]. simpl in Hd1, Hd2, Hv1, Hv2.
      rewrite (dependencies_tab_dep dep version) by done.
      rewrite (Split_none _ _ Hv1), IH. simpl. do 2 f_equal.
      rewrite reverse_cons, list_to_map_app. simpl.
      by rewrite insert_empty. }
  split; [done|]. intros m ->. rewrite Hlist. do 2 f_equal.
  rewrite <- (list_to_map_to_list m) at 2.
  apply list_to_map_proper; [|apply reverse_Permutation].
  rewrite fmap_reverse, reverse_Permutation. apply NoDup_fst_map_to_list.
Qed.

(** ** The order of sort.Strings *)

Lemma ascii_compare_refl (a : ascii) : Ascii.compare a a = Eq.
Proof. unfold Ascii.compare. apply N.compare_refl. Qed.

Lemma ascii_compare_lt_trans (a b c : ascii) :
  Ascii.compare a b = Lt -> Ascii.compare b c = Lt -> Ascii.compare a c = Lt.
Proof. unfold Ascii.compare. rewrite !N.compare_lt_iff. lia. Qed.

Lemma string_compare_lt_trans (a b c : string) :
  String.compare a b = Lt -> String.compare b c = Lt -> String.compare a c = Lt.
Proof.
  revert b c. induction a as [|x a IH]; intros [|y b] [|z c]; simpl; try done.
  destruct (Ascii.compare x y) eqn:Hxy, (Ascii.compare y z) eqn:Hyz; try done.
  - apply Ascii.compare_eq_iff in Hxy as ->. apply Ascii.compare_eq_iff in Hyz as ->.
    rewrite ascii_compare_refl. apply IH.
  - apply Ascii.compare_eq_iff in Hxy as ->. by rewrite Hyz.
  - apply Ascii.compare_eq_iff in Hyz as ->. by rewrite Hxy.
  - by rewrite (ascii_compare_lt_trans _ _ _ Hxy Hyz).
Qed.

#[global] Instance stringLe_trans : Transitive stringLe.
Proof.
  intros a b c. unfold stringLe, String.leb. intros Hab Hbc.
  destruct (String.compare a b) eqn:Eab; [|clear Hab|done].
  - by apply String.compare_eq_iff in Eab as ->.
  - destruct (String.compare b c) eqn:Ebc; [|clear Hbc|done].
    + apply String.compare_eq_iff in Ebc as <-. by rewrite Eab.
    + by rewrite (string_compare_lt_trans _ _ _ Eab Ebc).
Qed.

#[global] Instance stringLe_antisymm : AntiSymm (=) stringLe.
Proof. intros a b. apply String.leb_antisym. Qed.

#[global] Instance stringLe_total : Total stringLe.
Proof. intros a b. apply String.leb_total. Qed.

(** [sort.Strings] gives the one sorted arrangement of its argument. *)
Lemma sortStrings_sorted (l : list string) :
  Sorted stringLe (sortStrings l) /\ sortStrings l ≡ₚ l.
Proof. split; [apply Sorted_merge_sort, _|apply merge_sort_Permutation]. Qed.

Lemma sortStrings_Permutation (l1 l2 : list string) :
  l1 ≡ₚ l2 -> sortStrings l1 = sortStrings l2.
Proof.
  intros Hperm. apply (Sorted_unique stringLe).
  - apply sortStrings_sorted.
  - apply sortStrings_sorted.
  - by rewrite !(proj2 (sortStrings_sorted _)).
Qed.

(** ** The loop of main *)

Lemma mismatchedIn_omap (order : list (string * string)) (coreDeps : gmap string string) :
  mismatchedIn order coreDeps
  = omap (fun e : string * string =>
            match coreDeps !! e.1 with
            | None => None
            | Some coreVersion =>
                if String.eqb e.2 coreVersion then None
                else Some (e.1 ++ "@" ++ coreVersion)%string
            end) order.
Proof.
  induction order as [|[dep version] order IH]; simpl; [done|].
  destruct (coreDeps !! dep) as [coreVersion|]; [|done].
  destruct (String.eqb version coreVersion); [done|]. by rewrite IH.
Qed.

Lemma elem_of_mismatchedIn (order : list (string * string))
    (coreDeps : gmap string string) (x : string) :
  x ∈ mismatchedIn order coreDeps <->
  exists dep version coreVersion,
    (dep, version) ∈ order /\ coreDeps !! dep = Some coreVersion /\
    version <> coreVersion /\ x = (dep ++ "@" ++ coreVersion)%string.
Proof.
  rewrite mismatchedIn_omap, list_elem_of_omap. split.
  - intros ([dep version] & Hin & Hx). simpl in Hx.
    destruct (coreDeps !! dep) as [coreVersion|] eqn:Hcore; [|done].
    destruct (String.eqb_spec version coreVersion); [done|]. simplify_eq.
    by exists dep, version, coreVersion.
  - intros (dep & version & coreVersion & Hin & Hcore & Hne & ->).
    exists (dep, version). split; [done|]. simpl. rewrite Hcore.
    by destruct (String.eqb_spec version coreVersion).
Qed.

(** X16: what [main] prints does not depend on the order in which [range]
    gives the entries of [ownDeps]: the list is sorted before it is
    printed. *)
Theorem mainOutput_any_order (ownDeps coreDeps : gmap string string)
    (order1 order2 : list (string * string)) :
  order1 ≡ₚ map_to_list ownDeps ->
  order2 ≡ₚ map_to_list ownDeps ->
  mainOutput order1 coreDeps = mainOutput order2 coreDeps.
Proof.
  intros H1 H2.
  assert (mismatchedIn order1 coreDeps ≡ₚ mismatchedIn order2 coreDeps) as Hperm.
  { rewrite !mismatchedIn_omap. by rewrite H1, H2. }
  unfold mainOutput. rewrite (Permutation_length Hperm).
  by rewrite (sortStrings_Permutation _ _ Hperm).
Qed.

(** The mismatches of a map, whatever the order: the list of the loop is
    a rearrangement of the entries [dep@coreVersion] of the map that has,
    for each dependency that k6 has at another version, the version of
    k6. *)
Lemma mismatchedIn_behind (ownDeps coreDeps : gmap string string)
    (order : list (string * string)) :
  order ≡ₚ map_to_list ownDeps ->
  exists behind : gmap string string,
    (forall dep coreVersion,
       behind !! dep = Some coreVersion <->
       exists version,
         ownDeps !! dep = Some version /\ coreDeps !! dep = Some coreVersion /\
         version <> coreVersion) /\
    mismatchedIn order coreDeps
    ≡ₚ (fun e : string * string => (e.1 ++ "@" ++ e.2)%string) <$> map_to_list behind.
Proof.
  intros Horder.
  pose (f := fun (dep version : string) =>
               match coreDeps !! dep with
               | None => None
               | Some coreVersion =>
                   if String.eqb version coreVersion then None else Some coreVersion
               end).
  assert (forall l : list (string * string),
            NoDup l.*1 ->
            NoDup (omap (fun ix => pair ix.1 <$> uncurry f ix) l).*1) as Hnodup.
  { intros l. induction l as [|[dep version] l IH]; simpl; [done|].
    intros [Hnotin Hl]%NoDup_cons. specialize (IH Hl).
    destruct (f dep version) as [coreVersion|]; simpl; [|done].
    apply NoDup_cons. split; [|done]. intros Hin. apply Hnotin.
    apply list_elem_of_fmap in Hin as ([dep' cv] & Hdep & Hin).
    apply list_elem_of_omap in Hin as ([dep'' version'] & Hin & Heq).
    simpl in Heq, Hdep. destruct (f dep'' version'); [|done].
    injection Heq as <- _. subst dep.
    apply list_elem_of_fmap. by exists (dep'', version'). }
  specialize (Hnodup _ (NoDup_fst_map_to_list ownDeps)).
  exists (list_to_map (omap (fun ix => pair ix.1 <$> uncurry f ix) (map_to_list ownDeps))).
  split.
  - intros dep coreVersion. rewrite <- (elem_of_list_to_map _ _ _ Hnodup).
    rewrite list_elem_of_omap. split.
    + intros ([dep' version] & Hin%elem_of_map_to_list & Heq). simpl in Heq.
      unfold f in Heq. destruct (coreDeps !! dep') as [coreVersion'|] eqn:Hcore; [|done].
      destruct (String.eqb_spec version coreVersion'); [done|].
      simpl in Heq. injection Heq as -> ->. by exists version.
    + intros (version & Hown & Hcore & Hne). exists (dep, version).
      split; [by apply elem_of_map_to_list|]. simpl. unfold f. rewrite Hcore.
      by destruct (String.eqb_spec version coreVersion).
  - rewrite mismatchedIn_omap, Horder, (map_to_list_to_map _ Hnodup).
    generalize (map_to_list ownDeps). intros l.
    subst f. induction l as [|[dep version] l IH]; simpl; [done|].
    destruct (coreDeps !! dep) as [coreVersion|]; simpl; [|exact IH].
    destruct (String.eqb version coreVersion); simpl; [exact IH|]. by rewrite IH.
Qed.

(** X17: [main] prints nothing exactly when every dependency that k6 has
    too is at the version of k6; otherwise it prints one line, [go get]
    followed by the entries [dep@coreVersion], one for each dependency
    that k6 has at another version and no other, in the order of the
    strings and with a blank between two entries. *)
Theorem mainOutput_mismatches (ownDeps coreDeps : gmap string string)
    (order : list (string * string)) :
  order ≡ₚ map_to_list ownDeps ->
  (mainOutput order coreDeps = None <->
   forall dep version coreVersion,
     ownDeps !! dep = Some version -> coreDeps !! dep = Some coreVersion ->
     version = coreVersion) /\
  (forall line, mainOutput order coreDeps = Some line ->
     exists (behind : gmap string string) (l : list string),
       (forall dep coreVersion,
          behind !! dep = Some coreVersion <->
          exists version,
            ownDeps !! dep = Some version /\ coreDeps !! dep = Some coreVersion /\
            version <> coreVersion) /\
       l ≡ₚ (fun e : string * string => (e.1 ++ "@" ++ e.2)%string)
              <$> map_to_list behind /\
       Sorted stringLe l /\
       line = ("go get " ++ Join l " " ++ String newline EmptyString)%string).
Proof.
  intros Horder.
  assert (forall x, x ∈ mismatchedIn order coreDeps <->
            exists dep version coreVersion,
              ownDeps !! dep = Some version /\ coreDeps !! dep = Some coreVersion /\
              version <> coreVersion /\ x = (dep ++ "@" ++ coreVersion)%string) as Hin.
  { intros x. rewrite elem_of_mismatchedIn.
    by setoid_rewrite Horder; setoid_rewrite elem_of_map_to_list. }
  unfold mainOutput. split.
  - destruct (mismatchedIn order coreDeps) as [|x l] eqn:Hl; simpl.
    + split; [|done]. intros _ dep version coreVersion Hown Hcore.
      destruct (decide (version = coreVersion)) as [|Hne]; [done|].
      exfalso. eapply elem_of_nil, Hin. eauto 10.
    + split; [done|]. intros Hsync. exfalso.
      destruct (proj1 (Hin x)) as (dep & version & coreVersion & Hown & Hcore & Hne & _).
      { left. }
      eauto.
  - intros line. destruct (Nat.eqb _ 0); [done|]. intros [= <-].
    destruct (mismatchedIn_behind ownDeps coreDeps order Horder) as (behind & Hbehind & Hperm).
    exists behind, (sortStrings (mismatchedIn order coreDeps)).
    split_and!; [done| |apply sortStrings_sorted|done].
    by rewrite (proj2 (sortStrings_sorted _)).
Qed.

(** ** Scenarios for depsync *)

(** X10 on the module line of a go.mod. *)
Lemma dependencies_skips_other_lines_witness :
  hasByte "module github.com/grafana/xk6-disruptor" newline = false /\
  HasPrefix "module github.com/grafana/xk6-disruptor" (String tab EmptyString) = false /\
  dependencies
    {| unread := ("module github.com/grafana/xk6-disruptor"
                  ++ String newline (String tab "go.k6.io/k6 v0.45.0"
                  ++ String newline EmptyString))%string;
       fault := None |}
  = dependencies
      {| unread := (String tab "go.k6.io/k6 v0.45.0" ++ String newline EmptyString)%string;
         fault := None |}.
Proof.
  split; [reflexivity|]. split; [reflexivity|].
  apply (dependencies_skips_other_lines "module github.com/grafana/xk6-disruptor");
    reflexivity.
Defined.

(** X11 on an indirect requirement. *)
Lemma dependencies_requirement_witness :
  hasByte "github.com/spf13/afero" " "%char = false /\
  hasByte "github.com/spf13/afero" newline = false /\
  hasByte "v1.9.5 // indirect" newline = false /\
  dependencies
    {| unread := (String tab "github.com/spf13/afero"
                  ++ String " "%char "v1.9.5 // indirect"
                  ++ String newline ")")%string;
       fault := None |}
  = Some (Deps {["github.com/spf13/afero" := "v1.9.5"]}).
Proof.
  split; [reflexivity|]. split; [reflexivity|]. split; [reflexivity|].
  rewrite (dependencies_requirement "github.com/spf13/afero" "v1.9.5 // indirect" ")")
    by reflexivity.
  reflexivity.
Defined.

(** X12 on a line of a retract block. *)
Lemma dependencies_panics_without_blank_witness :
  hasByte "v0.3.1" " "%char = false /\
  hasByte "v0.3.1" newline = false /\
  dependencies
    {| unread := (String tab "v0.3.1" ++ String newline ")")%string; fault := None |}
  = Some (DepsPanic 1 1).
Proof.
  split; [reflexivity|]. split; [reflexivity|].
  apply (dependencies_panics_without_blank "v0.3.1" ")"); reflexivity.
Defined.

(** X13: a go.mod whose last requirement has no newline after it. *)
Lemma dependencies_drops_unfinished_line_witness :
  hasByte (String tab "b v2") newline = false /\
  dependencies
    {| unread := (String tab "a v1" ++ String newline (String tab "b v2"))%string;
       fault := None |}
  = dependencies
      {| unread := (String tab "a v1" ++ String newline EmptyString)%string;
         fault := None |}.
Proof.
  split; [reflexivity|].
  apply (dependencies_drops_unfinished_line (String tab "a v1") (String tab "b v2")).
  reflexivity.
Defined.

(** X15: a module required twice. *)
Lemma dependencies_requireLines_witness :
  Forall (fun e : string * string =>
            hasByte e.1 " "%char = false /\ hasByte e.1 newline = false /\
            hasByte e.2 " "%char = false /\ hasByte e.2 newline = false)
         [("a", "v1"); ("b", "v2"); ("a", "v3")] /\
  dependencies
    {| unread := requireLines [("a", "v1"); ("b", "v2"); ("a", "v3")]; fault := None |}
  = Some (Deps (list_to_map [("a", "v3"); ("b", "v2"); ("a", "v1")])).
Proof.
  assert (Forall (fun e : string * string =>
            hasByte e.1 " "%char = false /\ hasByte e.1 newline = false /\
            hasByte e.2 " "%char = false /\ hasByte e.2 newline = false)
         [("a", "v1"); ("b", "v2"); ("a", "v3")]) as Hwf
    by (repeat constructor).
  split; [exact Hwf|].
  exact (proj1 (dependencies_requireLines _ Hwf)).
Defined.

(** X16: two dependencies out of three behind k6, in the two orders. *)
Lemma mainOutput_any_order_witness :
  [("a", "1"); ("b", "2")] ≡ₚ map_to_list (list_to_map [("a", "1"); ("b", "2")] : gmap string string) /\
  [("b", "2"); ("a", "1")] ≡ₚ map_to_list (list_to_map [("a", "1"); ("b", "2")] : gmap string string) /\
  mainOutput [("a", "1"); ("b", "2")] (list_to_map [("a", "5"); ("b", "6")])
  = mainOutput [("b", "2"); ("a", "1")] (list_to_map [("a", "5"); ("b", "6")]).
Proof.
  assert ([("a", "1"); ("b", "2")]
          ≡ₚ map_to_list (list_to_map [("a", "1"); ("b", "2")] : gmap string string)) as H1.
  { symmetry. apply map_to_list_to_map. simpl.
    apply NoDup_cons. split; [|apply NoDup_singleton].
    by intros [=]%list_elem_of_singleton. }
  assert ([("b", "2"); ("a", "1")]
          ≡ₚ map_to_list (list_to_map [("a", "1"); ("b", "2")] : gmap string string)) as H2.
  { rewrite <- H1. apply perm_swap. }
  split; [exact H1|]. split; [exact H2|].
  exact (mainOutput_any_order _ _ _ _ H1 H2).
Defined.

(** X17: of three dependencies, read in another order than the one of
    the strings, b and c are behind k6 and a is not; d is not a dependency
    of the module. *)
Lemma mainOutput_mismatches_witness :
  [("c", "3"); ("a", "1"); ("b", "2")]
  ≡ₚ map_to_list (list_to_map [("a", "1"); ("b", "2"); ("c", "3")] : gmap string string) /\
  mainOutput [("c", "3"); ("a", "1"); ("b", "2")]
    (list_to_map [("a", "1"); ("b", "6"); ("c", "7"); ("d", "9")])
  = Some ("go get b@6 c@7" ++ String newline EmptyString)%string /\
  exists (behind : gmap string string) (l : list string),
    behind !! "a" = None /\ behind !! "b" = Some "6" /\
    behind !! "c" = Some "7" /\ behind !! "d" = None /\
    l ≡ₚ (fun e : string * string => (e.1 ++ "@" ++ e.2)%string) <$> map_to_list behind /\
    Sorted stringLe l /\
    ("go get b@6 c@7" ++ String newline EmptyString)%string
    = ("go get " ++ Join l " " ++ String newline EmptyString)%string.
Proof.
  assert ([("c", "3"); ("a", "1"); ("b", "2")]
          ≡ₚ map_to_list (list_to_map [("a", "1"); ("b", "2"); ("c", "3")] : gmap string string))
    as H1.
  { transitivity [("a", "1"); ("b", "2"); ("c", "3")].
    - apply (Permutation_cons_append [("a", "1"); ("b", "2")] ("c", "3")).
    - symmetry. apply map_to_list_to_map. simpl.
      apply (bool_decide_unpack _). vm_compute. reflexivity. }
  assert (mainOutput [("c", "3"); ("a", "1"); ("b", "2")]
            (list_to_map [("a", "1"); ("b", "6"); ("c", "7"); ("d", "9")])
          = Some ("go get b@6 c@7" ++ String newline EmptyString)%string) as Hout
    by (vm_compute; reflexivity).
  split; [exact H1|]. split; [exact Hout|].
  destruct (proj2 (mainOutput_mismatches _ _ _ H1) _ Hout)
    as (behind & l & Hbehind & Hperm & Hsorted & Hline).
  exists behind, l. split_and!; [| | | |exact Hperm|exact Hsorted|exact Hline].
  - destruct (behind !! "a") as [coreVersion|] eqn:Ha; [|done].
    apply Hbehind in Ha as (version & Hown & Hcore & Hne).
    vm_compute in Hown, Hcore. congruence.
  - apply Hbehind. exists "2". split_and!; [by vm_compute..|done].
  - apply Hbehind. exists "3". split_and!; [by vm_compute..|done].
  - destruct (behind !! "d") as [coreVersion|] eqn:Hd; [|done].
    apply Hbehind in Hd as (version & Hown & _). vm_compute in Hown. congruence.
Defined.

(** * The cluster of the end-to-end tests *)

Section E2eFacts.
Context {W Config Cluster Client : Type}.
Variable ext : @E2e.Externals W Config Cluster Client.

Lemma applyOptions_app (cfg : @E2e.E2eClusterConfig W Cluster) (ops1 ops2 : list (@E2e.E2eClusterOption W Cluster)) :
  E2e.applyOptions cfg (ops1 ++ ops2)
  = match E2e.applyOptions cfg ops1 with
    | inl cfg1 => E2e.applyOptions cfg1 ops2
    | inr err => inr err
    end.
Proof.
  revert cfg. induction ops1 as [|o ops1 IH]; intros cfg; simpl; [done|].
  destruct (o cfg); [apply IH|done].
Qed.

Lemma runPostInstall_app (ps1 ps2 : list (@E2e.PostInstall W Cluster)) (c : @E2e.e2eCluster Cluster) (w : W) :
  E2e.runPostInstall ext (ps1 ++ ps2) c w
  = match E2e.runPostInstall ext ps1 c w with
    | (w1, None) => E2e.runPostInstall ext ps2 c w1
    | failed => failed
    end.
Proof.
  revert w. induction ps1 as [|p ps1 IH]; intros w; simpl; [done|].
  destruct (p c w) as [w1 [err|]]; [done|apply IH].
Qed.

(** X18: an option that fails stops [BuildE2eCluster] before it calls
    anything: the options after it are not applied, the world is as it
    was, and the error is the option's, as it is. *)
Theorem BuildE2eCluster_option_fails (cfg cfg1 : @E2e.E2eClusterConfig W Cluster)
    (before after : list (@E2e.E2eClusterOption W Cluster)) (option : @E2e.E2eClusterOption W Cluster)
    (err : error) (w : W) :
  E2e.applyOptions cfg before = inl cfg1 ->
  option cfg1 = inr err ->
  E2e.BuildE2eCluster ext cfg (before ++ option :: after) w = (w, inr err).
Proof.
  intros Hbefore Hoption. unfold E2e.BuildE2eCluster.
  rewrite applyOptions_app, Hbefore. simpl. by rewrite Hoption.
Qed.

(** X19: when a post install function fails, those after it are not run,
    the cluster is deleted, and [BuildE2eCluster] returns the error of the
    function, whatever [Delete] returns; it does not sleep. *)
Theorem BuildE2eCluster_post_install_fails (cfg cfg1 : @E2e.E2eClusterConfig W Cluster)
    (ops : list (@E2e.E2eClusterOption W Cluster)) (config : Config) (k : Cluster)
    (before after : list (@E2e.PostInstall W Cluster)) (postInstall : @E2e.PostInstall W Cluster)
    (err : error) (w w0 w1 w2 w3 : W) :
  E2e.applyOptions cfg ops = inl cfg1 ->
  E2e.NewConfig ext (E2e.CfgName cfg1)
    {| E2e.OptImages := E2e.Images cfg1; E2e.OptWait := E2e.Wait cfg1;
       E2e.OptNodePorts :=
         [{| E2e.HostPort := E2e.IngressPort cfg1; E2e.NodePort := 80 |}] |} w
  = (w0, inl config) ->
  E2e.Create ext config w0 = (w1, inl k) ->
  E2e.PostInstalls cfg1 = before ++ postInstall :: after ->
  let cl := {| E2e.cluster := k;
               E2e.ingress := (E2e.IngressAddr cfg1 ++ ":"
                               ++ E2e.Itoa (E2e.IngressPort cfg1))%string;
               E2e.name := E2e.CfgName cfg1 |} in
  E2e.runPostInstall ext before cl w1 = (w2, None) ->
  postInstall cl w2 = (w3, Some err) ->
  E2e.BuildE2eCluster ext cfg ops w = ((E2e.ClusterDelete ext k w3).1, inr err).
Proof.
  intros Hops Hnew Hcreate Hposts cl Hbefore Hfails. unfold E2e.BuildE2eCluster.
  rewrite Hops, Hnew, Hcreate, Hposts, runPostInstall_app. fold cl.
  rewrite Hbefore. simpl. by rewrite Hfails.
Qed.

(** X20: the options given last decide: whatever the configuration and
    the options before them, a cluster built with [WithName],
    [WithIngressAddress] and [WithIngressPort] at the end has that name
    and the ingress [address:port], the port in decimal. *)
Theorem BuildE2eCluster_last_options (cfg : @E2e.E2eClusterConfig W Cluster)
    (ops : list (@E2e.E2eClusterOption W Cluster)) (name0 address : string) (port : Z)
    (w w' : W) (c : @E2e.e2eCluster Cluster) :
  E2e.BuildE2eCluster ext cfg
    (ops ++ [E2e.WithName name0; E2e.WithIngressAddress address;
             E2e.WithIngressPort port]) w = (w', inl c) ->
  E2e.Name c = name0 /\
  E2e.Ingress c = (address ++ ":" ++ E2e.Itoa port)%string.
Proof.
  unfold E2e.BuildE2eCluster. rewrite applyOptions_app.
  destruct (E2e.applyOptions cfg ops) as [cfg1|err]; simpl; [|done].
  destruct (E2e.NewConfig ext _ _ w) as [w0 [config|err]]; [|done].
  destruct (E2e.Create ext config w0) as [w1 [k|err]]; [|done].
  destruct (E2e.runPostInstall ext _ _ w1) as [w2 [err|]]; [done|].
  by intros [= _ <-].
Qed.

(** The loop over the manifests stops at the first one that cannot be
    fetched. *)
Lemma applyManifests_fetch_fails (client : Client) (before after : list string)
    (manifest : string) (err : error) (w w1 w2 : W) :
  E2e.applyManifests ext client before w = (w1, None) ->
  E2e.FromURL ext (E2e.contourBaseURL ++ manifest)%string w1 = (w2, inr err) ->
  E2e.applyManifests ext client (before ++ manifest :: after) w = (w2, Some err).
Proof.
  revert w. induction before as [|m before IH]; intros w; simpl.
  - intros [= ->] Hfetch. by rewrite Hfetch.
  - destruct (E2e.FromURL ext _ w) as [wa [yaml|e]]; [|done].
    destruct (E2e.Apply ext client _ wa) as [wb [e|]]; [done|]. apply IH.
Qed.

(** X21: [InstallContourIngress] stops at the first of its manifests that
    cannot be fetched: the manifest is not applied, the manifests after it
    are neither fetched nor applied, the configuration of contour is not
    applied, and the error is that of the fetch. *)
Theorem InstallContourIngress_fetch_fails (c : @E2e.e2eCluster Cluster) (client : Client)
    (before after : list string) (manifest : string) (err : error) (w w0 w1 w2 : W) :
  E2e.contourManifests = before ++ manifest :: after ->
  E2e.NewFromKubeconfig ext (E2e.Kubeconfig ext c) w = (w0, inl client) ->
  E2e.applyManifests ext client before w0 = (w1, None) ->
  E2e.FromURL ext (E2e.contourBaseURL ++ manifest)%string w1 = (w2, inr err) ->
  E2e.InstallContourIngress ext c w = (w2, Some err).
Proof.
  intros Hmanifests Hclient Hbefore Hfetch. unfold E2e.InstallContourIngress.
  rewrite Hclient, Hmanifests.
  by rewrite (applyManifests_fetch_fails _ _ _ _ _ _ _ _ Hbefore Hfetch).
Qed.
End E2eFacts.

(** ** Scenarios for the cluster of the end-to-end tests *)

(** X18: a failing option after [WithName]. *)
Lemma BuildE2eCluster_option_fails_witness :
  exists cfg1,
    E2e.applyOptions (E2e.DefaultE2eClusterConfig (logExternals (fun _ => false)))
      [E2e.WithName "other"] = inl cfg1 /\
    E2e.BuildE2eCluster (logExternals (fun _ => false))
      (E2e.DefaultE2eClusterConfig (logExternals (fun _ => false)))
      ([E2e.WithName "other"] ++ (fun _ => inr (errorString "bad option"))
                                 :: [E2e.WithIngressPort 8080]) []
    = ([], inr (errorString "bad option")).
Proof.
  eexists. run_it.
  exact (BuildE2eCluster_option_fails (logExternals (fun _ => false)) _ _ _ _
           (fun _ => inr (errorString "bad option")) _ [] Hrun eq_refl).
Defined.

(** X19: the default configuration when 02-rbac.yaml cannot be fetched. *)
Lemma BuildE2eCluster_post_install_fails_witness :
  let ext := logExternals (String.eqb (E2e.contourBaseURL ++ "02-rbac.yaml")) in
  let cl := {| E2e.cluster := "e2e-tests"; E2e.ingress := "localhost:30080";
               E2e.name := "e2e-tests" |} in
  exists w3,
    E2e.InstallContourIngress ext cl ["NewConfig e2e-tests"; "Create e2e-tests"]
    = (w3, Some (errorString "not found")) /\
    E2e.BuildE2eCluster ext (E2e.DefaultE2eClusterConfig ext) [] []
    = (w3 ++ ["Delete e2e-tests"], inr (errorString "not found")).
Proof.
  intros ext cl. eexists. run_it.
  exact (BuildE2eCluster_post_install_fails ext (E2e.DefaultE2eClusterConfig ext)
           (E2e.DefaultE2eClusterConfig ext) [] "e2e-tests" "e2e-tests"
           [] [] (E2e.InstallContourIngress ext) (errorString "not found")
           [] ["NewConfig e2e-tests"] ["NewConfig e2e-tests"; "Create e2e-tests"]
           ["NewConfig e2e-tests"; "Create e2e-tests"] _
           eq_refl eq_refl eq_refl eq_refl eq_refl Hrun).
Defined.

(** X20: the default configuration with the three options. *)
Lemma BuildE2eCluster_last_options_witness :
  exists w' c,
    E2e.BuildE2eCluster (logExternals (fun _ => false))
      (E2e.DefaultE2eClusterConfig (logExternals (fun _ => false)))
      ([E2e.WithIngressPort 8080]
       ++ [E2e.WithName "other"; E2e.WithIngressAddress "127.0.0.1";
           E2e.WithIngressPort 30081]) [] = (w', inl c) /\
    E2e.Name c = "other" /\ E2e.Ingress c = "127.0.0.1:30081".
Proof.
  eexists _, _. run_it.
  exact (BuildE2eCluster_last_options (logExternals (fun _ => false)) _ _
           "other" "127.0.0.1" 30081 _ _ _ Hrun).
Defined.

(** X21: 01-crds.yaml cannot be fetched. *)
Lemma InstallContourIngress_fetch_fails_witness :
  let ext := logExternals (String.eqb (E2e.contourBaseURL ++ "01-crds.yaml")) in
  let cl := {| E2e.cluster := "e2e-tests"; E2e.ingress := "localhost:30080";
               E2e.name := "e2e-tests" |} in
  E2e.InstallContourIngress ext cl []
  = (["kubectl /tmp/e2e-tests";
      ("GET " ++ E2e.contourBaseURL ++ "00-common.yaml")%string;
      ("Apply " ++ E2e.contourBaseURL ++ "00-common.yaml")%string;
      ("GET " ++ E2e.contourBaseURL ++ "01-crds.yaml")%string],
     Some (errorString "not found")).
Proof.
  intros ext cl.
  exact (InstallContourIngress_fetch_fails ext cl "/tmp/e2e-tests"
           ["00-common.yaml"] _ "01-crds.yaml" (errorString "not found")
           [] _ _ _ eq_refl eq_refl eq_refl eq_refl).
Defined.
